(** * The Fluent resolver (fluent/src/resolver.js, fluent/src/types.js)

    A shallow embedding of the runtime resolver: the recursive evaluator
    [Type] with its helpers, the value classes of types.js, and the
    properties the specification states about them.

    JavaScript data is modelled as the code has it:
    - strings are sequences of UTF-16 code units, so that [.length] is
      [length];
    - numbers are IEEE 754 doubles, so that [===] on numbers is
      [PrimFloat.eqb];
    - arrays carry an identity, because the dirty set of the resolver is a
      [WeakSet] of pattern arrays;
    - the error list and the dirty set are mutated in place by the code;
      they are threaded through a state monad, together with an allocation
      counter that names the arrays the resolver creates;
    - a JavaScript exception is an outcome of its own, and so is running
      out of fuel (the model's stand-in for unbounded recursion).

    What the two modules import is a parameter: [parseFloat], the
    conversion of strings to numbers and the table of './builtins' in the
    class [Host], the [Intl] formatters in the context.
    [MessageContext.format] of context.js is modelled from the
    specification. *)

From Stdlib Require Import ZArith NArith Lia List String Ascii Bool.
From Stdlib Require Import Floats.
From stdpp Require Import base option list gmap sets strings.

Local Open Scope nat_scope.

(** ** Strings *)

(** A JavaScript string: a sequence of UTF-16 code units. *)
Abbreviation jsstring := (list N) (only parsing).

(** The JavaScript string of an ASCII literal. *)
Definition js (s : string) : jsstring :=
  List.map Ascii.N_of_ascii (String.list_ascii_of_string s).

(** [String(n)] for a non-negative integer. *)
Fixpoint digits_of (fuel n : nat) (acc : jsstring) : jsstring :=
  match fuel with
  | O => acc
  | S fuel' =>
      let d := N.of_nat (Nat.modulo n 10) in
      let acc' := (48 + d)%N :: acc in
      if Nat.ltb n 10 then acc' else digits_of fuel' (Nat.div n 10) acc'
  end.

Definition string_of_nat (n : nat) : jsstring := digits_of (S n) n [].

(** Unicode bidi isolation characters. *)
Definition FSI : jsstring := [0x2068%N].
Definition PDI : jsstring := [0x2069%N].

(** Prevent expansion of too long placeables. *)
Definition MAX_PLACEABLE_LENGTH : nat := 2500.

(** ** Errors and outcomes *)

Inductive error_kind := RangeError | ReferenceError | TypeError | Error.

(** A JavaScript error object: its class and its message. *)
Record jserror := mkError { kind : error_kind; message : jsstring }.

(** How an evaluation ends: with a value, with a thrown exception, or with
    the fuel of the model exhausted. *)
Inductive outcome (A : Type) :=
| Ok (a : A)
| Throw (e : jserror)
| OutOfFuel.
Arguments Ok {A} a.
Arguments Throw {A} e.
Arguments OutOfFuel {A}.

(** ** Identity of arrays *)

(** Arrays of the runtime entries are named by the parser side
    ([Parsed]); arrays created during a resolution are named by the
    allocation counter of the state ([Allocated]). *)
Inductive ident := Parsed (n : nat) | Allocated (n : nat).

#[global] Instance ident_eq_dec : EqDecision ident.
Proof. solve_decision. Defined.

#[global] Instance ident_countable : Countable ident :=
  inj_countable'
    (fun i => match i with Parsed n => inl n | Allocated n => inr n end)
    (fun s => match s with inl n => Parsed n | inr n => Allocated n end)
    (fun i => match i with Parsed _ => eq_refl | Allocated _ => eq_refl end).

(** ** Values of types.js *)

(** A value of an options bag: a string or a number. *)
Inductive jsoption := OptString (s : jsstring) | OptNumber (x : float).

(** The options bag of a Fluent type, one that [Intl] accepts; the
    resolver hands it to [Intl] untouched. [None] is [undefined]. *)
Definition jsopts : Type := option (list (jsstring * jsoption)).

(** An instance of [FluentType] or of one of its subclasses. The [value]
    of a [FluentNone] is the optional hint; the [value] of a
    [FluentDateTime] is the time value of its [Date], which is [NaN] for
    an invalid date. *)
Inductive FluentType :=
| TBase
| TNone (value : option jsstring)
| TNumber (value : float) (opts : jsopts)
| TDateTime (value : float) (opts : jsopts)
| TKeyword (value : jsstring).

(** ** Runtime entries

    Every JavaScript value that [Type] can be handed: strings, arrays,
    instances of Fluent types, function objects (named by the registry
    they were found in), and the objects of the runtime AST, one
    constructor per [type] tag. [Variant] is a [{key, val}] member of a
    select expression, [Entry] a message object with optional [val] and
    [attrs]; neither has a [type] property. [Call] and [Attr]/[Var] keep
    the [name] of their [fun]/[id] child, the only property of it the
    resolver reads. *)
Inductive node :=
| Str (s : jsstring)
| Arr (id : ident) (elems : list node)
| Val (v : FluentType)
| Func (builtin : bool) (name : jsstring)
| Kw (name : jsstring)
| Num (val : jsstring)
| Ext (name : jsstring)
| Fun (name : jsstring)
| Call (callee : jsstring) (args : list node)
| Narg (name : jsstring) (val : node)
| Ref (name : jsstring)
| Attr (id : jsstring) (name : jsstring)
| Var (id : jsstring) (key : node)
| Sel (exp : option node) (vars : list (node * node)) (def : option nat)
| Variant (key : node) (val : node)
| Entry (val : option node) (attrs : option (list (jsstring * node)))
| Unknown (type : jsstring).

(** A value of the argument bag. *)
Inductive jsarg :=
| ArgFluent (v : FluentType)
| ArgString (s : jsstring)
| ArgNumber (x : float)
| ArgDate (t : float)
| ArgFunction (call : jsstring -> outcome bool)
| ArgOther (typeof : jsstring).

(** The array [keyargs] of a call, which the resolver uses as a bag of
    named arguments: its own properties other than [length], its
    [length], and its prototype once an assignment to [__proto__] has
    replaced [Array.prototype] ([None] until then). *)
Record jskeyargs := mkKeyargs {
  named : list (jsstring * node);
  named_length : N;
  named_proto : option node }.

(** A function of a registry: its [length], its source text and what a
    call with positional and named arguments does. *)
Record jsfunction := mkFunction {
  fn_length : nat;
  fn_text : jsstring;
  fn_call : list node -> jskeyargs -> outcome node }.

(** A property of a function registry. *)
Inductive slot := SlotFunction (f : jsfunction) | SlotOther (truthy : bool).

(** What the resolver imports from outside the two modules: the global
    [parseFloat], applied to a string or to a number, the conversion of
    a string to a number that the language applies where it needs a
    number, and the table of './builtins'. [builtins !! name] is what
    [builtins[name]] evaluates to. *)
Class Host := {
  parseFloat : jsstring + float -> float;
  StringToNumber : jsstring -> float;
  builtins : gmap jsstring slot }.

(** The message context, as far as the resolver reads it.
    [functions !! name] is what [ctx.functions[name]] evaluates to, a
    property the registry inherits included. The three formatters are
    [ctx._memoizeIntlObject(Intl.NumberFormat, opts).format],
    [ctx._memoizeIntlObject(Intl.DateTimeFormat, opts).format] on a valid
    time value and [ctx._memoizeIntlObject(Intl.PluralRules, opts).select]
    for the locale of the context. *)
Record MessageContext := mkContext {
  messages : gmap jsstring node;
  functions : gmap jsstring slot;
  useIsolating : bool;
  NumberFormat : jsopts -> float -> jsstring;
  DateTimeFormat : jsopts -> float -> jsstring;
  PluralRules : jsopts -> float -> jsstring }.

(** The immutable part of [env]. [args] is [None] for a missing argument
    bag; a bag is an object that inherits from [Object.prototype], given
    by its own properties. *)
Record Env := mkEnv {
  ctx : MessageContext;
  args : option (gmap jsstring jsarg) }.

(** The mutable part of [env]: the error list and the dirty set, and the
    allocation counter. *)
Record state := mkState {
  errors : list jserror;
  dirty : gset ident;
  next : nat }.

(** ** The evaluation monad *)

Definition M (A : Type) : Type := state -> outcome A * state.

Definition ret {A} (a : A) : M A := fun st => (Ok a, st).

Definition bind {A B} (m : M A) (k : A -> M B) : M B :=
  fun st =>
    match m st with
    | (Ok a, st') => k a st'
    | (Throw e, st') => (Throw e, st')
    | (OutOfFuel, st') => (OutOfFuel, st')
    end.

Notation "'let*' x ':=' m 'in' k" := (bind m (fun x => k))
  (at level 10, x name, m at level 100, k at level 200).
Notation "'exec' m 'in' k" := (bind m (fun _ => k))
  (at level 10, m at level 100, k at level 200).

(** An outcome that does not touch the state. *)
Definition lift {A} (o : outcome A) : M A := fun st => (o, st).

Definition throw {A} (e : jserror) : M A := lift (Throw e).

(** [errors.push(e)] *)
Definition push_error (e : jserror) : M unit :=
  fun st => (Ok tt, mkState (errors st ++ [e]) (dirty st) (next st)).

(** [dirty.has(ptn)], [dirty.add(ptn)], [dirty.delete(ptn)] *)
Definition dirty_has (i : ident) : M bool :=
  fun st => (Ok (bool_decide (i ∈ dirty st)), st).
Definition dirty_add (i : ident) : M unit :=
  fun st => (Ok tt, mkState (errors st) (dirty st ∪ {[ i ]}) (next st)).
Definition dirty_delete (i : ident) : M unit :=
  fun st => (Ok tt, mkState (errors st) (dirty st ∖ {[ i ]}) (next st)).

(** The identity of a new array. *)
Definition alloc : M ident :=
  fun st => (Ok (Allocated (next st)),
             mkState (errors st) (dirty st) (S (next st))).

(** ** types.js *)

Section Types.
Context `{Host}.

(** [new FluentNone(value)], [new FluentKeyword(value)]: the constructor
    of [FluentType] stores its argument. *)
Definition FluentNone (value : option jsstring) : FluentType := TNone value.
Definition FluentKeyword (value : jsstring) : FluentType := TKeyword value.

(** [new FluentNumber(value, opts)]: [super(parseFloat(value), opts)] *)
Definition FluentNumber (value : jsstring + float) (opts : jsopts)
  : FluentType :=
  TNumber (parseFloat value) opts.

(** [new FluentDateTime(value, opts)]: [super(new Date(value), opts)],
    a copy of the date with the same time value. *)
Definition FluentDateTime (value : float) (opts : jsopts) : FluentType :=
  TDateTime value opts.

(** A time value that [Intl.DateTimeFormat.prototype.format] accepts: a
    finite number of milliseconds of magnitude at most 8.64e15. The time
    value of an invalid [Date] is [NaN]. *)
Definition valid_time (t : float) : bool :=
  PrimFloat.is_finite t && PrimFloat.leb (PrimFloat.abs t) 8.64e15%float.

(** [valueOf(ctx)] of each class. In [FluentNone] the empty hint is
    falsy, so [this.value || '???'] replaces it too. In [FluentDateTime],
    [dtf.format] throws a range error on an invalid date. *)
Definition valueOf (c : MessageContext) (v : FluentType)
  : outcome jsstring :=
  match v with
  | TBase =>
      Throw (mkError Error
               (js "Subclasses of FluentType must implement valueOf."))
  | TNone (Some (ch :: s)) => Ok (ch :: s)
  | TNone _ => Ok (js "???")
  | TNumber value opts => Ok (NumberFormat c opts value)
  | TDateTime value opts =>
      if valid_time value then Ok (DateTimeFormat c opts value)
      else Throw (mkError RangeError (js "Invalid time value"))
  | TKeyword value => Ok value
  end.

(** [FluentNumber.prototype.match] *)
Definition FluentNumber_match (value : float) (other : node) : bool :=
  match other with
  | Val (TNumber value' _) => PrimFloat.eqb value value'
  | _ => false
  end.

(** [FluentKeyword.prototype.match] *)
Definition FluentKeyword_match (c : MessageContext) (value : jsstring)
    (other : node) : bool :=
  match other with
  | Val (TKeyword value') => bool_decide (value = value')
  | Str s => bool_decide (value = s)
  | Val (TNumber value' opts) =>
      bool_decide (value = PluralRules c opts value')
  | _ => false
  end.

(** Modelled from the spec: the context is an instance of the class of
    context.js, which is not among the sources; the specification gives
    it no [Symbol.match] and no [toString] of its own. So
    [String.prototype.match] with the context as its pattern matches
    against the regular expression [/[object Object]/], a character
    class: the string matches when it holds one of the characters of
    "object O". *)
Definition String_match (s : jsstring) : bool :=
  existsb (fun ch => bool_decide (ch ∈ js "object O")) s.

(** [key.match(ctx, other)] on an arbitrary receiver, as a condition: of
    the Fluent types only the two classes above have the method, and a
    string has the one of [String.prototype]. *)
Definition method_match (c : MessageContext) (receiver other : node)
  : outcome bool :=
  match receiver with
  | Val (TNumber value _) => Ok (FluentNumber_match value other)
  | Val (TKeyword value) => Ok (FluentKeyword_match c value other)
  | Str s => Ok (String_match s)
  | _ => Throw (mkError TypeError (js "match is not a function"))
  end.
End Types.

(** ** Conversions the resolver relies on *)

Section Conversions.
Context `{Host}.

(** The function object behind a [Func] node. *)
Definition function_of (c : MessageContext) (builtin : bool)
    (name : jsstring) : option jsfunction :=
  match (if builtin then builtins !! name else functions c !! name) with
  | Some (SlotFunction f) => Some f
  | _ => None
  end.

(** [String(x)] of a value that is not a string: objects print as
    [[object Object]], functions as their source, arrays as their
    elements joined by commas. *)
Fixpoint toString (c : MessageContext) (n : node) : jsstring :=
  match n with
  | Str s => s
  | Arr _ elems =>
      (fix join (l : list node) : jsstring :=
         match l with
         | [] => []
         | [x] => toString c x
         | x :: rest => toString c x ++ js "," ++ join rest
         end) elems
  | Func builtin name =>
      match function_of c builtin name with
      | Some f => fn_text f
      | None => []
      end
  | _ => js "[object Object]"
  end.

(** The text of [part.valueOf(ctx)] inside a template literal. Strings
    and Fluent types have a [valueOf] of their own; every other object
    inherits the one that returns the object itself. *)
Definition valueOf_text (c : MessageContext) (part : node)
  : outcome jsstring :=
  match part with
  | Str s => Ok s
  | Val v => valueOf c v
  | other => Ok (toString c other)
  end.

(** [part.valueOf(ctx).length]; [None] is [undefined]. *)
Definition valueOf_length (c : MessageContext) (part : node)
  : outcome (option nat) :=
  match part with
  | Str s => Ok (Some (length s))
  | Val v =>
      match valueOf c v with
      | Ok s => Ok (Some (length s))
      | Throw e => Throw e
      | OutOfFuel => OutOfFuel
      end
  | Arr _ elems => Ok (Some (length elems))
  | Func builtin name => Ok (fn_length <$> function_of c builtin name)
  | _ => Ok None
  end.

(** [typeof arg] *)
Definition typeof (arg : jsarg) : jsstring :=
  match arg with
  | ArgString _ => js "string"
  | ArgNumber _ => js "number"
  | ArgFunction _ => js "function"
  | ArgFluent _ | ArgDate _ => js "object"
  | ArgOther t => t
  end.

(** [!x] for a runtime entry: the empty string is the only falsy one. *)
Definition falsy (n : node) : bool :=
  match n with
  | Str [] => true
  | _ => false
  end.

(** [x instanceof FluentNone] *)
Definition is_FluentNone (n : node) : bool :=
  match n with
  | Val (TNone _) => true
  | _ => false
  end.

(** The [val] and [attrs] properties of an object; [None] is
    [undefined]. *)
Definition prop_val (n : node) : option node :=
  match n with
  | Entry val _ => val
  | Variant _ val | Narg _ val => Some val
  | Num val => Some (Str val)
  | _ => None
  end.

Definition prop_attrs (n : node) : option (list (jsstring * node)) :=
  match n with
  | Entry _ attrs => attrs
  | _ => None
  end.

(** [obj[name]] for an object whose own properties are the list. *)
Fixpoint property {A} (name : jsstring) (obj : list (jsstring * A))
  : option A :=
  match obj with
  | [] => None
  | (k, v) :: rest =>
      if bool_decide (k = name) then Some v else property name rest
  end.

(** [obj[name] = v] *)
Fixpoint set_property {A} (name : jsstring) (v : A)
    (obj : list (jsstring * A)) : list (jsstring * A) :=
  match obj with
  | [] => [(name, v)]
  | (k, w) :: rest =>
      if bool_decide (k = name) then (k, v) :: rest
      else (k, w) :: set_property name v rest
  end.

(** The number a property name is an array index for: the name is the
    decimal form, without leading zeros, of an integer below 2^32 - 1. *)
Fixpoint digits_value (s : jsstring) (acc : N) : option N :=
  match s with
  | [] => Some acc
  | ch :: rest =>
      if ((48 <=? ch) && (ch <=? 57))%N
      then digits_value rest (10 * acc + (ch - 48))%N
      else None
  end.

Definition array_index (name : jsstring) : option N :=
  match name with
  | [] => None
  | [48%N] => Some 0%N
  | 48%N :: _ => None
  | _ =>
      match digits_value name 0 with
      | Some n => if (n <? 4294967295)%N then Some n else None
      | None => None
      end
  end.

(** The array length a number stands for: [ToUint32(x)] when it equals
    [x], that is when [x] is an integer from 0 to 2^32 - 1. *)
Definition array_length_of (x : float) : option N :=
  match Prim2SF x with
  | S754_zero _ => Some 0%N
  | S754_finite false m e =>
      let n :=
        if (0 <=? e)%Z then Some (Z.pos m * 2 ^ e)%Z
        else if (Z.pos m mod 2 ^ (- e) =? 0)%Z
             then Some (Z.pos m / 2 ^ (- e))%Z
             else None in
      match n with
      | Some z => if (z <? 4294967296)%Z then Some (Z.to_N z) else None
      | None => None
      end
  | _ => None
  end.

(** [ToNumber(v)] of a value the resolver has resolved. A string is
    converted; a Fluent type is asked for its [valueOf()], which gets no
    context here, so that the two classes that format through the
    context throw a type error; every other object is converted through
    its [toString()]. *)
Definition ToNumber (c : MessageContext) (v : node) : outcome float :=
  match v with
  | Str s => Ok (StringToNumber s)
  | Val (TNumber _ _) | Val (TDateTime _ _) =>
      Throw (mkError TypeError
               (js "Cannot read property '_memoizeIntlObject' of undefined"))
  | Val w =>
      match valueOf c w with
      | Ok s => Ok (StringToNumber s)
      | Throw e => Throw e
      | OutOfFuel => OutOfFuel
      end
  | other => Ok (StringToNumber (toString c other))
  end.

(** The names that cannot be assigned to on an object that inherits from
    a function object: [name] is a read-only property of a function, and
    the setters of [caller] and [arguments] throw. *)
Definition function_readonly (name : jsstring) : bool :=
  bool_decide (name ∈ [js "name"; js "caller"; js "arguments"]).

(** [keyargs[name] = v] on the array [keyargs], in strict mode.
    - [length] sets the length of the array: the value is converted to a
      number, which has to be an array length, and the elements from the
      new length on are deleted;
    - [__proto__] is the accessor of [Object.prototype]: a value that is
      an object becomes the prototype of the array, a string is ignored;
    - a name that is read-only on the prototype throws a type error;
    - any other name becomes an own property, and an array index at or
      beyond the length extends the length. *)
Definition Array_set (c : MessageContext) (keyargs : jskeyargs)
    (name : jsstring) (v : node) : outcome jskeyargs :=
  if bool_decide (name = js "length") then
    match ToNumber c v with
    | Ok x =>
        match array_length_of x with
        | Some n =>
            Ok (mkKeyargs
                  (List.filter
                     (fun kv : jsstring * node =>
                        match array_index kv.1 with
                        | Some i => (i <? n)%N
                        | None => true
                        end) (named keyargs))
                  n (named_proto keyargs))
        | None => Throw (mkError RangeError (js "Invalid array length"))
        end
    | Throw e => Throw e
    | OutOfFuel => OutOfFuel
    end
  else if bool_decide (name = js "__proto__") then
    match v with
    | Str _ => Ok keyargs
    | _ => Ok (mkKeyargs (named keyargs) (named_length keyargs) (Some v))
    end
  else
    match named_proto keyargs with
    | Some (Func _ _) =>
        if function_readonly name && negb (bool_decide
             (is_Some (property name (named keyargs))))
        then Throw (mkError TypeError
                      (js "Cannot assign to read only property"))
        else
          Ok (mkKeyargs (set_property name v (named keyargs))
                (match array_index name with
                 | Some i => N.max (named_length keyargs) (i + 1)
                 | None => named_length keyargs
                 end) (named_proto keyargs))
    | _ =>
        Ok (mkKeyargs (set_property name v (named keyargs))
              (match array_index name with
               | Some i => N.max (named_length keyargs) (i + 1)
               | None => named_length keyargs
               end) (named_proto keyargs))
    end.
End Conversions.

(** ** resolver.js *)

Section Resolver.
Context `{Host}.

(** The recursive calls of [Type] made by the helpers below; the knot is
    tied by [Type_] at the end. *)
Variable rec : Env -> node -> M node.

Definition add_length (sum len : option nat) : option nat :=
  match sum, len with
  | Some a, Some b => Some (a + b)
  | _, _ => None
  end.

(** The [reduce] of [PlaceableLength]; a sum of [None] is [NaN]. *)
Fixpoint reduce_length (c : MessageContext) (sum : option nat)
    (parts : list node) : outcome (option nat) :=
  match parts with
  | [] => Ok sum
  | part :: rest =>
      match valueOf_length c part with
      | Ok len => reduce_length c (add_length sum len) rest
      | Throw e => Throw e
      | OutOfFuel => OutOfFuel
      end
  end.

Definition PlaceableLength (env : Env) (parts : list node)
  : outcome (option nat) :=
  reduce_length (ctx env) (Some 0) parts.

Definition DefaultMember (env : Env) (members : list (node * node))
    (def : option nat) : M node :=
  match def ≫= (fun i => members !! i) with
  | Some (key, val) => ret (Variant key val)
  | None =>
      exec push_error (mkError RangeError (js "No default")) in
      ret (Val (FluentNone None))
  end.

Definition MessageReference (env : Env) (name : jsstring) : M node :=
  match messages (ctx env) !! name with
  | Some message =>
      if falsy message then
        exec push_error
          (mkError ReferenceError (js "Unknown message: " ++ name)) in
        ret (Val (FluentNone (Some name)))
      else ret message
  | None =>
      exec push_error
        (mkError ReferenceError (js "Unknown message: " ++ name)) in
      ret (Val (FluentNone (Some name)))
  end.

(** [isVariantList(node)]: reading [node[0].type] of an empty array
    throws. *)
Definition isVariantList (n : option node) : outcome bool :=
  match n with
  | Some (Arr _ []) =>
      Throw (mkError TypeError
               (js "Cannot read property 'type' of undefined"))
  | Some (Arr _ (Sel None _ _ :: _)) => Ok true
  | _ => Ok false
  end.

(** [message.val[0].vars] of a variant list. *)
Definition variant_list_vars (n : option node) : list (node * node) :=
  match n with
  | Some (Arr _ (Sel _ vars _ :: _)) => vars
  | _ => []
  end.

(** The loop of [VariantExpression]. *)
Fixpoint VariantExpression_loop (env : Env) (keyword : node)
    (vars : list (node * node)) : M (option node) :=
  match vars with
  | [] => ret None
  | (key, val) :: rest =>
      let* variantKey := rec env key in
      let* hit := lift (method_match (ctx env) keyword variantKey) in
      if hit then ret (Some (Variant key val))
      else VariantExpression_loop env keyword rest
  end.

Definition VariantExpression (env : Env) (id : jsstring) (key : node)
  : M node :=
  let* message := MessageReference env id in
  if is_FluentNone message then ret message
  else
    let* keyword := rec env key in
    let* is_list := lift (isVariantList (prop_val message)) in
    let* found :=
      (if is_list
       then VariantExpression_loop env keyword
              (variant_list_vars (prop_val message))
       else ret None) in
    match found with
    | Some variant => ret variant
    | None =>
        let* text := lift (valueOf_text (ctx env) keyword) in
        exec push_error
          (mkError ReferenceError (js "Unknown variant: " ++ text)) in
        rec env message
    end.

Definition AttributeExpression (env : Env) (id name : jsstring) : M node :=
  let* message := MessageReference env id in
  if is_FluentNone message then ret message
  else
    match prop_attrs message ≫= property name with
    | Some attr => ret attr
    | None =>
        exec push_error
          (mkError ReferenceError (js "Unknown attribute: " ++ name)) in
        rec env message
    end.

Definition keyCanMatch (key : node) : bool :=
  match key with
  | Val (TNumber _ _) | Val (TKeyword _) => true
  | _ => false
  end.

(** The loop of [SelectExpression]. *)
Fixpoint SelectExpression_loop (env : Env) (selector : node)
    (vars : list (node * node)) : M (option node) :=
  match vars with
  | [] => ret None
  | (k, v) :: rest =>
      let* key := rec env k in
      let* hit :=
        (if keyCanMatch key
         then lift (method_match (ctx env) key selector)
         else ret false) in
      if hit then ret (Some (Variant k v))
      else SelectExpression_loop env selector rest
  end.

Definition SelectExpression (env : Env) (exp : option node)
    (vars : list (node * node)) (def : option nat) : M node :=
  match exp with
  | None => DefaultMember env vars def
  | Some e =>
      let* selector := rec env e in
      if is_FluentNone selector then DefaultMember env vars def
      else
        let* found := SelectExpression_loop env selector vars in
        match found with
        | Some variant => ret variant
        | None => DefaultMember env vars def
        end
  end.

(** [args.hasOwnProperty(name)]: the method is looked up on the bag
    itself first, so a bag with a key of that name shadows the
    inherited one. *)
Definition hasOwnProperty (bag : gmap jsstring jsarg) (name : jsstring)
  : outcome bool :=
  match bag !! js "hasOwnProperty" with
  | None => Ok (bool_decide (is_Some (bag !! name)))
  | Some (ArgFunction call) => call name
  | Some _ =>
      Throw (mkError TypeError (js "args.hasOwnProperty is not a function"))
  end.

Definition ExternalArgument (env : Env) (name : jsstring) : M node :=
  let unknown :=
    exec push_error
      (mkError ReferenceError (js "Unknown external: " ++ name)) in
    ret (Val (FluentNone (Some name))) in
  let unsupported (t : jsstring) :=
    exec push_error
      (mkError TypeError
         (js "Unsupported external type: " ++ name ++ js ", " ++ t)) in
    ret (Val (FluentNone (Some name))) in
  match args env with
  | None => unknown
  | Some bag =>
      let* has := lift (hasOwnProperty bag name) in
      if negb has then unknown
      else
        match bag !! name with
        | Some (ArgFluent v) => ret (Val v)
        | Some (ArgString s) => ret (Str s)
        | Some (ArgNumber x) => ret (Val (FluentNumber (inr x) None))
        | Some (ArgDate t) => ret (Val (FluentDateTime t None))
        | Some arg => unsupported (typeof arg)
        | None => unsupported (js "undefined")
        end
  end.

Definition FunctionReference (env : Env) (name : jsstring) : M node :=
  let func :=
    match functions (ctx env) !! name with
    | Some (SlotOther false) | None => pair true <$> builtins !! name
    | Some s => Some (false, s)
    end in
  match func with
  | None | Some (_, SlotOther false) =>
      exec push_error
        (mkError ReferenceError
           (js "Unknown function: " ++ name ++ js "()")) in
      ret (Val (FluentNone (Some (name ++ js "()"))))
  | Some (_, SlotOther true) =>
      exec push_error
        (mkError TypeError
           (js "Function " ++ name ++ js "() is not callable")) in
      ret (Val (FluentNone (Some (name ++ js "()"))))
  | Some (builtin, SlotFunction _) => ret (Func builtin name)
  end.

(** The loop of [CallExpression]. *)
Fixpoint CallExpression_loop (env : Env) (l : list node)
    (posargs : list node) (keyargs : jskeyargs)
  : M (list node * jskeyargs) :=
  match l with
  | [] => ret (posargs, keyargs)
  | Narg name val :: rest =>
      let* v := rec env val in
      let* keyargs := lift (Array_set (ctx env) keyargs name v) in
      CallExpression_loop env rest posargs keyargs
  | arg :: rest =>
      let* v := rec env arg in
      CallExpression_loop env rest (posargs ++ [v]) keyargs
  end.

(** [const keyargs = []] *)
Definition no_keyargs : jskeyargs := mkKeyargs [] 0 None.

Definition CallExpression (env : Env) (fun_ : jsstring) (l : list node)
  : M node :=
  let* callee := FunctionReference env fun_ in
  if is_FluentNone callee then ret callee
  else
    let* collected := CallExpression_loop env l [] no_keyargs in
    let (posargs, keyargs) := (collected : _ * _) in
    match callee with
    | Func builtin name =>
        match function_of (ctx env) builtin name with
        | Some f => lift (fn_call f posargs keyargs)
        | None =>
            throw (mkError TypeError (js "callee is not a function"))
        end
    | _ => throw (mkError TypeError (js "callee is not a function"))
    end.

(** [len > MAX_PLACEABLE_LENGTH]; a comparison with [NaN] is false. *)
Definition too_long (len : option nat) : bool :=
  match len with
  | Some n => MAX_PLACEABLE_LENGTH <? n
  | None => false
  end.

Definition length_text (len : option nat) : jsstring :=
  match len with
  | Some n => string_of_nat n
  | None => js "NaN"
  end.

(** The body of the loop of [Pattern] after [part] has been resolved. *)
Definition Pattern_part (env : Env) (part : node) (result : list node)
  : M (list node) :=
  let result :=
    if useIsolating (ctx env) then result ++ [Str FSI] else result in
  let* result :=
    match part with
    | Arr _ parts =>
        let* len := lift (PlaceableLength env parts) in
        if too_long len then
          exec push_error
            (mkError RangeError
               (js "Too many characters in placeable " ++
                js "(" ++ length_text len ++ js ", max allowed is " ++
                string_of_nat MAX_PLACEABLE_LENGTH ++ js ")")) in
          ret (result ++ [Val (FluentNone None)])
        else ret (result ++ parts)
    | _ => ret (result ++ [part])
    end in
  ret (if useIsolating (ctx env) then result ++ [Str PDI] else result).

(** The loop of [Pattern]. *)
Fixpoint Pattern_loop (env : Env) (elems : list node)
    (result : list node) : M (list node) :=
  match elems with
  | [] => ret result
  | Str s :: rest => Pattern_loop env rest (result ++ [Str s])
  | elem :: rest =>
      let* part := rec env elem in
      let* result := Pattern_part env part result in
      Pattern_loop env rest result
  end.

(** [Pattern(env, ptn)] for the array [ptn] of identity [id]. *)
Definition Pattern (env : Env) (id : ident) (elems : list node)
  : M node :=
  let* seen := dirty_has id in
  if (seen : bool) then
    exec push_error (mkError RangeError (js "Cyclic reference")) in
    ret (Val (FluentNone None))
  else
    exec dirty_add id in
    let* fresh := alloc in
    let* result := Pattern_loop env elems [] in
    exec dirty_delete id in
    ret (Arr fresh result).

(** The body of [Type]. *)
Definition Type_body (env : Env) (expr : node) : M node :=
  match expr with
  | Str _ | Val (TNone _) => ret expr
  | Arr id elems => Pattern env id elems
  | Kw name => ret (Val (FluentKeyword name))
  | Num val => ret (Val (FluentNumber (inl val) None))
  | Ext name => ExternalArgument env name
  | Fun name => FunctionReference env name
  | Call callee l => CallExpression env callee l
  | Ref name =>
      let* message := MessageReference env name in
      rec env message
  | Attr id name =>
      let* attr := AttributeExpression env id name in
      rec env attr
  | Var id key =>
      let* variant := VariantExpression env id key in
      rec env variant
  | Sel exp vars def =>
      let* member := SelectExpression env exp vars def in
      rec env member
  | Entry (Some val) _ | Variant _ val => rec env val
  | Entry None _ | Val _ | Func _ _ =>
      exec push_error (mkError RangeError (js "No value")) in
      ret (Val (FluentNone None))
  | Narg _ _ | Unknown _ => ret (Val (FluentNone None))
  end.
End Resolver.

(** [Type(env, expr)], with the depth of the recursion bounded by
    [fuel]. *)
Fixpoint Type_ `{Host} (fuel : nat) (env : Env) (expr : node) : M node :=
  match fuel with
  | O => lift OutOfFuel
  | S fuel' => Type_body (Type_ fuel') env expr
  end.

(** [resolve(ctx, args, message, errors)]: a new environment with an
    empty dirty set around the caller's error list. The result comes with
    the error list as the call leaves it. *)
Definition resolve `{Host} (fuel : nat) (c : MessageContext)
    (a : option (gmap jsstring jsarg)) (message : node)
    (errs : list jserror) : outcome node * list jserror :=
  let (result, st) := Type_ fuel (mkEnv c a) message (mkState errs ∅ 0) in
  (result, errors st).

(** ** context.js *)

Section Format.
Context `{Host}.

(** The parts joined: [valueOf(ctx)] of each, concatenated. *)
Fixpoint join_parts (c : MessageContext) (parts : list node)
  : outcome jsstring :=
  match parts with
  | [] => Ok []
  | part :: rest =>
      match valueOf_text c part, join_parts c rest with
      | Ok s, Ok t => Ok (s ++ t)
      | Ok _, other => other
      | Throw e, _ => Throw e
      | OutOfFuel, _ => OutOfFuel
      end
  end.

(** Modelled from the spec: [MessageContext.format] is defined in
    context.js, which is not among the sources. An entry without a
    value formats to [null] ([None] here) and appends no error; any
    other entry is resolved, and a list of parts is joined by calling
    [valueOf(ctx)] on each part and concatenating. *)
Definition format (fuel : nat) (c : MessageContext) (entry : node)
    (a : option (gmap jsstring jsarg)) (errs : list jserror)
  : outcome (option jsstring) * list jserror :=
  match entry with
  | Entry None _ => (Ok None, errs)
  | _ =>
      match resolve fuel c a entry errs with
      | (Ok (Arr _ parts), errs') =>
          (match join_parts c parts with
           | Ok s => Ok (Some s)
           | Throw e => Throw e
           | OutOfFuel => OutOfFuel
           end, errs')
      | (Ok part, errs') =>
          (match valueOf_text c part with
           | Ok s => Ok (Some s)
           | Throw e => Throw e
           | OutOfFuel => OutOfFuel
           end, errs')
      | (Throw e, errs') => (Throw e, errs')
      | (OutOfFuel, errs') => (OutOfFuel, errs')
      end
  end.
End Format.

(** ** A host and a context to run examples in *)

Module Sample.

(** White space and line terminators of the language. *)
Definition is_space (ch : N) : bool :=
  bool_decide
    (ch ∈ [9; 10; 11; 12; 13; 32; 160; 5760; 8232; 8233; 8239; 8287;
           12288; 65279]%N)
  || ((8192 <=? ch) && (ch <=? 8202))%N.

Fixpoint skip_spaces (s : jsstring) : jsstring :=
  match s with
  | ch :: rest => if is_space ch then skip_spaces rest else s
  | [] => []
  end.

(** The value of a digit in a base up to 16. *)
Definition digit_value (base ch : N) : option N :=
  let d :=
    if ((48 <=? ch) && (ch <=? 57))%N then Some (ch - 48)%N
    else if ((97 <=? ch) && (ch <=? 102))%N then Some (ch - 87)%N
    else if ((65 <=? ch) && (ch <=? 70))%N then Some (ch - 55)%N
    else None in
  match d with
  | Some n => if (n <? base)%N then Some n else None
  | None => None
  end.

(** The longest run of digits at the head of [s]: the number they
    continue [m] to, how many they are, and what follows them. *)
Fixpoint read_digits (base : N) (s : jsstring) (m : Z) (n : nat)
  : Z * nat * jsstring :=
  match s with
  | ch :: rest =>
      match digit_value base ch with
      | Some d =>
          read_digits base rest (Z.of_N base * m + Z.of_N d)%Z (S n)
      | None => (m, n, s)
      end
  | [] => (m, n, [])
  end.

(** The double nearest to [p / q], ties to even, for positive [p] and
    [q]: the quotient is taken with 64 bits or more and a sticky bit, and
    rounded once. *)
Definition round_ratio (p q : Z) : float :=
  let s := Z.max 0 (64 + Z.log2 q - Z.log2 p) in
  let num := (p * 2 ^ s)%Z in
  let sticky := if (num mod q =? 0)%Z then 0%Z else 1%Z in
  SF2Prim
    (SpecFloat.binary_normalize FloatOps.prec FloatOps.emax
       (2 * (num / q) + sticky) (- (s + 1)) false).

(** The double nearest to [m * 10 ^ e] for [m] of at most [n] decimal
    digits. Beyond 10^400 the result is infinite and below 10^-400 it is
    zero, whatever the digits. *)
Definition decimal_value (m : Z) (n : nat) (e : Z) : float :=
  if (m =? 0)%Z then 0%float
  else if (400 <? e)%Z then PrimFloat.infinity
  else if (e + Z.of_nat n <? -400)%Z then 0%float
  else if (0 <=? e)%Z then round_ratio (m * 10 ^ e) 1
  else round_ratio m (10 ^ (- e)).

(** The exponent part at the head of [s], if there is a complete one. *)
Definition read_exponent (s : jsstring) : Z * jsstring :=
  match s with
  | ch :: rest =>
      if bool_decide (ch = 101%N \/ ch = 69%N) then
        let (negative, body) :=
          match rest with
          | 45%N :: r => (true, r)
          | 43%N :: r => (false, r)
          | _ => (false, rest)
          end in
        match read_digits 10 body 0%Z 0 with
        | (_, O, _) => (0%Z, s)
        | (e, _, after) => ((if negative then - e else e)%Z, after)
        end
      else (0%Z, s)
  | [] => (0%Z, s)
  end.

(** The longest unsigned decimal literal at the head of [s], with what
    follows it: [Infinity], or digits with an optional fraction and an
    optional exponent, where the digits before or after the point may be
    missing but not both. *)
Definition read_unsigned (s : jsstring) : option (float * jsstring) :=
  if bool_decide (take 8 s = js "Infinity")
  then Some (PrimFloat.infinity, drop 8 s)
  else
    let '(m1, n1, after_int) := read_digits 10 s 0%Z 0 in
    let '(m2, n2, after_frac) :=
      match after_int with
      | 46%N :: r =>
          let '(m, n, after) := read_digits 10 r m1 0 in
          match n1, n with
          | O, O => (m1, 0, after_int)
          | _, _ => (m, n, after)
          end
      | _ => (m1, 0, after_int)
      end in
    match n1 + n2 with
    | O => None
    | _ =>
        let (e, rest) := read_exponent after_frac in
        Some (decimal_value m2 (n1 + n2) (e - Z.of_nat n2), rest)
    end.

(** An optional sign and an unsigned decimal literal. *)
Definition read_signed (s : jsstring) : option (float * jsstring) :=
  match s with
  | 45%N :: rest =>
      match read_unsigned rest with
      | Some (x, after) => Some (PrimFloat.opp x, after)
      | None => None
      end
  | 43%N :: rest => read_unsigned rest
  | _ => read_unsigned s
  end.

(** The global [parseFloat]. On a string it reads the longest decimal
    literal after leading white space, and answers [NaN] when there is
    none. On a number it reads back the decimal form of the number,
    which gives the number itself, with [-0] read as [0]. *)
Definition parseFloat_decimal (v : jsstring + float) : float :=
  match v with
  | inr x => if PrimFloat.eqb x 0%float then 0%float else x
  | inl s =>
      match read_signed (skip_spaces s) with
      | Some (x, _) => x
      | None => PrimFloat.nan
      end
  end.

(** An integer literal in base 2, 8 or 16, without its prefix. *)
Definition read_radix (base : N) (s : jsstring) : float :=
  match read_digits base s 0%Z 0 with
  | (_, O, _) => PrimFloat.nan
  | (m, _, []) => if (m =? 0)%Z then 0%float else round_ratio m 1
  | _ => PrimFloat.nan
  end.

(** The conversion of a string to a number: white space at both ends
    is dropped, the empty string is 0, and what is left has to be a
    numeric literal as a whole, decimal with an optional sign or an
    integer with the prefix [0x], [0o] or [0b]. *)
Definition StringToNumber_literal (s : jsstring) : float :=
  let body := rev (skip_spaces (rev (skip_spaces s))) in
  match body with
  | [] => 0%float
  | 48%N :: p :: digits =>
      if bool_decide (p = 120%N \/ p = 88%N) then read_radix 16 digits
      else if bool_decide (p = 111%N \/ p = 79%N) then read_radix 8 digits
      else if bool_decide (p = 98%N \/ p = 66%N) then read_radix 2 digits
      else
        match read_signed body with
        | Some (x, []) => x
        | _ => PrimFloat.nan
        end
  | _ =>
      match read_signed body with
      | Some (x, []) => x
      | _ => PrimFloat.nan
      end
  end.

(** The value of a named argument as an option of [Intl]. *)
Definition option_value (v : node) : option jsoption :=
  match v with
  | Str s | Val (TKeyword s) => Some (OptString s)
  | Val (TNumber x _) => Some (OptNumber x)
  | _ => None
  end.

(** The options of a value with the named arguments of a call merged
    in; a named argument wins over an option of the same name. *)
Definition merge (opts : jsopts) (keyargs : jskeyargs) : jsopts :=
  Some
    (fold_left
       (fun bag (kv : jsstring * node) =>
          match option_value kv.2 with
          | Some o => set_property kv.1 o bag
          | None => bag
          end)
       (named keyargs) (default [] opts)).

(** Modelled from the spec: the table of './builtins' is not among the
    sources. The specification asks for [NUMBER], which wraps its first
    positional argument as a number with the options merged, and for
    [DATETIME], which does the same for a date; a [FluentNone] is handed
    on. Where the specification is silent this table makes a choice:
    [NUMBER] wraps an argument that is no number as [NaN], [DATETIME]
    answers an argument that is no date with a [FluentNone], and so do
    both when there is no argument. The source texts are stand-ins. *)
Definition NUMBER : jsfunction :=
  mkFunction 2 (js "function NUMBER() { [native code] }")
    (fun posargs keyargs =>
       match posargs with
       | Val (TNumber x opts) :: _ =>
           Ok (Val (TNumber x (merge opts keyargs)))
       | Val (TNone hint) :: _ => Ok (Val (TNone hint))
       | _ :: _ => Ok (Val (TNumber PrimFloat.nan (merge None keyargs)))
       | [] => Ok (Val (TNone None))
       end).

Definition DATETIME : jsfunction :=
  mkFunction 2 (js "function DATETIME() { [native code] }")
    (fun posargs keyargs =>
       match posargs with
       | Val (TDateTime t opts) :: _ =>
           Ok (Val (TDateTime t (merge opts keyargs)))
       | Val (TNone hint) :: _ => Ok (Val (TNone hint))
       | _ => Ok (Val (TNone None))
       end).

#[global] Instance host : Host := {|
  parseFloat := parseFloat_decimal;
  StringToNumber := StringToNumber_literal;
  builtins :=
    {[ js "NUMBER" := SlotFunction NUMBER;
       js "DATETIME" := SlotFunction DATETIME ]} |}.

(** The cardinal plural rule of English for a number formatted with the
    default options: [one] for 1 and -1, [other] for every other
    number. The options are not looked at. *)
Definition plural_en (_ : jsopts) (x : float) : jsstring :=
  if PrimFloat.eqb (PrimFloat.abs x) 1%float then js "one" else js "other".

Definition float_of_nat (n : nat) : float :=
  PrimFloat.of_uint63 (Uint63.of_Z (Z.of_nat n)).

(** The two other formatters are stand-ins that cover the examples.
    [number_en] prints the integers from 0 to 999 as en-US does, followed
    by the zeros that the option [minimumFractionDigits] asks for, and
    anything else as "NaN"; [date_en] prints one text for every date. *)
Definition fraction_en (opts : jsopts) : jsstring :=
  match opts ≫= property (js "minimumFractionDigits") with
  | Some (OptNumber k) =>
      match List.find (fun n => PrimFloat.eqb k (float_of_nat n))
              (List.seq 1 20) with
      | Some n => js "." ++ repeat 48%N n
      | None => []
      end
  | _ => []
  end.
Definition number_en (opts : jsopts) (x : float) : jsstring :=
  match
    List.find (fun n => PrimFloat.eqb x (float_of_nat n)) (List.seq 0 1000)
  with
  | Some n => string_of_nat n ++ fraction_en opts
  | None => js "NaN"
  end.
Definition date_en (_ : jsopts) (_ : float) : jsstring := js "1/1/1970".

(** Modelled from the spec: the constructor of the context is in
    context.js, which is not among the sources. The context of
    [new MessageContext('en-US', { useIsolating, functions })] for a
    registry [functions] that is an empty map without inherited
    properties, with the given messages installed. *)
Definition context (isolating : bool) (msgs : list (jsstring * node))
  : MessageContext :=
  mkContext (list_to_map msgs) ∅ isolating number_en date_en plural_en.

End Sample.

(** ** Arguments of calls *)

(** The positional arguments of a call. *)
Definition positional_args (l : list node) : list node :=
  List.filter (fun arg => match arg with Narg _ _ => false | _ => true end)
    l.

(** ** Messages and arguments of the examples *)

Module Examples.
Import Sample.

(** [foo = { bar }] and [bar = { foo }] *)
Definition foo_cyclic : node := Arr (Parsed 0) [Ref (js "bar")].
Definition cyclic_pair : MessageContext :=
  context false
    [ (js "foo", foo_cyclic);
      (js "bar", Arr (Parsed 1) [Ref (js "foo")]) ].

(** [foo = { $x }] called with a string of 2501 characters *)
Definition long_text : jsstring := repeat 97%N 2501.
Definition foo_external : node := Arr (Parsed 0) [Ext (js "x")].
Definition long_args : gmap jsstring jsarg :=
  {[ js "x" := ArgString long_text ]}.

(** An argument bag with a key named [hasOwnProperty] *)
Definition shadowing_args : gmap jsstring jsarg :=
  {[ js "hasOwnProperty" := ArgString (js "x") ]}.

(** [foo = { BOOM() }] in a context whose function [BOOM] throws *)
Definition boom : jsfunction :=
  mkFunction 0 (js "() => { throw new Error('boom'); }")
    (fun _ _ => Throw (mkError Error (js "boom"))).
Definition throwing_context : MessageContext :=
  mkContext ∅ {[ js "BOOM" := SlotFunction boom ]} false
    number_en date_en plural_en.
Definition foo_call : node := Arr (Parsed 0) [Call (js "BOOM") []].

(** [foo = { 1 -> [1] A *[other] B }] with the key [1] a keyword *)
Definition foo_keyword_one : node :=
  Arr (Parsed 0)
    [ Sel (Some (Num (js "1")))
        [ (Kw (js "1"), Str (js "A")); (Kw (js "other"), Str (js "B")) ]
        (Some 1) ].

(** [foo = { bar -> *[a] A [b] B }] and no message [bar] *)
Definition select_vars : list (node * node) :=
  [ (Kw (js "a"), Str (js "A")); (Kw (js "b"), Str (js "B")) ].

(** A message that is one literal fragment starting with U+2068 *)
Definition foo_literal : node := Arr (Parsed 0) [Str (FSI ++ js "abc")].

(** [foo = Foo] as a pattern, and [baz = { foo } { foo }] *)
Definition baz_siblings : node :=
  Arr (Parsed 1) [Ref (js "foo"); Str (js " "); Ref (js "foo")].
Definition siblings : MessageContext :=
  context false
    [ (js "foo", Arr (Parsed 0) [Str (js "Foo")]);
      (js "baz", baz_siblings) ].

(** [brand = Firefox] and [hello = Hello, { $name } from { brand }],
    called with the name "Ann" in a context that isolates *)
Definition hello : list node :=
  [ Str (js "Hello, "); Ext (js "name"); Str (js " from ");
    Ref (js "brand") ].
Definition hello_env : Env :=
  mkEnv
    (context true
       [ (js "brand", Arr (Parsed 1) [Str (js "Firefox")]);
         (js "hello", Arr (Parsed 0) hello) ])
    (Some {[ js "name" := ArgString (js "Ann") ]}).

(** [brand = Firefox], [tabs = { NUMBER($n, minimumFractionDigits: 1) }
    tabs] and
    [summary = { $n -> [one] One tab of { brand }
                      *[other] { tabs } of { brand } }],
    called with the number 2 *)
Definition summary : node :=
  Arr (Parsed 2)
    [ Sel (Some (Ext (js "n")))
        [ (Kw (js "one"),
           Arr (Parsed 3) [Str (js "One tab of "); Ref (js "brand")]);
          (Kw (js "other"),
           Arr (Parsed 4)
             [Ref (js "tabs"); Str (js " of "); Ref (js "brand")]) ]
        (Some 1) ].
Definition tabs : node :=
  Arr (Parsed 1)
    [ Call (js "NUMBER")
        [ Ext (js "n");
          Narg (js "minimumFractionDigits") (Num (js "1")) ];
      Str (js " tabs") ].
Definition tabs_context : MessageContext :=
  context false
    [ (js "brand", Arr (Parsed 0) [Str (js "Firefox")]);
      (js "tabs", tabs);
      (js "summary", summary) ].
Definition tabs_args : gmap jsstring jsarg :=
  {[ js "n" := ArgNumber 2 ]}.
Definition tabs_patterns : gset ident :=
  {[ Parsed 0; Parsed 1; Parsed 2; Parsed 3; Parsed 4 ]}.
Definition calls_NUMBER (callee : jsstring) (l : list node) : Prop :=
  callee = js "NUMBER" /\ positional_args l <> [].

(** Environments without messages and without arguments *)
Definition plain_env : Env := mkEnv (context false []) None.
Definition isolating_env : Env := mkEnv (context true []) None.
Definition siblings_env : Env := mkEnv siblings None.

Definition unknown_bar : state :=
  mkState [mkError ReferenceError (js "Unknown message: bar")] ∅ 0.

Definition cyclic_error : jserror :=
  mkError RangeError (js "Cyclic reference").
End Examples.

(** ** Predicates of the statements *)

(** Started with any error list [e], the computation gives the same
    result, dirty set and counter, and appends the same errors [de]. *)
Definition err_framed (A : Type) (m : M A) : Prop :=
  forall d n, exists r de d' n',
    forall e, m (mkState e d n) = (r, mkState (e ++ de) d' n').

(** A computation that ends normally leaves the dirty set as it found
    it. *)
Definition keeps_dirty (A : Type) (m : M A) : Prop :=
  forall st a st', m st = (Ok a, st') -> dirty st' = dirty st.

(** Whatever [m1] computes without running out of fuel, [m2] computes
    too. *)
Definition fuel_le (A : Type) (m1 m2 : M A) : Prop :=
  forall st r st', m1 st = (r, st') -> r <> OutOfFuel -> m2 st = (r, st').

(** No key of [vars] matches [selector]: every key, resolved in turn,
    either cannot match or has a [match] that answers false. *)
Inductive no_key_matches (rec : Env -> node -> M node) (env : Env)
    (selector : node) : list (node * node) -> state -> state -> Prop :=
| no_key_nil st : no_key_matches rec env selector [] st st
| no_key_cons k v rest st key st1 st2 :
    rec env k st = (Ok key, st1) ->
    (keyCanMatch key = false \/
     method_match (ctx env) key selector = Ok false) ->
    no_key_matches rec env selector rest st1 st2 ->
    no_key_matches rec env selector ((k, v) :: rest) st st2.

(** The result list after a placeable with the given body has been pushed
    onto it. *)
Definition pushed (env : Env) (result body : list node) : list node :=
  if useIsolating (ctx env)
  then ((result ++ [Str FSI]) ++ body) ++ [Str PDI]
  else result ++ body.

(** A part that is a string or an instance of a Fluent type. *)
Definition is_text_part (part : node) : Prop :=
  match part with
  | Str _ | Val _ => True
  | _ => False
  end.

(** What a placeable that resolved to [part] contributes to the result,
    and the state it leaves: the value itself; the parts of a list of
    parts, spliced in, when their length is within the bound; a single
    [FluentNone], with a range error appended, when it is not. *)
Inductive placed `{Host} (env : Env)
  : node -> state -> list node -> state -> Prop :=
| placed_value part st :
    (forall i l, part <> Arr i l) -> placed env part st [part] st
| placed_parts i parts len st :
    PlaceableLength env parts = Ok len -> too_long len = false ->
    placed env (Arr i parts) st parts st
| placed_none i parts len st :
    PlaceableLength env parts = Ok len -> too_long len = true ->
    placed env (Arr i parts) st [Val (FluentNone None)]
      (mkState
         (errors st ++
          [mkError RangeError
             (js "Too many characters in placeable (" ++ length_text len ++
              js ", max allowed is 2500)")])
         (dirty st) (next st)).

(** The walk of [Pattern] over the elements of a pattern in a context
    that isolates, from state to state, with what each element puts on
    the result: a literal fragment itself; a placeable U+2068, what the
    value it resolved to contributes, and U+2069. *)
Inductive isolates `{Host} (rec : Env -> node -> M node) (env : Env)
  : list node -> state -> list (list node) -> state -> Prop :=
| isolates_nil st : isolates rec env [] st [] st
| isolates_literal s rest st chunks st' :
    isolates rec env rest st chunks st' ->
    isolates rec env (Str s :: rest) st ([Str s] :: chunks) st'
| isolates_placeable elem rest st part st1 body st2 chunks st' :
    (forall s, elem <> Str s) ->
    rec env elem st = (Ok part, st1) ->
    placed env part st1 body st2 ->
    isolates rec env rest st2 chunks st' ->
    isolates rec env (elem :: rest) st
      ((Str FSI :: body ++ [Str PDI]) :: chunks) st'.

(** ** Termination and the entry-tree contract *)

(** A computation indexed by its fuel ends normally, with enough fuel, in
    a result and a state that satisfy [Q]. *)
Definition terminates {A} (m : nat -> M A) (st : state)
    (Q : A -> state -> Prop) : Prop :=
  exists fuel a st', m fuel st = (Ok a, st') /\ Q a st'.

(** More fuel never changes what a computation has computed. *)
Definition monotone {A} (m : nat -> M A) : Prop :=
  forall f f', f <= f' -> fuel_le A (m f) (m f').

(** Keys of variants are keyword or number literals. *)
Definition literal_key (n : node) : Prop :=
  match n with
  | Kw _ | Num _ => True
  | _ => False
  end.

(** Values of messages, attributes and variants are strings or
    patterns. *)
Definition pattern_like (n : node) : Prop :=
  match n with
  | Str _ | Arr _ _ => True
  | _ => False
  end.

(** A Fluent value whose [valueOf(ctx)] returns: an instance of a
    subclass of [FluentType], and a date only when it is valid. *)
Definition formattable (v : FluentType) : Prop :=
  match v with
  | TBase => False
  | TDateTime t _ => valid_time t = true
  | _ => True
  end.

(** What a pattern holds once resolved: strings, function objects and
    Fluent values that can be formatted. *)
Definition scalar (n : node) : Prop :=
  match n with
  | Str _ | Func _ _ => True
  | Val v => formattable v
  | _ => False
  end.

(** A runtime value: a scalar or a list of parts. *)
Definition runtime_value (n : node) : Prop :=
  match n with
  | Arr _ parts => Forall scalar parts
  | _ => scalar n
  end.

(** A value that is no fall-back: not a [FluentNone], and not a list of
    parts that holds one. *)
Definition no_fallback (n : node) : Prop :=
  match n with
  | Val (TNone _) => False
  | Arr _ parts => Forall (fun part => is_FluentNone part = false) parts
  | _ => True
  end.

(** The expression a call argument resolves: the value of a named
    argument, or the argument itself. *)
Definition call_target (arg : node) : node :=
  match arg with
  | Narg _ val => val
  | _ => arg
  end.

(** A named argument whose name is an ordinary property of the array of
    named arguments: neither its [length] nor its [__proto__]. *)
Definition ordinary_name (arg : node) : Prop :=
  match arg with
  | Narg name _ => name <> js "length" /\ name <> js "__proto__"
  | _ => True
  end.

(** An expression of the runtime AST as the entry-tree contract has it:
    a string, a pattern, or an object with one of the tags [kw], [num],
    [ext], [fun], [call], [ref], [attr], [var] and [sel]. [U] holds the
    identities of the patterns, [C] the calls that may be made. A
    pattern is not empty; the arguments of a call are expressions or
    named expressions with ordinary names; a select expression has
    literal keys and patterns as values. *)
Inductive conforms (C : jsstring -> list node -> Prop) (U : gset ident)
  : node -> Prop :=
| conforms_Str s : conforms C U (Str s)
| conforms_Arr id elems :
    id ∈ U -> elems <> [] -> Forall (conforms C U) elems ->
    conforms C U (Arr id elems)
| conforms_Kw name : conforms C U (Kw name)
| conforms_Num val : conforms C U (Num val)
| conforms_Ext name : conforms C U (Ext name)
| conforms_Fun name : conforms C U (Fun name)
| conforms_Call callee l :
    C callee l ->
    Forall (fun arg => ordinary_name arg /\ conforms C U (call_target arg))
      l ->
    conforms C U (Call callee l)
| conforms_Ref name : conforms C U (Ref name)
| conforms_Attr id name : conforms C U (Attr id name)
| conforms_Var id key : literal_key key -> conforms C U (Var id key)
| conforms_Sel exp vars def :
    (forall e, exp = Some e -> conforms C U e) ->
    Forall (fun kv => literal_key kv.1 /\ pattern_like kv.2 /\
                      conforms C U kv.2) vars ->
    conforms C U (Sel exp vars def).

(** A message of the store: a string, a pattern, or an object whose
    value and attributes are strings or patterns. *)
Definition conforms_message (C : jsstring -> list node -> Prop)
    (U : gset ident) (m : node) : Prop :=
  match m with
  | Str _ | Arr _ _ => conforms C U m
  | Entry val attrs =>
      (forall v, val = Some v -> pattern_like v /\ conforms C U v) /\
      (forall l, attrs = Some l ->
         Forall (fun kv => pattern_like kv.2 /\ conforms C U kv.2) l)
  | _ => False
  end.

(** How deep an expression nests selectors and call arguments, the
    sub-expressions [Type] resolves without entering a pattern. *)
Fixpoint depth (n : node) : nat :=
  match n with
  | Call _ l => S (list_max (List.map depth l))
  | Narg _ val => S (depth val)
  | Sel (Some e) _ _ => S (depth e)
  | _ => 0
  end.

(** The slot [functions[name] || builtins[name]] and the registry it
    comes from. *)
Definition lookup_function `{Host} (c : MessageContext) (name : jsstring)
  : option (bool * slot) :=
  match functions c !! name with
  | Some (SlotOther false) | None => pair true <$> builtins !! name
  | Some s => Some (false, s)
  end.

(** Arguments as the call with the argument list [l] hands them to its
    function: one runtime value for each positional argument, runtime
    values as named arguments, on an array that still has the prototype
    of arrays. *)
Definition call_shape (l : list node) (posargs : list node)
    (keyargs : jskeyargs) : Prop :=
  length posargs = length (positional_args l) /\
  Forall runtime_value posargs /\
  Forall (fun kv : jsstring * node => runtime_value kv.2) (named keyargs) /\
  named_proto keyargs = None.

(** A context and an argument bag that the resolver can rely on: the
    store conforms; a function that a call of [C] finds returns a
    runtime value when it is handed the arguments of the call; the bag
    has no key [hasOwnProperty], and the Fluent values and dates it holds
    can be formatted. *)
Record well_behaved `{Host} (env : Env)
    (C : jsstring -> list node -> Prop) (U : gset ident) : Prop := {
  store_conforms : forall name m,
    messages (ctx env) !! name = Some m -> conforms_message C U m;
  calls_return : forall callee l builtin f posargs keyargs,
    C callee l ->
    lookup_function (ctx env) callee = Some (builtin, SlotFunction f) ->
    call_shape l posargs keyargs ->
    exists v, fn_call f posargs keyargs = Ok v /\ runtime_value v;
  args_plain : forall bag,
    args env = Some bag ->
    bag !! js "hasOwnProperty" = None /\
    (forall name v, bag !! name = Some (ArgFluent v) -> formattable v) /\
    (forall name t, bag !! name = Some (ArgDate t) -> valid_time t = true) }.

(** A context and an argument bag that bring in no fall-back value of
    their own: the bag holds no [FluentNone], and a function that is not
    handed one does not return one. *)
Record quiet `{Host} (env : Env) (C : jsstring -> list node -> Prop)
  : Prop := {
  args_quiet : forall bag name hint,
    args env = Some bag -> bag !! name <> Some (ArgFluent (TNone hint));
  calls_quiet : forall callee l builtin f posargs keyargs v,
    C callee l ->
    lookup_function (ctx env) callee = Some (builtin, SlotFunction f) ->
    call_shape l posargs keyargs ->
    Forall no_fallback posargs ->
    Forall (fun kv : jsstring * node => no_fallback kv.2) (named keyargs) ->
    fn_call f posargs keyargs = Ok v ->
    no_fallback v }.

(** The errors of [st'] are those of [st] with [de] appended. *)
Definition appended (st st' : state) (de : list jserror) : Prop :=
  errors st' = errors st ++ de.

(** What [Type] returns and leaves behind: a runtime value, the dirty
    set as it was, and errors appended. *)
Definition fair (st : state) (r : node) (st' : state) : Prop :=
  runtime_value r /\ dirty st' = dirty st /\ exists de, appended st st' de.

(** What [Type] returns on conforming input: as above, and under the
    condition [Q] a result that came without an error is no fall-back. *)
Definition good (Q : Prop) (st : state) (r : node) (st' : state) : Prop :=
  runtime_value r /\ dirty st' = dirty st /\
  exists de, appended st st' de /\ (Q -> de = [] -> no_fallback r).

(** [Type(env, e)] ends normally from [st]. *)
Definition resolves `{Host} (Q : Prop) (env : Env) (e : node) (st : state)
  : Prop :=
  terminates (fun f => Type_ f env e) st (good Q st).

(** What the helpers hand back to [Type] for a second dispatch: a
    variant or a pattern of the store, found without an error or after
    one, or a runtime value that came with an error. *)
Definition redispatchable (C : jsstring -> list node -> Prop)
    (U : gset ident) (st : state) (a : node) (st1 : state) : Prop :=
  dirty st1 = dirty st /\
  exists de, appended st st1 de /\
    ((runtime_value a /\ de <> []) \/
     (exists k v, a = Variant k v /\ pattern_like v /\ conforms C U v) \/
     (pattern_like a /\ conforms C U a)).

(** The value a literal key resolves to. *)
Definition literal_value `{Host} (key : node) : FluentType :=
  match key with
  | Num val => FluentNumber (inl val) None
  | Kw name => FluentKeyword name
  | _ => FluentNone None
  end.

(** What the loop of [Pattern] leaves behind, started from [st0] with
    the parts [result] collected so far. *)
Definition walked (Q : Prop) (st0 : state) (result res : list node)
    (st' : state) : Prop :=
  Forall scalar res /\ dirty st' = dirty st0 /\
  exists de, appended st0 st' de /\
    (Q -> de = [] ->
     Forall (fun p => is_FluentNone p = false) result ->
     Forall (fun p => is_FluentNone p = false) res).

(** What the loop of [CallExpression] has collected when the errors [d]
    have been appended since the call began: runtime values, on an array
    that still has the prototype of arrays, and under the condition [Q]
    no fall-back as long as no error has been appended. *)
Definition collected (Q : Prop) (d : list jserror) (posargs : list node)
    (keyargs : jskeyargs) : Prop :=
  Forall runtime_value posargs /\
  Forall (fun kv : jsstring * node => runtime_value kv.2) (named keyargs) /\
  named_proto keyargs = None /\
  (Q -> d = [] ->
   Forall no_fallback posargs /\
   Forall (fun kv : jsstring * node => no_fallback kv.2) (named keyargs)).

(** ** Vocabulary of the further properties *)

(** A variant as the loops hand it on. *)
Definition as_variant (kv : node * node) : node := Variant kv.1 kv.2.

(** [Type(env, variant.key).match(ctx, selector)] for a literal key, as
    [SelectExpression] evaluates it. *)
Definition key_matches `{Host} (c : MessageContext) (selector : node)
    (kv : node * node) : bool :=
  match kv.1 with
  | Kw name => FluentKeyword_match c name selector
  | Num val => FluentNumber_match (parseFloat (inl val)) selector
  | _ => false
  end.

(** [Type(env, key).match(ctx, Type(env, variant.key))] for literal keys,
    as [VariantExpression] evaluates it. *)
Definition variant_matches `{Host} (c : MessageContext) (key : node)
    (kv : node * node) : bool :=
  match key with
  | Kw name => FluentKeyword_match c name (Val (literal_value kv.1))
  | Num val =>
      FluentNumber_match (parseFloat (inl val)) (Val (literal_value kv.1))
  | _ => false
  end.

(** [keyword.valueOf(ctx)] of a resolved literal key. *)
Definition key_text `{Host} (c : MessageContext) (key : node) : jsstring :=
  match key with
  | Kw name => name
  | Num val => NumberFormat c None (parseFloat (inl val))
  | _ => js "???"
  end.

(** A selector no key can match: anything but a string, a keyword or a
    number. *)
Definition unmatchable (selector : node) : Prop :=
  match selector with
  | Str _ | Val (TKeyword _) | Val (TNumber _ _) => False
  | _ => True
  end.

(** The state after [errors.push(e)]. *)
Definition with_error (st : state) (e : jserror) : state :=
  mkState (errors st ++ [e]) (dirty st) (next st).

(** The state after several pushes. *)
Definition with_errors (st : state) (l : list jserror) : state :=
  mkState (errors st ++ l) (dirty st) (next st).

(** The second dispatch of [Type] on a message it has resolved: what the
    fall-back of [AttributeExpression] and [VariantExpression] does. *)
Definition twice `{Host} (fuel : nat) (env : Env) (message : node)
    : M node :=
  let* r := Type_ fuel env message in
  Type_ fuel env r.

(** A literal argument of a call: a string, a keyword or a number, or a
    named argument with such a value. *)
Definition literal_arg (arg : node) : Prop :=
  match arg with
  | Str _ | Kw _ | Num _ => True
  | Narg _ (Str _) | Narg _ (Kw _) | Narg _ (Num _) => True
  | _ => False
  end.

(** What [Type] returns for a literal. *)
Definition literal_result `{Host} (n : node) : node :=
  match n with
  | Str s => Str s
  | _ => Val (literal_value n)
  end.

(** The length of an array after an assignment to the property
    [name]: an array index at or beyond the length extends it. *)
Definition extended (len : N) (name : jsstring) : N :=
  match array_index name with
  | Some i => N.max len (i + 1)
  | None => len
  end.

(** The positional and the named arguments of a call with literal
    arguments and ordinary names, collected as the loop of
    [CallExpression] does. *)
Fixpoint collect `{Host} (l : list node) (posargs : list node)
    (keyargs : jskeyargs) : list node * jskeyargs :=
  match l with
  | [] => (posargs, keyargs)
  | Narg name val :: rest =>
      collect rest posargs
        (mkKeyargs (set_property name (literal_result val) (named keyargs))
           (extended (named_length keyargs) name) (named_proto keyargs))
  | arg :: rest => collect rest (posargs ++ [literal_result arg]) keyargs
  end.

(** The length of the array of named arguments: one more than the
    largest array index among the names, continuing from [len]. *)
Fixpoint index_length (l : list node) (len : N) : N :=
  match l with
  | [] => len
  | Narg name _ :: rest => index_length rest (extended len name)
  | _ :: rest => index_length rest len
  end.

(** The values of the positional arguments, in source order. *)
Definition positional `{Host} (l : list node) : list node :=
  flat_map (fun arg => match arg with
                       | Narg _ _ => []
                       | _ => [literal_result arg]
                       end) l.

(** The value of the last argument named [name], if there is one. *)
Fixpoint last_named `{Host} (name : jsstring) (l : list node)
    (found : option node) : option node :=
  match l with
  | [] => found
  | Narg name' val :: rest =>
      last_named name rest
        (if bool_decide (name' = name) then Some (literal_result val)
         else found)
  | _ :: rest => last_named name rest found
  end.

(** A part of a resolved pattern that is no array and no node of the
    runtime AST. *)
Definition resolved_part (part : node) : Prop :=
  match part with
  | Str _ | Val _ | Func _ _ => True
  | _ => False
  end.

(** What a second dispatch makes of a resolved part: strings and
    [FluentNone] stay, everything else becomes a [FluentNone]. *)
Definition again (part : node) : node :=
  match part with
  | Str _ | Val (TNone _) => part
  | _ => Val (FluentNone None)
  end.

Definition redispatch_parts (env : Env) (parts : list node) : list node :=
  flat_map (fun part => match part with
                        | Str _ => [part]
                        | _ => pushed env [] [again part]
                        end) parts.

Definition redispatch_errors (parts : list node) : list jserror :=
  flat_map (fun part => match part with
                        | Str _ | Val (TNone _) => []
                        | _ => [mkError RangeError (js "No value")]
                        end) parts.

(** What an assignment to the [length] of the array of named arguments
    throws for the value of a literal: a type error for a number, whose
    [valueOf] needs the context, and a range error for a string or a
    keyword that is not an array length. *)
Definition length_error `{Host} (val : node) : option error_kind :=
  match val with
  | Num _ => Some TypeError
  | Str s | Kw s =>
      match array_length_of (StringToNumber s) with
      | None => Some RangeError
      | Some _ => None
      end
  | _ => None
  end.

(** ** tools/parse.js *)

(** [Array.prototype.join] on an array of strings; an empty slot joins as
    the empty string. *)
Fixpoint Array_join (sep : jsstring) (elems : list jsstring) : jsstring :=
  match elems with
  | [] => []
  | [x] => x
  | x :: rest => x ++ sep ++ Array_join sep rest
  end.

(** [indent(spaces)]: [new Array(spaces + 1).join(' ')] *)
Definition indent (spaces : nat) : jsstring :=
  Array_join (js " ") (repeat [] (spaces + 1)).

(** ** Further messages of the examples *)

Module Scenarios.
Import Sample.

(** [brand = { *[nom] Firefox [gen] Firefoxa }], a message object whose
    value is a variant list *)
Definition brand_vars : list (node * node) :=
  [ (Kw (js "nom"), Str (js "Firefox"));
    (Kw (js "gen"), Str (js "Firefoxa")) ].
Definition brand : node :=
  Entry (Some (Arr (Parsed 0) [Sel None brand_vars (Some 0)])) None.

(** [foo] with the attribute [.attr = Foo Attr] and no value *)
Definition foo_attr : node :=
  Entry None (Some [ (js "attr", Str (js "Foo Attr")) ]).

(** A message object whose value is the empty pattern *)
Definition hollow : node := Entry (Some (Arr (Parsed 1) [])) None.

Definition store : MessageContext :=
  context false
    [ (js "brand", brand); (js "foo", foo_attr); (js "hollow", hollow);
      (js "text", Arr (Parsed 2) [Str (js "Foo")]) ].

Definition env : Env := mkEnv store None.

Definition start : state := mkState [] ∅ 0.

(** The arguments of [F("x", k: 1, k: 2)] *)
Definition call_args : list node :=
  [ Str (js "x"); Narg (js "k") (Num (js "1"));
    Narg (js "k") (Num (js "2")) ].

(** The arguments of [F("x", k: 1, 3: y, k: 2)] *)
Definition indexed_args : list node :=
  [ Str (js "x"); Narg (js "k") (Num (js "1"));
    Narg (js "3") (Kw (js "y")); Narg (js "k") (Num (js "2")) ].

(** The arguments of [NUMBER(5, minimumFractionDigits: 2)] *)
Definition number_args : list node :=
  [ Num (js "5"); Narg (js "minimumFractionDigits") (Num (js "2")) ].

(** [stamp = { $when }], called with an invalid date *)
Definition stamped : Env :=
  mkEnv (context false [ (js "stamp", Arr (Parsed 0) [Ext (js "when")]) ])
    (Some {[ js "when" := ArgDate PrimFloat.nan ]}).

(** A function of the context named as the built-in [NUMBER] is: it
    answers "mine" to every call. *)
Definition mine : jsfunction :=
  mkFunction 0 (js "() => 'mine'") (fun _ _ => Ok (Str (js "mine"))).
Definition overriding : Env :=
  mkEnv
    (mkContext ∅ {[ js "NUMBER" := SlotFunction mine ]} false
       number_en date_en plural_en)
    None.
End Scenarios.

(** * Properties *)

(** ** Predicates closed under the monad *)

(** A property of computations that [ret], [bind], [lift] and
    [push_error] respect is inherited by every helper of the resolver
    from the recursive calls it makes. *)
Section Closed.
Context `{Host}.
Variable P : forall A, M A -> Prop.
Hypothesis P_ret : forall A (a : A), P A (ret a).
Hypothesis P_bind : forall A B (m : M A) (k : A -> M B),
  P A m -> (forall a, P B (k a)) -> P B (bind m k).
Hypothesis P_lift : forall A (o : outcome A), P A (lift o).
Hypothesis P_push : forall e, P unit (push_error e).

Variable rec : Env -> node -> M node.
Hypothesis P_rec : forall env e, P node (rec env e).

Ltac closed_step :=
  first
    [ apply P_ret | apply P_lift | apply P_push | apply P_rec
    | apply P_bind; [ | intros ]
    | match goal with
      | |- P _ (match ?x with _ => _ end) => destruct x
      end ].

Ltac closed := repeat closed_step.

Lemma closed_DefaultMember env members def :
  P node (DefaultMember env members def).
Proof. unfold DefaultMember. closed. Qed.

Lemma closed_MessageReference env name :
  P node (MessageReference env name).
Proof. unfold MessageReference. closed. Qed.

Lemma closed_VariantExpression_loop env keyword vars :
  P (option node) (VariantExpression_loop rec env keyword vars).
Proof.
  induction vars as [|[key val] rest IH]; simpl; closed. apply IH.
Qed.

Lemma closed_VariantExpression env id key :
  P node (VariantExpression rec env id key).
Proof.
  unfold VariantExpression.
  apply P_bind; [apply closed_MessageReference | intros message].
  closed. apply closed_VariantExpression_loop.
Qed.

Lemma closed_AttributeExpression env id name :
  P node (AttributeExpression rec env id name).
Proof.
  unfold AttributeExpression.
  apply P_bind; [apply closed_MessageReference | intros message].
  closed.
Qed.

Lemma closed_SelectExpression_loop env selector vars :
  P (option node) (SelectExpression_loop rec env selector vars).
Proof.
  induction vars as [|[k v] rest IH]; simpl; closed; apply IH.
Qed.

Lemma closed_SelectExpression env exp vars def :
  P node (SelectExpression rec env exp vars def).
Proof.
  unfold SelectExpression. destruct exp as [e|].
  - apply P_bind; [apply P_rec | intros selector].
    destruct (is_FluentNone selector); [apply closed_DefaultMember|].
    apply P_bind; [apply closed_SelectExpression_loop | intros found].
    destruct found; [apply P_ret | apply closed_DefaultMember].
  - apply closed_DefaultMember.
Qed.

Lemma closed_ExternalArgument env name :
  P node (ExternalArgument env name).
Proof. unfold ExternalArgument. closed. Qed.

Lemma closed_FunctionReference env name :
  P node (FunctionReference env name).
Proof. unfold FunctionReference. closed. Qed.

Lemma closed_CallExpression_loop env l posargs keyargs :
  P _ (CallExpression_loop rec env l posargs keyargs).
Proof.
  revert posargs keyargs.
  induction l as [|arg rest IH]; intros; simpl; [apply P_ret|].
  destruct arg; (apply P_bind; [apply P_rec | intros]); try apply IH.
  apply P_bind; [apply P_lift | intros; apply IH].
Qed.

Lemma closed_CallExpression env fun_ l :
  P node (CallExpression rec env fun_ l).
Proof.
  unfold CallExpression.
  apply P_bind; [apply closed_FunctionReference | intros callee].
  destruct (is_FluentNone callee); [apply P_ret|].
  apply P_bind; [apply closed_CallExpression_loop | intros [posargs keyargs]].
  unfold throw. closed.
Qed.

Lemma closed_Pattern_part env part result :
  P _ (Pattern_part env part result).
Proof. unfold Pattern_part. closed. Qed.

Lemma closed_Pattern_loop env elems result :
  P _ (Pattern_loop rec env elems result).
Proof.
  revert result.
  induction elems as [|elem rest IH]; intros; simpl; [apply P_ret|].
  destruct elem; try apply IH;
    (apply P_bind; [apply P_rec | intros];
     apply P_bind; [apply closed_Pattern_part | intros; apply IH]).
Qed.

Hypothesis P_Pattern : forall env id elems,
  P node (Pattern rec env id elems).

Lemma closed_Type_body env expr : P node (Type_body rec env expr).
Proof.
  destruct expr; simpl;
    try (first [ apply P_Pattern | apply closed_ExternalArgument
               | apply closed_FunctionReference
               | apply closed_CallExpression ]).
  all: try (apply P_bind; [ | intros; apply P_rec ]).
  all: try first [ apply closed_MessageReference
                 | apply closed_AttributeExpression
                 | apply closed_VariantExpression
                 | apply closed_SelectExpression ].
  all: closed.
Qed.
End Closed.

Lemma closed_Type_ `{Host} (P : forall A, M A -> Prop) :
  (forall A (a : A), P A (ret a)) ->
  (forall A B (m : M A) (k : A -> M B),
     P A m -> (forall a, P B (k a)) -> P B (bind m k)) ->
  (forall A (o : outcome A), P A (lift o)) ->
  (forall e, P unit (push_error e)) ->
  (forall rec, (forall env e, P node (rec env e)) ->
     forall env id elems, P node (Pattern rec env id elems)) ->
  forall fuel env expr, P node (Type_ fuel env expr).
Proof.
  intros P_ret P_bind P_lift P_push P_Pattern fuel.
  induction fuel as [|fuel IH]; intros env expr; simpl.
  - apply P_lift.
  - apply closed_Type_body; auto.
Qed.

(** ** The error list is only appended to, and is never read *)

Lemma err_framed_ret A (a : A) : err_framed A (ret a).
Proof.
  intros d n. exists (Ok a), [], d, n. intros e.
  unfold ret. now rewrite app_nil_r.
Qed.

Lemma err_framed_lift A (o : outcome A) : err_framed A (lift o).
Proof.
  intros d n. exists o, [], d, n. intros e.
  unfold lift. now rewrite app_nil_r.
Qed.

Lemma err_framed_push e0 : err_framed unit (push_error e0).
Proof. intros d n. exists (Ok tt), [e0], d, n. reflexivity. Qed.

Lemma err_framed_bind A B (m : M A) (k : A -> M B) :
  err_framed A m -> (forall a, err_framed B (k a)) ->
  err_framed B (bind m k).
Proof.
  intros Hm Hk d n.
  destruct (Hm d n) as (r & de & d' & n' & Hrun).
  destruct r as [a| err |].
  - destruct (Hk a d' n') as (r2 & de2 & d2 & n2 & Hrun2).
    exists r2, (de ++ de2), d2, n2. intros e.
    unfold bind. rewrite Hrun, Hrun2. now rewrite app_assoc.
  - exists (Throw err), de, d', n'. intros e. unfold bind. now rewrite Hrun.
  - exists OutOfFuel, de, d', n'. intros e. unfold bind. now rewrite Hrun.
Qed.

Lemma err_framed_Pattern `{Host} rec :
  (forall env e, err_framed node (rec env e)) ->
  forall env id elems, err_framed node (Pattern rec env id elems).
Proof.
  intros Hrec env id elems. unfold Pattern.
  apply err_framed_bind.
  { intros d n. exists (Ok (bool_decide (id ∈ d))), [], d, n. intros e.
    unfold dirty_has. simpl. now rewrite app_nil_r. }
  intros [|].
  - apply err_framed_bind; [apply err_framed_push | intros; apply err_framed_ret].
  - apply err_framed_bind.
    { intros d n. exists (Ok tt), [], (d ∪ {[id]}), n. intros e.
      unfold dirty_add. simpl. now rewrite app_nil_r. }
    intros _. apply err_framed_bind.
    { intros d n. exists (Ok (Allocated n)), [], d, (S n). intros e.
      unfold alloc. simpl. now rewrite app_nil_r. }
    intros fresh. apply err_framed_bind.
    { apply closed_Pattern_loop;
        auto using err_framed_ret, err_framed_bind, err_framed_lift,
          err_framed_push. }
    intros result. apply err_framed_bind; [|intros; apply err_framed_ret].
    intros d n. exists (Ok tt), [], (d ∖ {[id]}), n. intros e.
    unfold dirty_delete. simpl. now rewrite app_nil_r.
Qed.

Lemma err_framed_Type_ `{Host} fuel env expr :
  err_framed node (Type_ fuel env expr).
Proof.
  apply closed_Type_;
    auto using err_framed_ret, err_framed_bind, err_framed_lift,
      err_framed_push, err_framed_Pattern.
Qed.

(** ** The dirty set is restored *)

Lemma keeps_dirty_ret A (a : A) : keeps_dirty A (ret a).
Proof. intros st a' st' [= _ <-]. reflexivity. Qed.

Lemma keeps_dirty_lift A (o : outcome A) : keeps_dirty A (lift o).
Proof. intros st a' st' [= _ <-]. reflexivity. Qed.

Lemma keeps_dirty_push e : keeps_dirty unit (push_error e).
Proof. intros st a' st' [= _ <-]. reflexivity. Qed.

Lemma keeps_dirty_bind A B (m : M A) (k : A -> M B) :
  keeps_dirty A m -> (forall a, keeps_dirty B (k a)) ->
  keeps_dirty B (bind m k).
Proof.
  intros Hm Hk st b st'. unfold bind.
  destruct (m st) as [[a| |] st1] eqn:E; try discriminate.
  intros Hrun. rewrite (Hk _ _ _ _ Hrun). eapply Hm, E.
Qed.

Lemma keeps_dirty_Pattern `{Host} rec :
  (forall env e, keeps_dirty node (rec env e)) ->
  forall env id elems, keeps_dirty node (Pattern rec env id elems).
Proof.
  intros Hrec env id elems st a st'.
  unfold Pattern, bind, dirty_has, dirty_add, dirty_delete, alloc, ret.
  simpl. case_bool_decide as Hin.
  - unfold push_error. intros [= _ <-]. reflexivity.
  - destruct (Pattern_loop rec env elems [] _) as [[result| |] st1] eqn:E;
      try discriminate.
    intros [= _ <-]. simpl.
    apply (closed_Pattern_loop keeps_dirty) in E;
      auto using keeps_dirty_ret, keeps_dirty_bind, keeps_dirty_lift,
        keeps_dirty_push.
    rewrite E. simpl. set_solver.
Qed.

Lemma keeps_dirty_Type_ `{Host} fuel env expr :
  keeps_dirty node (Type_ fuel env expr).
Proof.
  apply closed_Type_;
    auto using keeps_dirty_ret, keeps_dirty_bind, keeps_dirty_lift,
      keeps_dirty_push, keeps_dirty_Pattern.
Qed.

(** ** More fuel changes nothing *)

Lemma fuel_le_refl A (m : M A) : fuel_le A m m.
Proof. intros st r st' Hrun _. exact Hrun. Qed.

Lemma fuel_le_bind A B (m1 m2 : M A) (k1 k2 : A -> M B) :
  fuel_le A m1 m2 -> (forall a, fuel_le B (k1 a) (k2 a)) ->
  fuel_le B (bind m1 k1) (bind m2 k2).
Proof.
  intros Hm Hk st r st'. unfold bind.
  destruct (m1 st) as [[a|e|] st1] eqn:E.
  - rewrite (Hm _ _ _ E) by discriminate. apply Hk.
  - rewrite (Hm _ _ _ E) by discriminate. trivial.
  - intros [= <- _] Hr. now destruct Hr.
Qed.

Section Monotone.
Context `{Host}.
Variables rec1 rec2 : Env -> node -> M node.
Hypothesis Hrec : forall env e, fuel_le node (rec1 env e) (rec2 env e).

Ltac mono_step :=
  first
    [ apply fuel_le_refl | apply Hrec
    | apply fuel_le_bind; [ | intros ]
    | match goal with
      | |- fuel_le _ (match ?x with _ => _ end) (match ?x with _ => _ end) =>
          destruct x
      end ].

Ltac mono := repeat mono_step.

Lemma mono_VariantExpression_loop env keyword vars :
  fuel_le _ (VariantExpression_loop rec1 env keyword vars)
    (VariantExpression_loop rec2 env keyword vars).
Proof. induction vars as [|[key val] rest IH]; simpl; mono. apply IH. Qed.

Lemma mono_VariantExpression env id key :
  fuel_le _ (VariantExpression rec1 env id key)
    (VariantExpression rec2 env id key).
Proof.
  unfold VariantExpression. mono. apply mono_VariantExpression_loop.
Qed.

Lemma mono_AttributeExpression env id name :
  fuel_le _ (AttributeExpression rec1 env id name)
    (AttributeExpression rec2 env id name).
Proof. unfold AttributeExpression. mono. Qed.

Lemma mono_SelectExpression_loop env selector vars :
  fuel_le _ (SelectExpression_loop rec1 env selector vars)
    (SelectExpression_loop rec2 env selector vars).
Proof. induction vars as [|[k v] rest IH]; simpl; mono; apply IH. Qed.

Lemma mono_SelectExpression env exp vars def :
  fuel_le _ (SelectExpression rec1 env exp vars def)
    (SelectExpression rec2 env exp vars def).
Proof.
  unfold SelectExpression. destruct exp as [e|]; [|apply fuel_le_refl].
  apply fuel_le_bind; [apply Hrec | intros selector].
  destruct (is_FluentNone selector); [apply fuel_le_refl|].
  apply fuel_le_bind; [apply mono_SelectExpression_loop | intros found].
  apply fuel_le_refl.
Qed.

Lemma mono_CallExpression_loop env l posargs keyargs :
  fuel_le _ (CallExpression_loop rec1 env l posargs keyargs)
    (CallExpression_loop rec2 env l posargs keyargs).
Proof.
  revert posargs keyargs.
  induction l as [|arg rest IH]; intros; simpl; [apply fuel_le_refl|].
  destruct arg; (apply fuel_le_bind; [apply Hrec | intros]); try apply IH.
  apply fuel_le_bind; [apply fuel_le_refl | intros; apply IH].
Qed.

Lemma mono_CallExpression env fun_ l :
  fuel_le _ (CallExpression rec1 env fun_ l) (CallExpression rec2 env fun_ l).
Proof.
  unfold CallExpression.
  apply fuel_le_bind; [apply fuel_le_refl | intros callee].
  destruct (is_FluentNone callee); [apply fuel_le_refl|].
  apply fuel_le_bind; [apply mono_CallExpression_loop | intros].
  apply fuel_le_refl.
Qed.

Lemma mono_Pattern_loop env elems result :
  fuel_le _ (Pattern_loop rec1 env elems result)
    (Pattern_loop rec2 env elems result).
Proof.
  revert result.
  induction elems as [|elem rest IH]; intros; simpl; [apply fuel_le_refl|].
  destruct elem; try apply IH;
    (apply fuel_le_bind; [apply Hrec | intros];
     apply fuel_le_bind; [apply fuel_le_refl | intros; apply IH]).
Qed.

Lemma mono_Pattern env id elems :
  fuel_le _ (Pattern rec1 env id elems) (Pattern rec2 env id elems).
Proof.
  unfold Pattern.
  apply fuel_le_bind; [apply fuel_le_refl | intros [|]];
    [apply fuel_le_refl|].
  apply fuel_le_bind; [apply fuel_le_refl | intros _].
  apply fuel_le_bind; [apply fuel_le_refl | intros fresh].
  apply fuel_le_bind; [apply mono_Pattern_loop | intros result].
  apply fuel_le_refl.
Qed.

Lemma mono_Type_body env expr :
  fuel_le _ (Type_body rec1 env expr) (Type_body rec2 env expr).
Proof.
  destruct expr; simpl;
    try first [ apply mono_Pattern | apply mono_CallExpression ].
  all: try (apply fuel_le_bind; [ | intros; apply Hrec ]).
  all: try first [ apply mono_AttributeExpression
                 | apply mono_VariantExpression
                 | apply mono_SelectExpression ].
  all: mono.
Qed.
End Monotone.

Lemma Type_fuel_le `{Host} fuel fuel' env expr :
  fuel <= fuel' -> fuel_le node (Type_ fuel env expr) (Type_ fuel' env expr).
Proof.
  revert fuel' env expr.
  induction fuel as [|fuel IH]; intros fuel' env expr Hle.
  - intros st r st' [= <- _] Hr. now destruct Hr.
  - destruct fuel' as [|fuel']; [lia|]. simpl.
    apply mono_Type_body. intros env' e. apply IH. lia.
Qed.

(** A result of [format] obtained with some fuel is the result with any
    larger fuel. *)
Lemma format_fuel `{Host} fuel fuel' c entry a errs out errs' :
  fuel <= fuel' ->
  format fuel c entry a errs = (Ok out, errs') ->
  format fuel' c entry a errs = (Ok out, errs').
Proof.
  intros Hle. unfold format, resolve.
  destruct (Type_ fuel (mkEnv c a) entry (mkState errs ∅ 0))
    as [r st] eqn:E.
  assert (Hmore : r <> OutOfFuel ->
                  Type_ fuel' (mkEnv c a) entry (mkState errs ∅ 0) = (r, st)).
  { intros Hr. eapply Type_fuel_le; eauto. }
  destruct entry as [| | | | | | | | | | | | | | |[val|] attrs|];
    try (destruct r as [part|e|];
         [ rewrite Hmore by discriminate; intros Hf; exact Hf
         | intros [=] | intros [=] ]).
  intros Hf. exact Hf.
Qed.

(** The same for [resolve], whatever the outcome. *)
Lemma resolve_fuel `{Host} fuel fuel' c a message errs r errs' :
  fuel <= fuel' -> r <> OutOfFuel ->
  resolve fuel c a message errs = (r, errs') ->
  resolve fuel' c a message errs = (r, errs').
Proof.
  intros Hle Hr. unfold resolve.
  destruct (Type_ fuel (mkEnv c a) message (mkState errs ∅ 0))
    as [r0 st] eqn:E.
  intros [= -> <-].
  now rewrite (Type_fuel_le _ _ _ _ Hle _ _ _ E Hr).
Qed.

(** ** External arguments of a plain bag *)

(** What [ExternalArgument] does for a bag without a key
    [hasOwnProperty]. *)
Lemma ExternalArgument_plain_bag `{Host} env bag name st :
  args env = Some bag ->
  bag !! js "hasOwnProperty" = None ->
  ExternalArgument env name st =
    match bag !! name with
    | None =>
        (Ok (Val (FluentNone (Some name))),
         mkState
           (errors st ++
            [mkError ReferenceError (js "Unknown external: " ++ name)])
           (dirty st) (next st))
    | Some (ArgFluent v) => (Ok (Val v), st)
    | Some (ArgString s) => (Ok (Str s), st)
    | Some (ArgNumber x) => (Ok (Val (TNumber (parseFloat (inr x)) None)), st)
    | Some (ArgDate t) => (Ok (Val (TDateTime t None)), st)
    | Some arg =>
        (Ok (Val (FluentNone (Some name))),
         mkState
           (errors st ++
            [mkError TypeError
               (js "Unsupported external type: " ++ name ++ js ", " ++
                typeof arg)])
           (dirty st) (next st))
    end.
Proof.
  intros Hargs Hplain. unfold ExternalArgument, hasOwnProperty, bind, lift.
  rewrite Hargs, Hplain.
  destruct (bag !! name) as [arg|] eqn:Earg.
  - rewrite bool_decide_eq_true_2 by eauto. simpl.
    destruct arg; reflexivity.
  - rewrite bool_decide_eq_false_2 by (intros [? [=]]). reflexivity.
Qed.


(** ** Termination on conforming input

    Every recursion of [Type] that leaves the expression at hand goes
    through the message store and ends in a string or in a pattern. A
    pattern that is dirty is refused by the cycle guard; one that is not
    becomes dirty while its elements are resolved, so the number of
    patterns of the store that are not dirty bounds the nesting. The
    proof is an induction on that number, and inside it on the depth of
    selectors and call arguments. Fuel is never counted: a result
    obtained with some fuel is kept with more, and [terminates_bind] takes
    the larger of two. Along the way the errors that are appended are
    followed, to see that a fall-back value never comes without one. *)

Lemma monotone_const A (m : M A) : monotone (fun _ => m).
Proof. intros f f' _. apply fuel_le_refl. Qed.

Lemma monotone_Type_ `{Host} env expr : monotone (fun f => Type_ f env expr).
Proof. intros f f' Hle. now apply Type_fuel_le. Qed.

Lemma monotone_bind A B (m : nat -> M A) (k : A -> nat -> M B) :
  monotone m -> (forall a, monotone (k a)) ->
  monotone (fun f => bind (m f) (fun a => k a f)).
Proof.
  intros Hm Hk f f' Hle. apply fuel_le_bind; [now apply Hm|].
  intros a. now apply Hk.
Qed.

Lemma terminates_ret A (a : A) st (Q : A -> state -> Prop) :
  Q a st -> terminates (fun _ => ret a) st Q.
Proof. intros HQ. exists 0, a, st. split; [reflexivity | exact HQ]. Qed.

Lemma terminates_weaken A (m : nat -> M A) st (Q Q' : A -> state -> Prop) :
  terminates m st Q -> (forall a st', Q a st' -> Q' a st') ->
  terminates m st Q'.
Proof. intros (f & a & st' & Hrun & HQ) Himp. exists f, a, st'. eauto. Qed.

Lemma terminates_bind A B (m : nat -> M A) (k : A -> nat -> M B) st
    (Q1 : A -> state -> Prop) (Q2 : B -> state -> Prop) :
  monotone m -> (forall a, monotone (k a)) ->
  terminates m st Q1 ->
  (forall a st1, Q1 a st1 -> terminates (k a) st1 Q2) ->
  terminates (fun f => bind (m f) (fun a => k a f)) st Q2.
Proof.
  intros Hm Hk (f1 & a & st1 & Hrun1 & HQ1) Hnext.
  destruct (Hnext a st1 HQ1) as (f2 & b & st2 & Hrun2 & HQ2).
  exists (max f1 f2), b, st2. split; [|exact HQ2].
  unfold bind.
  rewrite (Hm f1 (max f1 f2) (Nat.le_max_l _ _) _ _ _ Hrun1) by discriminate.
  apply (Hk a f2 (max f1 f2) (Nat.le_max_r _ _) _ _ _ Hrun2). discriminate.
Qed.

(** *** Errors appended *)

Lemma appended_refl st : appended st st [].
Proof. unfold appended. now rewrite app_nil_r. Qed.

Lemma appended_trans st st1 st2 d1 d2 :
  appended st st1 d1 -> appended st1 st2 d2 -> appended st st2 (d1 ++ d2).
Proof. unfold appended. intros H1 H2. now rewrite H2, H1, app_assoc. Qed.

Lemma appended_push st e :
  appended st (mkState (errors st ++ [e]) (dirty st) (next st)) [e].
Proof. reflexivity. Qed.

Lemma good_fair Q st r st' : good Q st r st' -> fair st r st'.
Proof. intros (Hr & Hd & de & Hde & _). split; [|split]; eauto. Qed.

Lemma fair_good st r st' : fair st r st' -> good False st r st'.
Proof.
  intros (Hr & Hd & de & Hde). split; [exact Hr|]. split; [exact Hd|].
  exists de. split; [exact Hde|]. intros [].
Qed.

(** A result that follows a state reached without leaving the dirty set
    changed. *)
Lemma good_trans Q st st1 r st2 d :
  dirty st1 = dirty st -> appended st st1 d ->
  good Q st1 r st2 -> good Q st r st2.
Proof.
  intros Hd Hd1 (Hr & Hd2 & d2 & Hde2 & Hq).
  split; [exact Hr|]. split; [congruence|].
  exists (d ++ d2). split; [now apply (appended_trans st st1)|].
  intros HQ Hnil. apply app_eq_nil in Hnil as [_ ->]. now apply Hq.
Qed.

(** A result that follows an error. *)
Lemma good_after_error Q Q' st st1 r st2 d :
  dirty st1 = dirty st -> appended st st1 d -> d <> [] ->
  good Q' st1 r st2 -> good Q st r st2.
Proof.
  intros Hd Hd1 Hne (Hr & Hd2 & d2 & Hde2 & _).
  split; [exact Hr|]. split; [congruence|].
  exists (d ++ d2). split; [now apply (appended_trans st st1)|].
  intros _ Hnil. apply app_eq_nil in Hnil as [-> _]. now destruct Hne.
Qed.

(** *** Scalars and patterns *)

Section Patterns.
Context `{Host}.
Variable env : Env.
Variable Q : Prop.

Lemma resolves_Type_body e st :
  terminates (fun f => Type_body (Type_ f) env e) st (good Q st) ->
  resolves Q env e st.
Proof. intros (f & r & st' & Hrun & Hgood). now exists (S f), r, st'. Qed.

Lemma scalar_runtime_value v : scalar v -> runtime_value v.
Proof. destruct v; simpl; tauto. Qed.

Lemma resolves_Str s st : resolves Q env (Str s) st.
Proof.
  exists 1, (Str s), st. split; [reflexivity|].
  split; [exact I|]. split; [reflexivity|].
  exists []. split; [apply appended_refl|]. intros _ _. exact I.
Qed.

Lemma valueOf_formattable v :
  formattable v -> exists s, valueOf (ctx env) v = Ok s.
Proof.
  destruct v as [|[[|]|]| | |]; simpl; try contradiction; eauto.
  intros ->. eauto.
Qed.

Lemma reduce_length_scalars sum parts :
  Forall scalar parts ->
  exists len, reduce_length (ctx env) sum parts = Ok len.
Proof.
  intros Hparts. revert sum.
  induction Hparts as [|part rest Hpart _ IH]; intros sum; simpl; eauto.
  destruct part as [s| |v|b name| | | | | | | | | | | | |];
    try contradiction; simpl; try apply IH.
  destruct (valueOf_formattable v Hpart) as [s ->]. apply IH.
Qed.

Lemma Pattern_part_scalars part result st :
  runtime_value part -> Forall scalar result ->
  exists result' st' de,
    Pattern_part env part result st = (Ok result', st') /\
    Forall scalar result' /\ dirty st' = dirty st /\ appended st st' de /\
    (de = [] -> no_fallback part ->
     Forall (fun p => is_FluentNone p = false) result ->
     Forall (fun p => is_FluentNone p = false) result').
Proof.
  intros Hpart Hresult.
  assert (Hnone : scalar (Val (FluentNone None))) by exact I.
  assert (Hlen : forall parts, Forall scalar parts ->
            exists len, PlaceableLength env parts = Ok len).
  { intros parts Hparts. now apply reduce_length_scalars. }
  unfold Pattern_part, bind, lift, ret, push_error.
  destruct part as [s|id parts|v|b name| | | | | | | | | | | | |];
    try contradiction.
  2: { destruct (Hlen parts Hpart) as [len ->].
       destruct (too_long len), (useIsolating (ctx env)).
       1,2: eexists _, _, [_]; (split; [reflexivity|]);
         (split; [|split; [reflexivity|split; [reflexivity|discriminate]]]);
         repeat (apply Forall_app; split); auto; repeat constructor; auto.
       all: eexists _, _, []; (split; [reflexivity|]);
         (split; [|split; [reflexivity|split; [apply appended_refl|]]]);
         [ repeat (apply Forall_app; split); auto; repeat constructor; auto
         | intros _ Hnf Hres;
           repeat (apply Forall_app; split); auto; repeat constructor ]. }
  all: destruct (useIsolating (ctx env));
    eexists _, _, []; (split; [reflexivity|]);
    (split; [|split; [reflexivity|split; [apply appended_refl|]]]);
    [ repeat (apply Forall_app; split); auto; repeat constructor; auto
    | intros _ Hnf Hres;
      repeat (apply Forall_app; split); auto; repeat constructor;
      try reflexivity
    | repeat (apply Forall_app; split); auto; repeat constructor; auto
    | intros _ Hnf Hres;
      repeat (apply Forall_app; split); auto; repeat constructor;
      try reflexivity ].
  all: destruct v; simpl in *; try reflexivity; contradiction.
Qed.

Lemma monotone_Pattern_loop elems result :
  monotone (fun f => Pattern_loop (Type_ f) env elems result).
Proof.
  intros f f' Hle. apply mono_Pattern_loop.
  intros env' e. now apply Type_fuel_le.
Qed.

Lemma walked_trans st st1 result result' res st2 d :
  dirty st1 = dirty st -> appended st st1 d ->
  (Q -> d = [] ->
   Forall (fun p => is_FluentNone p = false) result ->
   Forall (fun p => is_FluentNone p = false) result') ->
  walked Q st1 result' res st2 -> walked Q st result res st2.
Proof.
  intros Hd Hd1 Hstep (Hres & Hd2 & d2 & Hde2 & Hq).
  split; [exact Hres|]. split; [congruence|].
  exists (d ++ d2). split; [now apply (appended_trans st st1)|].
  intros HQ Hnil Hresult. apply app_eq_nil in Hnil as [-> ->]. auto.
Qed.

Lemma Pattern_loop_terminates elems : forall result st,
  (forall elem st1, In elem elems -> dirty st1 = dirty st ->
                    resolves Q env elem st1) ->
  Forall scalar result ->
  terminates (fun f => Pattern_loop (Type_ f) env elems result) st
    (walked Q st result).
Proof.
  induction elems as [|elem rest IH]; intros result st Helems Hresult.
  - simpl. apply terminates_ret. split; [exact Hresult|].
    split; [reflexivity|]. exists []. split; [apply appended_refl|]. auto.
  - assert (Hrest : forall result' st1,
              Forall scalar result' -> dirty st1 = dirty st ->
              terminates (fun f => Pattern_loop (Type_ f) env rest result') st1
                (walked Q st1 result')).
    { intros result' st1 Hr Hd. apply IH; [|exact Hr].
      intros e st2 Hin Hd2. apply Helems; [now right | congruence]. }
    assert (Hcase : (exists s, elem = Str s) \/ forall s, elem <> Str s).
    { destruct elem; eauto; right; discriminate. }
    destruct Hcase as [[s ->]|Hexpr].
    + simpl. eapply terminates_weaken.
      * apply (Hrest (result ++ [Str s]) st); [|reflexivity].
        apply Forall_app. split; [exact Hresult | now repeat constructor].
      * intros res st'.
        apply (walked_trans st st result _ res st' []);
          [reflexivity | apply appended_refl |].
        intros _ _ Hres. apply Forall_app. split; [exact Hres|].
        now repeat constructor.
    + assert (Heq : (fun f => Pattern_loop (Type_ f) env (elem :: rest) result)
                    = (fun f => bind (Type_ f env elem)
                         (fun part => bind (Pattern_part env part result)
                            (fun result' =>
                               Pattern_loop (Type_ f) env rest result')))).
      { destruct elem; try reflexivity. now destruct (Hexpr s). }
      rewrite Heq.
      apply terminates_bind with (Q1 := good Q st)
        (k := fun part f => bind (Pattern_part env part result)
                (fun result' => Pattern_loop (Type_ f) env rest result')).
      * apply monotone_Type_.
      * intros part.
        apply (monotone_bind _ _ (fun _ => Pattern_part env part result)
                 (fun result' f => Pattern_loop (Type_ f) env rest result')).
        -- apply monotone_const.
        -- intros result'. apply monotone_Pattern_loop.
      * apply Helems; [now left | reflexivity].
      * intros part st1 (Hpart & Hd1 & d1 & Hde1 & Hq1).
        destruct (Pattern_part_scalars part result st1 Hpart Hresult)
          as (result' & st2 & d2 & Hrun & Hres' & Hd2 & Hde2 & Hq2).
        destruct (Hrest result' st2 Hres' ltac:(congruence))
          as (f & res & st3 & Hloop & Hwalked).
        exists f, res, st3. split.
        -- unfold bind. now rewrite Hrun.
        -- apply (walked_trans st st2 result result' res st3 (d1 ++ d2));
             [congruence | now apply (appended_trans st st1) | | exact Hwalked].
           intros HQ Hnil Hres. apply app_eq_nil in Hnil as [-> ->]. auto.
Qed.

Lemma Pattern_terminates id elems st :
  (id ∉ dirty st ->
   forall elem st1, In elem elems -> dirty st1 = dirty st ∪ {[ id ]} ->
                    resolves Q env elem st1) ->
  terminates (fun f => Pattern (Type_ f) env id elems) st (good Q st).
Proof.
  intros Helems. unfold terminates, Pattern, bind, dirty_has. simpl.
  destruct (decide (id ∈ dirty st)) as [Hin|Hout].
  - exists 0. rewrite bool_decide_eq_true_2 by exact Hin.
    eexists _, _. split; [reflexivity|]. split; [exact I|].
    split; [reflexivity|]. eexists. split; [apply appended_push|].
    discriminate.
  - rewrite bool_decide_eq_false_2 by exact Hout.
    destruct (Pattern_loop_terminates elems []
                (mkState (errors st) (dirty st ∪ {[ id ]}) (S (next st))))
      as (f & res & st2 & Hloop & Hres & Hd2 & de & Hde & Hq);
      [intros elem st1 Hin Hd; now apply Helems | constructor |].
    exists f. unfold alloc, dirty_add, dirty_delete, ret. simpl.
    rewrite Hloop. eexists _, _. split; [reflexivity|].
    split; [exact Hres|]. split.
    { simpl. rewrite Hd2. simpl. set_solver. }
    exists de. split; [exact Hde|].
    intros HQ Hnil. simpl. apply Hq; auto.
Qed.
End Patterns.

Section Values.
Context `{Host}.
Variable env : Env.

Lemma resolves_scalar v st : scalar v -> resolves False env v st.
Proof.
  intros Hv. unfold resolves, terminates.
  destruct v as [s| |[| | | |]|b name| | | | | | | | | | | | |];
    try contradiction; exists 1; simpl.
  all: try (eexists _, st; split; [reflexivity|]; apply fair_good;
            split; [exact Hv|]; split; [reflexivity|];
            exists []; apply appended_refl).
  all: unfold bind, push_error, ret; simpl;
    eexists _, _; (split; [reflexivity|]); apply fair_good;
    (split; [exact I|]); (split; [reflexivity|]);
    eexists; apply appended_push.
Qed.

Lemma resolves_value v st : runtime_value v -> resolves False env v st.
Proof.
  intros Hv.
  destruct v as [s|id parts| | | | | | | | | | | | | | |];
    try (now apply resolves_scalar).
  apply resolves_Type_body. simpl. apply Pattern_terminates.
  intros _ elem st1 Hin _. apply resolves_scalar.
  simpl in Hv. rewrite Forall_forall in Hv. now apply Hv, list_elem_of_In.
Qed.
End Values.

(** *** Assignments to the array of named arguments *)

Lemma Array_set_ordinary `{Host} c keyargs name v :
  name <> js "length" -> name <> js "__proto__" ->
  named_proto keyargs = None ->
  Array_set c keyargs name v =
    Ok (mkKeyargs (set_property name v (named keyargs))
          (match array_index name with
           | Some i => N.max (named_length keyargs) (i + 1)
           | None => named_length keyargs
           end) None).
Proof.
  intros Hlength Hproto Hnone. unfold Array_set.
  rewrite bool_decide_eq_false_2 by exact Hlength.
  rewrite bool_decide_eq_false_2 by exact Hproto.
  now rewrite Hnone.
Qed.

Lemma Forall_set_property {A} (P : jsstring * A -> Prop) name v l :
  P (name, v) -> Forall P l -> Forall P (set_property name v l).
Proof.
  intros Hv. induction 1 as [|[k w] rest Hk Hrest IH]; simpl.
  - now repeat constructor.
  - case_bool_decide as Hname; [subst k|]; constructor; auto.
Qed.

(** *** The resolver on conforming input *)

Section Termination.
Context `{Host}.
Variable env : Env.
Variable C : jsstring -> list node -> Prop.
Variable U : gset ident.
Hypothesis WB : well_behaved env C U.
Variable Q : Prop.
Hypothesis HQ : Q -> quiet env C.

Lemma MessageReference_ok name st :
  exists m st',
    MessageReference env name st = (Ok m, st') /\ dirty st' = dirty st /\
    ((conforms_message C U m /\ is_FluentNone m = false /\ st' = st) \/
     (m = Val (FluentNone (Some name)) /\ exists e, appended st st' [e])).
Proof.
  unfold MessageReference.
  destruct (messages (ctx env) !! name) as [m|] eqn:Em.
  - destruct (falsy m) eqn:Ef.
    + eexists _, _. split; [reflexivity|]. split; [reflexivity|]. right.
      split; [reflexivity|]. eexists. apply appended_push.
    + exists m, st. split; [reflexivity|]. split; [reflexivity|]. left.
      pose proof (store_conforms _ _ _ WB _ _ Em) as Hm. split; [exact Hm|].
      split; [|reflexivity].
      destruct m; try contradiction; reflexivity.
  - eexists _, _. split; [reflexivity|]. split; [reflexivity|]. right.
    split; [reflexivity|]. eexists. apply appended_push.
Qed.

(** The induction hypothesis on the number of patterns of [U] that are
    not dirty. *)
Variable n : nat.
Hypothesis IHn : forall e st,
  conforms C U e -> size (U ∖ dirty st) < n -> resolves Q env e st.

Lemma resolves_pattern id elems st :
  conforms C U (Arr id elems) -> size (U ∖ dirty st) <= n ->
  resolves Q env (Arr id elems) st.
Proof.
  intros Hc Hsize. inversion Hc as [|? ? HU _ Helems| | | | | | | | |]; subst.
  apply resolves_Type_body. simpl. apply Pattern_terminates.
  intros Hout elem st1 Hin Hd. apply IHn.
  - rewrite Forall_forall in Helems. now apply Helems, list_elem_of_In.
  - rewrite Hd. eapply Nat.lt_le_trans; [|exact Hsize].
    apply subset_size. set_solver.
Qed.

Lemma resolves_pattern_like v st :
  pattern_like v -> conforms C U v -> size (U ∖ dirty st) <= n ->
  resolves Q env v st.
Proof.
  intros Hp Hc Hsize. destruct v; try contradiction.
  - apply resolves_Str.
  - now apply resolves_pattern.
Qed.

Lemma resolves_message m st :
  conforms_message C U m -> size (U ∖ dirty st) <= n -> resolves Q env m st.
Proof.
  intros Hm Hsize.
  destruct m as [s|id elems| | | | | | | | | | | | | |val attrs|];
    try contradiction.
  - apply resolves_Str.
  - now apply resolves_pattern.
  - destruct Hm as [Hval _]. destruct val as [v|].
    + destruct (Hval v eq_refl) as [Hp Hc].
      destruct (resolves_pattern_like v st Hp Hc Hsize)
        as (f & r & st' & Hrun & Hgood).
      now exists (S f), r, st'.
    + exists 1. simpl. unfold bind, push_error, ret. simpl.
      eexists _, _. split; [reflexivity|].
      split; [exact I|]. split; [reflexivity|].
      eexists. split; [apply appended_push | discriminate].
Qed.

Lemma Type_literal_key key f st :
  literal_key key ->
  Type_ (S f) env key st = (Ok (Val (literal_value key)), st) /\
  keyCanMatch (Val (literal_value key)) = true /\
  literal_value key <> TBase /\
  exists s, valueOf_text (ctx env) (Val (literal_value key)) = Ok s.
Proof.
  destruct key; try contradiction; intros _; simpl;
    (split; [reflexivity|]); (split; [reflexivity|]);
    (split; [discriminate|]); eauto.
Qed.

Lemma resolves_literal_key key st :
  literal_key key -> resolves Q env key st.
Proof.
  intros Hkey. destruct (Type_literal_key key 0 st Hkey) as (Hrun & _).
  exists 1, (Val (literal_value key)), st. split; [exact Hrun|].
  split; [|split; [reflexivity|]].
  - destruct key; try contradiction; exact I.
  - exists []. split; [apply appended_refl|]. intros _ _.
    destruct key; try contradiction; exact I.
Qed.

Lemma SelectExpression_loop_literal f selector vars st :
  Forall (fun kv : node * node => literal_key kv.1) vars ->
  exists found,
    SelectExpression_loop (Type_ (S f)) env selector vars st =
      (Ok found, st) /\
    (found = None \/
     exists k v, found = Some (Variant k v) /\ In (k, v) vars).
Proof.
  induction 1 as [|[k v] rest Hk _ IH].
  - exists None. split; [reflexivity | now left].
  - cbn [SelectExpression_loop]. unfold bind.
    destruct (Type_literal_key k f st Hk) as (-> & Hcan & _).
    rewrite Hcan. unfold lift.
    assert (Hm : exists b,
               method_match (ctx env) (Val (literal_value k)) selector = Ok b).
    { destruct (literal_value k); simpl in *; try discriminate; eauto. }
    destruct Hm as [[|] ->].
    + eexists. split; [reflexivity|]. right. exists k, v. split; [reflexivity|].
      now left.
    + destruct IH as (found & -> & Hfound). exists found.
      split; [reflexivity|]. destruct Hfound as [->|(k' & v' & -> & Hin)];
        [now left | right; exists k', v'; split; [reflexivity | now right]].
Qed.

Lemma VariantExpression_loop_literal f keyword vars st :
  keyCanMatch keyword = true ->
  Forall (fun kv : node * node => literal_key kv.1) vars ->
  exists found,
    VariantExpression_loop (Type_ (S f)) env keyword vars st =
      (Ok found, st) /\
    (found = None \/
     exists k v, found = Some (Variant k v) /\ In (k, v) vars).
Proof.
  intros Hcan. induction 1 as [|[k v] rest Hk _ IH].
  - exists None. split; [reflexivity | now left].
  - cbn [VariantExpression_loop]. unfold bind.
    destruct (Type_literal_key k f st Hk) as (-> & _).
    unfold lift.
    assert (Hm : exists b,
               method_match (ctx env) keyword (Val (literal_value k)) = Ok b).
    { destruct keyword as [| |[]| | | | | | | | | | | | | |];
        simpl in *; try discriminate; eauto. }
    destruct Hm as [[|] ->].
    + eexists. split; [reflexivity|]. right. exists k, v. split; [reflexivity|].
      now left.
    + destruct IH as (found & -> & Hfound). exists found.
      split; [reflexivity|]. destruct Hfound as [->|(k' & v' & -> & Hin)];
        [now left | right; exists k', v'; split; [reflexivity | now right]].
Qed.

Lemma DefaultMember_ok vars def st :
  exists m st',
    DefaultMember env vars def st = (Ok m, st') /\ dirty st' = dirty st /\
    ((m = Val (FluentNone None) /\ exists e, appended st st' [e]) \/
     (exists k v, m = Variant k v /\ In (k, v) vars /\ st' = st)).
Proof.
  unfold DefaultMember.
  destruct (def ≫= (fun i => vars !! i)) as [[k v]|] eqn:E.
  - exists (Variant k v), st. split; [reflexivity|]. split; [reflexivity|].
    right. exists k, v. split; [reflexivity|]. split; [|reflexivity].
    destruct def as [i|]; [|discriminate]. simpl in E.
    apply list_elem_of_In. eapply list_elem_of_lookup_2, E.
  - eexists _, _. split; [reflexivity|]. split; [reflexivity|]. left.
    split; [reflexivity|]. eexists. apply appended_push.
Qed.

Lemma ExternalArgument_ok name st :
  exists r st',
    ExternalArgument env name st = (Ok r, st') /\ good Q st r st'.
Proof.
  destruct (args env) as [bag|] eqn:Ebag.
  - destruct (args_plain _ _ _ WB bag Ebag) as (Hplain & Hfluent & Hdate).
    rewrite (ExternalArgument_plain_bag env bag name st Ebag Hplain).
    specialize (Hfluent name). specialize (Hdate name).
    destruct (bag !! name) as [[v| | |t| |]|] eqn:Earg;
      eexists _, _; (split; [reflexivity|]).
    + split; [now apply Hfluent|]. split; [reflexivity|].
      exists []. split; [apply appended_refl|]. intros Hq _.
      pose proof (args_quiet _ _ (HQ Hq) bag name) as Hnone.
      destruct v; try exact I. now destruct (Hnone value Ebag).
    + split; [exact I|]. split; [reflexivity|].
      exists []. split; [apply appended_refl|]. intros _ _. exact I.
    + split; [exact I|]. split; [reflexivity|].
      exists []. split; [apply appended_refl|]. intros _ _. exact I.
    + split; [now apply Hdate|]. split; [reflexivity|].
      exists []. split; [apply appended_refl|]. intros _ _. exact I.
    + split; [exact I|]. split; [reflexivity|].
      eexists. split; [apply appended_push | discriminate].
    + split; [exact I|]. split; [reflexivity|].
      eexists. split; [apply appended_push | discriminate].
    + split; [exact I|]. split; [reflexivity|].
      eexists. split; [apply appended_push | discriminate].
  - unfold ExternalArgument. rewrite Ebag.
    eexists _, _. split; [reflexivity|]. split; [exact I|].
    split; [reflexivity|].
    eexists. split; [apply appended_push | discriminate].
Qed.

Lemma FunctionReference_ok name st :
  exists r st',
    FunctionReference env name st = (Ok r, st') /\ dirty st' = dirty st /\
    ((is_FluentNone r = true /\ scalar r /\ exists e, appended st st' [e]) \/
     exists builtin f,
       r = Func builtin name /\ st' = st /\
       function_of (ctx env) builtin name = Some f /\
       lookup_function (ctx env) name = Some (builtin, SlotFunction f)).
Proof.
  unfold FunctionReference, lookup_function.
  destruct (functions (ctx env) !! name) as [[f|[|]]|] eqn:Ef; simpl.
  - eexists _, _. split; [reflexivity|]. split; [reflexivity|].
    right. exists false, f. unfold function_of. rewrite Ef. auto.
  - eexists _, _. split; [reflexivity|]. split; [reflexivity|].
    left. split; [reflexivity|]. split; [exact I|].
    eexists. apply appended_push.
  - destruct (builtins !! name) as [[f|[|]]|] eqn:Eb; simpl;
      eexists _, _; (split; [reflexivity|]); (split; [reflexivity|]);
      try (left; split; [reflexivity|]; split; [exact I|];
           eexists; apply appended_push).
    right. exists true, f. unfold function_of. rewrite Eb. auto.
  - destruct (builtins !! name) as [[f|[|]]|] eqn:Eb; simpl;
      eexists _, _; (split; [reflexivity|]); (split; [reflexivity|]);
      try (left; split; [reflexivity|]; split; [exact I|];
           eexists; apply appended_push).
    right. exists true, f. unfold function_of. rewrite Eb. auto.
Qed.

Lemma resolves_from st st1 e d :
  dirty st1 = dirty st -> appended st st1 d -> resolves Q env e st1 ->
  terminates (fun f => Type_ f env e) st1 (good Q st).
Proof.
  intros Hd Hde Hres. eapply terminates_weaken; [exact Hres|].
  intros r st2. now apply good_trans with (d := d).
Qed.

Lemma resolves_after_error st st1 v d :
  dirty st1 = dirty st -> appended st st1 d -> d <> [] ->
  runtime_value v ->
  terminates (fun f => Type_ f env v) st1 (good Q st).
Proof.
  intros Hd Hde Hne Hv. eapply terminates_weaken.
  - apply resolves_value. exact Hv.
  - intros r st2. now apply good_after_error with (d := d).
Qed.

Lemma resolves_redispatch st a st1 :
  redispatchable C U st a st1 -> size (U ∖ dirty st) <= n ->
  terminates (fun f => Type_ f env a) st1 (good Q st).
Proof.
  intros (Hd & d & Hde & Hcase) Hsize.
  destruct Hcase as [[Hv Hne]|[(k & v & -> & Hp & Hc)|[Hp Hc]]].
  - now apply resolves_after_error with (d := d).
  - apply resolves_from with (d := d); [exact Hd | exact Hde |].
    destruct (resolves_pattern_like v st1 Hp Hc ltac:(now rewrite Hd))
      as (f & r & st2 & Hrun & Hgood).
    now exists (S f), r, st2.
  - apply resolves_from with (d := d); [exact Hd | exact Hde |].
    apply resolves_pattern_like; [exact Hp | exact Hc | now rewrite Hd].
Qed.

Lemma property_In {A} name (l : list (jsstring * A)) a :
  property name l = Some a -> exists k, In (k, a) l.
Proof.
  induction l as [|[k v] rest IH]; simpl; [discriminate|].
  case_bool_decide.
  - intros [= ->]. exists k. now left.
  - intros Hrest. destruct (IH Hrest) as [k' Hin]. exists k'. now right.
Qed.

(** The fall-back of a reference to an attribute or a variant: the
    message resolved after an error has been pushed. *)
Lemma fallback_redispatchable m st e :
  conforms_message C U m -> size (U ∖ dirty st) <= n ->
  exists f r st2,
    Type_ f env m (mkState (errors st ++ [e]) (dirty st) (next st)) =
      (Ok r, st2) /\
    forall st0, dirty st = dirty st0 -> (exists d, appended st0 st d) ->
                redispatchable C U st0 r st2.
Proof.
  intros Hm Hsize.
  destruct (resolves_message m
              (mkState (errors st ++ [e]) (dirty st) (next st)))
    as (f & r & st2 & Hty & Hr & Hd2 & d2 & Hde2 & _);
    [exact Hm | exact Hsize |].
  exists f, r, st2. split; [exact Hty|].
  intros st0 Hd0 [d0 Hde0]. split; [simpl in Hd2; congruence|].
  exists (d0 ++ ([e] ++ d2)). split.
  - apply (appended_trans st0 st); [exact Hde0|].
    exact (appended_trans st _ st2 [e] d2 (appended_push st e) Hde2).
  - left. split; [exact Hr|]. intros Hnil.
    apply app_eq_nil in Hnil as [_ Hnil]. discriminate.
Qed.

Lemma AttributeExpression_terminates id name st :
  size (U ∖ dirty st) <= n ->
  terminates (fun f => AttributeExpression (Type_ f) env id name) st
    (redispatchable C U st).
Proof.
  intros Hsize. unfold AttributeExpression.
  destruct (MessageReference_ok id st) as (m & st1 & Hrun & Hd & Hcase).
  destruct Hcase as [(Hm & Hnone & ->)|[-> [e He]]].
  - destruct (prop_attrs m ≫= property name) as [attr|] eqn:Eattr.
    + exists 0, attr, st. split.
      * unfold bind. rewrite Hrun, Hnone, Eattr. reflexivity.
      * split; [reflexivity|]. exists []. split; [apply appended_refl|].
        right. right.
        destruct m as [| | | | | | | | | | | | | | |val [l|]|];
          try discriminate. simpl in Eattr.
        destruct Hm as [_ Hattrs]. specialize (Hattrs l eq_refl).
        destruct (property_In _ _ _ Eattr) as [k Hin].
        rewrite Forall_forall in Hattrs.
        apply (Hattrs (k, attr)). now apply list_elem_of_In.
    + destruct (fallback_redispatchable m st
                  (mkError ReferenceError (js "Unknown attribute: " ++ name))
                  Hm Hsize) as (f & r & st2 & Hty & Hre).
      exists f, r, st2. split.
      * unfold bind. rewrite Hrun, Hnone, Eattr. unfold push_error.
        exact Hty.
      * apply Hre; [reflexivity|]. exists []. apply appended_refl.
  - exists 0. eexists _, st1. split.
    + unfold bind. rewrite Hrun. reflexivity.
    + split; [exact Hd|]. exists [e]. split; [exact He|]. left.
      split; [exact I | discriminate].
Qed.

Lemma monotone_AttributeExpression id name :
  monotone (fun f => AttributeExpression (Type_ f) env id name).
Proof.
  intros f f' Hle. apply mono_AttributeExpression.
  intros env' e. now apply Type_fuel_le.
Qed.

Lemma resolves_Attr id name st :
  size (U ∖ dirty st) <= n -> resolves Q env (Attr id name) st.
Proof.
  intros Hsize. apply resolves_Type_body. simpl.
  apply terminates_bind with (Q1 := redispatchable C U st)
    (m := fun f => AttributeExpression (Type_ f) env id name)
    (k := fun attr f => Type_ f env attr).
  - apply monotone_AttributeExpression.
  - intros a. apply monotone_Type_.
  - now apply AttributeExpression_terminates.
  - intros a st1 Ha. now apply resolves_redispatch.
Qed.

Lemma resolves_Ref name st :
  size (U ∖ dirty st) <= n -> resolves Q env (Ref name) st.
Proof.
  intros Hsize. apply resolves_Type_body. simpl.
  destruct (MessageReference_ok name st) as (m & st1 & Hrun & Hd & Hcase).
  assert (Hm : terminates (fun f => Type_ f env m) st1 (good Q st)).
  { destruct Hcase as [(Hm & _ & ->)|[-> [e He]]].
    - now apply resolves_message.
    - apply resolves_after_error with (d := [e]);
        [exact Hd | exact He | discriminate | exact I]. }
  destruct Hm as (f & r & st2 & Hty & Hgood).
  exists f, r, st2. split; [|exact Hgood].
  unfold bind. now rewrite Hrun.
Qed.

Lemma isVariantList_conforms m :
  conforms_message C U m ->
  exists b,
    isVariantList (prop_val m) = Ok b /\
    (b = true ->
     Forall (fun kv : node * node =>
               literal_key kv.1 /\ pattern_like kv.2 /\ conforms C U kv.2)
       (variant_list_vars (prop_val m))).
Proof.
  intros Hm.
  destruct m as [| | | | | | | | | | | | | | |[v|] attrs|];
    try contradiction; simpl; try (exists false; split; [reflexivity|];
                                   discriminate).
  destruct Hm as [Hval _]. destruct (Hval v eq_refl) as [Hp Hc].
  destruct v as [|id [|first rest]| | | | | | | | | | | | | | |];
    try contradiction; try (exists false; split; [reflexivity|]; discriminate).
  - inversion Hc as [|? ? _ Hne _| | | | | | | | |]. now destruct Hne.
  - inversion Hc as [|? ? _ _ Helems| | | | | | | | |]; subst.
    inversion Helems as [|? ? Hfirst _]; subst.
    destruct first as [| | | | | | | | | | | | |[e|] vars def| | |];
      try (exists false; split; [reflexivity|]; discriminate).
    exists true. split; [reflexivity|]. intros _.
    now inversion Hfirst.
Qed.

Lemma VariantExpression_terminates id key st :
  literal_key key -> size (U ∖ dirty st) <= n ->
  terminates (fun f => VariantExpression (Type_ f) env id key) st
    (redispatchable C U st).
Proof.
  intros Hkey Hsize. unfold VariantExpression.
  destruct (MessageReference_ok id st) as (m & st1 & Hrun & Hd & Hcase).
  destruct Hcase as [(Hm & Hnone & ->)|[-> [e He]]].
  2: { exists 0. eexists _, st1. split.
       - unfold bind. rewrite Hrun. reflexivity.
       - split; [exact Hd|]. exists [e]. split; [exact He|]. left.
         split; [exact I | discriminate]. }
  destruct (Type_literal_key key 0 st Hkey) as (_ & Hcan & _ & s & Hs).
  destruct (isVariantList_conforms m Hm) as (b & Hb & Hvars).
  destruct (fallback_redispatchable m st
              (mkError ReferenceError (js "Unknown variant: " ++ s))
              Hm Hsize) as (f & r & st2 & Hty & Hre).
  assert (Hfallback :
    (let* text := lift (valueOf_text (ctx env) (Val (literal_value key))) in
     exec push_error
       (mkError ReferenceError (js "Unknown variant: " ++ text)) in
     Type_ (S f) env m) st = (Ok r, st2)).
  { unfold bind, lift, push_error. rewrite Hs.
    eapply Type_fuel_le; [| exact Hty | discriminate]. lia. }
  assert (Hredo : redispatchable C U st r st2).
  { apply Hre; [reflexivity|]. exists []. apply appended_refl. }
  destruct (Type_literal_key key f st Hkey) as (Hk & _).
  exists (S f). unfold bind at 1. rewrite Hrun, Hnone.
  unfold bind at 1. rewrite Hk. unfold bind at 1, lift at 1. rewrite Hb.
  destruct b.
  - destruct (VariantExpression_loop_literal f (Val (literal_value key))
                (variant_list_vars (prop_val m)) st Hcan)
      as (found & Hloop & Hfound).
    { eapply Forall_impl; [apply Hvars; reflexivity|]. now intros kv0 [? _]. }
    unfold bind at 1. rewrite Hloop.
    destruct Hfound as [->|(k & v & -> & Hin)].
    + exists r, st2. split; [exact Hfallback | exact Hredo].
    + exists (Variant k v), st. split; [reflexivity|].
      split; [reflexivity|]. exists []. split; [apply appended_refl|].
      right. left. exists k, v. split; [reflexivity|].
      specialize (Hvars eq_refl). rewrite Forall_forall in Hvars.
      apply list_elem_of_In in Hin. now destruct (Hvars _ Hin) as (_ & ? & ?).
  - unfold bind at 1, ret at 1. exists r, st2.
    split; [exact Hfallback | exact Hredo].
Qed.

Lemma resolves_Var id key st :
  literal_key key -> size (U ∖ dirty st) <= n ->
  resolves Q env (Var id key) st.
Proof.
  intros Hkey Hsize. apply resolves_Type_body. simpl.
  apply terminates_bind with (Q1 := redispatchable C U st)
    (m := fun f => VariantExpression (Type_ f) env id key)
    (k := fun variant f => Type_ f env variant).
  - intros f f' Hle. apply mono_VariantExpression.
    intros env' e. now apply Type_fuel_le.
  - intros a. apply monotone_Type_.
  - now apply VariantExpression_terminates.
  - intros a st1 Ha. now apply resolves_redispatch.
Qed.

Lemma SelectExpression_terminates exp vars def st :
  (forall e, exp = Some e -> resolves Q env e st) ->
  Forall (fun kv : node * node =>
            literal_key kv.1 /\ pattern_like kv.2 /\ conforms C U kv.2) vars ->
  terminates (fun f => SelectExpression (Type_ f) env exp vars def) st
    (redispatchable C U st).
Proof.
  intros Hexp Hvars.
  assert (Hmember : forall k v, In (k, v) vars ->
            pattern_like v /\ conforms C U v).
  { intros k v Hin. rewrite Forall_forall in Hvars.
    apply list_elem_of_In in Hin. now destruct (Hvars _ Hin) as (_ & ? & ?). }
  assert (Hdefault : forall st1 d, dirty st1 = dirty st -> appended st st1 d ->
            exists m st2, DefaultMember env vars def st1 = (Ok m, st2) /\
                          redispatchable C U st m st2).
  { intros st1 d Hd Hde.
    destruct (DefaultMember_ok vars def st1) as (m & st2 & Hrun & Hd2 & Hm).
    exists m, st2. split; [exact Hrun|]. split; [congruence|].
    destruct Hm as [[-> [e He]]|(k & v & -> & Hin & ->)].
    - exists (d ++ [e]). split; [now apply (appended_trans st st1)|].
      left. split; [exact I|]. intros Hnil.
      apply app_eq_nil in Hnil as [_ Hnil]. discriminate.
    - exists d. split; [exact Hde|].
      right. left. exists k, v. split; [reflexivity | exact (Hmember k v Hin)]. }
  unfold SelectExpression. destruct exp as [e|].
  - destruct (Hexp e eq_refl)
      as (f & selector & st1 & Hty & Hv & Hd & d & Hde & _).
    exists (S f). unfold bind at 1.
    rewrite (Type_fuel_le f (S f) env e ltac:(lia) _ _ _ Hty)
      by discriminate.
    destruct (is_FluentNone selector).
    + destruct (Hdefault st1 d Hd Hde) as (m & st2 & Hrun & Hm).
      now exists m, st2.
    + destruct (SelectExpression_loop_literal f selector vars st1)
        as (found & Hloop & Hfound).
      { eapply Forall_impl; [exact Hvars|]. now intros kv [? _]. }
      unfold bind at 1. rewrite Hloop.
      destruct Hfound as [->|(k & v & -> & Hin)].
      * destruct (Hdefault st1 d Hd Hde) as (m & st2 & Hrun & Hm).
        now exists m, st2.
      * exists (Variant k v), st1. split; [reflexivity|].
        split; [exact Hd|]. exists d. split; [exact Hde|].
        right. left. exists k, v.
        split; [reflexivity | exact (Hmember k v Hin)].
  - destruct (Hdefault st [] eq_refl (appended_refl st))
      as (m & st2 & Hrun & Hm).
    now exists 0, m, st2.
Qed.

Lemma resolves_Sel exp vars def st :
  (forall e, exp = Some e -> resolves Q env e st) ->
  Forall (fun kv : node * node =>
            literal_key kv.1 /\ pattern_like kv.2 /\ conforms C U kv.2) vars ->
  size (U ∖ dirty st) <= n ->
  resolves Q env (Sel exp vars def) st.
Proof.
  intros Hexp Hvars Hsize. apply resolves_Type_body. simpl.
  apply terminates_bind with (Q1 := redispatchable C U st)
    (m := fun f => SelectExpression (Type_ f) env exp vars def)
    (k := fun member f => Type_ f env member).
  - intros f f' Hle. apply mono_SelectExpression.
    intros env' e. now apply Type_fuel_le.
  - intros a. apply monotone_Type_.
  - now apply SelectExpression_terminates.
  - intros a st1 Ha. now apply resolves_redispatch.
Qed.

Lemma CallExpression_loop_cons rec arg rest posargs keyargs :
  CallExpression_loop rec env (arg :: rest) posargs keyargs =
    bind (rec env (call_target arg))
      (fun v =>
         match arg with
         | Narg name _ =>
             bind (lift (Array_set (ctx env) keyargs name v))
               (fun keyargs' =>
                  CallExpression_loop rec env rest posargs keyargs')
         | _ => CallExpression_loop rec env rest (posargs ++ [v]) keyargs
         end).
Proof. destruct arg; reflexivity. Qed.

Lemma positional_args_cons arg rest :
  (forall name val, arg <> Narg name val) ->
  positional_args (arg :: rest) = arg :: positional_args rest.
Proof.
  intros Harg. unfold positional_args. simpl.
  destruct arg as [| | | | | | | | |name val| | | | | | |]; try reflexivity.
  now destruct (Harg name val).
Qed.

Lemma CallExpression_loop_terminates st l : forall posargs keyargs st1 d0,
  dirty st1 = dirty st -> appended st st1 d0 ->
  collected Q d0 posargs keyargs ->
  (forall arg st2, In arg l -> dirty st2 = dirty st ->
                   ordinary_name arg /\
                   resolves Q env (call_target arg) st2) ->
  terminates (fun f => CallExpression_loop (Type_ f) env l posargs keyargs)
    st1
    (fun res st' =>
       dirty st' = dirty st /\
       length res.1 = length posargs + length (positional_args l) /\
       exists d, appended st st' d /\ collected Q d res.1 res.2).
Proof.
  induction l as [|arg rest IH]; intros posargs keyargs st1 d0 Hd Hd0 Hcol Hargs.
  - simpl. apply terminates_ret. simpl. split; [exact Hd|].
    split; [lia|]. now exists d0.
  - destruct (Hargs arg st1 (or_introl eq_refl) Hd) as [Hname Hres].
    destruct Hcol as (Hpos & Hkey & Hproto & Hquiet).
    assert (Heq :
      (fun f => CallExpression_loop (Type_ f) env (arg :: rest) posargs
                  keyargs) =
      (fun f => bind (Type_ f env (call_target arg))
         (fun v =>
            match arg with
            | Narg name _ =>
                bind (lift (Array_set (ctx env) keyargs name v))
                  (fun keyargs' =>
                     CallExpression_loop (Type_ f) env rest posargs keyargs')
            | _ =>
                CallExpression_loop (Type_ f) env rest (posargs ++ [v])
                  keyargs
            end))).
    { destruct arg; reflexivity. }
    rewrite Heq.
    apply terminates_bind with (Q1 := good Q st1)
      (k := fun v f =>
         match arg with
         | Narg name _ =>
             bind (lift (Array_set (ctx env) keyargs name v))
               (fun keyargs' =>
                  CallExpression_loop (Type_ f) env rest posargs keyargs')
         | _ =>
             CallExpression_loop (Type_ f) env rest (posargs ++ [v]) keyargs
         end).
    + apply monotone_Type_.
    + intros v f f' Hle.
      assert (Hmono : forall p k,
                fuel_le _ (CallExpression_loop (Type_ f) env rest p k)
                  (CallExpression_loop (Type_ f') env rest p k)).
      { intros p k. apply mono_CallExpression_loop.
        intros env' e. now apply Type_fuel_le. }
      destruct arg; try apply Hmono.
      apply fuel_le_bind; [apply fuel_le_refl | intros k; apply Hmono].
    + exact Hres.
    + intros v st2 (Hv & Hd2 & d1 & Hd1 & Hq1).
      assert (Hd2' : dirty st2 = dirty st) by congruence.
      assert (Hde2 : appended st st2 (d0 ++ d1))
        by now apply (appended_trans st st1).
      assert (Hnext : forall arg' st3, In arg' rest -> dirty st3 = dirty st ->
                ordinary_name arg' /\ resolves Q env (call_target arg') st3).
      { intros arg' st3 Hin. apply Hargs. now right. }
      assert (Hcase : (exists name val, arg = Narg name val) \/
                      forall name val, arg <> Narg name val).
      { destruct arg; eauto; right; discriminate. }
      destruct Hcase as [(name & val & ->)|Hpositional].
      * destruct Hname as [Hlength Hnoproto].
        destruct (IH posargs
                    (mkKeyargs (set_property name v (named keyargs))
                       (match array_index name with
                        | Some i => N.max (named_length keyargs) (i + 1)
                        | None => named_length keyargs
                        end) None) st2 (d0 ++ d1) Hd2' Hde2)
          as (f & res & st3 & Hloop & Hpost); [|exact Hnext|].
        { split; [exact Hpos|]. split.
          { apply Forall_set_property; [exact Hv | exact Hkey]. }
          split; [reflexivity|]. intros Hq Hnil.
          apply app_eq_nil in Hnil as [-> ->].
          destruct (Hquiet Hq eq_refl) as [Hp Hk]. split; [exact Hp|].
          apply Forall_set_property; [now apply Hq1 | exact Hk]. }
        exists f, res, st3. split; [|exact Hpost].
        unfold bind, lift.
        now rewrite (Array_set_ordinary _ _ _ _ Hlength Hnoproto Hproto).
      * destruct (IH (posargs ++ [v]) keyargs st2 (d0 ++ d1) Hd2' Hde2)
          as (f & res & st3 & Hloop & Hd3 & Hlen & Hpost); [|exact Hnext|].
        { split; [apply Forall_app; split; [exact Hpos | now constructor]|].
          split; [exact Hkey|]. split; [exact Hproto|]. intros Hq Hnil.
          apply app_eq_nil in Hnil as [-> ->].
          destruct (Hquiet Hq eq_refl) as [Hp Hk]. split; [|exact Hk].
          apply Forall_app. split; [exact Hp|]. constructor; [|constructor].
          now apply Hq1. }
        exists f, res, st3. split.
        { destruct arg as [| | | | | | | | |name val| | | | | | |];
            try exact Hloop. now destruct (Hpositional name val). }
        split; [exact Hd3|]. split; [|exact Hpost].
        rewrite Hlen, length_app, positional_args_cons by exact Hpositional.
        simpl. lia.
Qed.

Lemma CallExpression_terminates callee l st :
  C callee l ->
  (forall arg st1, In arg l -> dirty st1 = dirty st ->
                   ordinary_name arg /\
                   resolves Q env (call_target arg) st1) ->
  terminates (fun f => CallExpression (Type_ f) env callee l) st (good Q st).
Proof.
  intros Hcall Hargs. unfold CallExpression.
  destruct (FunctionReference_ok callee st) as (r & st1 & Hrun & Hd & Hcase).
  destruct Hcase as [(Hnone & Hr & e & He)
                    |(builtin & fn & -> & -> & Hfn & Hlookup)].
  - exists 0, r, st1. split.
    + unfold bind. now rewrite Hrun, Hnone.
    + split; [now apply scalar_runtime_value|]. split; [exact Hd|].
      exists [e]. split; [exact He | discriminate].
  - destruct (CallExpression_loop_terminates st l [] no_keyargs st []
                eq_refl (appended_refl st))
      as (f & [posargs keyargs] & st2 & Hloop & Hd2 & Hlen & d & Hde & Hcol);
      [|exact Hargs|].
    { split; [constructor|]. split; [constructor|]. split; [reflexivity|].
      intros _ _. split; constructor. }
    simpl in Hlen, Hcol.
    destruct Hcol as (Hpos & Hkey & Hproto & Hquiet).
    assert (Hshape : call_shape l posargs keyargs) by (repeat split; auto).
    destruct (calls_return _ _ _ WB callee l builtin fn posargs keyargs
                Hcall Hlookup Hshape) as (v & Hv & Hvalue).
    exists f, v, st2. split.
    + unfold bind. rewrite Hrun. simpl. rewrite Hloop, Hfn.
      unfold lift. now rewrite Hv.
    + split; [exact Hvalue|]. split; [exact Hd2|].
      exists d. split; [exact Hde|]. intros Hq Hnil.
      destruct (Hquiet Hq Hnil) as [Hp Hk].
      exact (calls_quiet _ _ (HQ Hq) callee l builtin fn posargs keyargs v
               Hcall Hlookup Hshape Hp Hk Hv).
Qed.

Lemma depth_call_target callee l arg :
  In arg l -> depth (call_target arg) < depth (Call callee l).
Proof.
  intros Hin. simpl.
  assert (Hle : depth arg <= list_max (List.map depth l)).
  { pose proof (proj1 (list_max_le (List.map depth l) _) (le_n _)) as Hall.
    rewrite List.Forall_forall in Hall. apply Hall. now apply in_map. }
  destruct arg; simpl in *; lia.
Qed.

Lemma resolves_depth d : forall e st,
  depth e <= d -> conforms C U e -> size (U ∖ dirty st) <= n ->
  resolves Q env e st.
Proof.
  induction d as [|d IHd]; intros e st Hdepth Hc Hsize;
    inversion Hc as [s|id elems HU Hne Helems|name|val|name|name
                    |callee l Hcall Hl|name|id name|id key Hkey
                    |exp vars def Hexp Hvars]; subst.
  all: try (now apply resolves_Str).
  all: try (now apply resolves_pattern).
  all: try (now apply resolves_Ref).
  all: try (now apply resolves_Attr).
  all: try (now apply resolves_Var).
  all: try (now apply resolves_literal_key).
  all: try (destruct (ExternalArgument_ok name st) as (r & st' & Hrun & Hgood);
            now exists 1, r, st').
  all: try (destruct (FunctionReference_ok name st)
              as (r & st' & Hrun & Hd & Hcase);
            exists 1, r, st'; split; [exact Hrun|];
            destruct Hcase as [(_ & Hr & e & He)|(b & fn & -> & -> & _)];
            [ split; [now apply scalar_runtime_value|]; split; [exact Hd|];
              exists [e]; split; [exact He | discriminate]
            | split; [exact I|]; split; [reflexivity|];
              exists []; split; [apply appended_refl | intros _ _; exact I] ]).
  all: try (simpl in Hdepth; lia).
  all: try (apply resolves_Sel; [|exact Hvars | exact Hsize];
            intros e ->; simpl in Hdepth;
            first [ lia
                  | apply IHd; [lia | now apply Hexp | exact Hsize] ]).
  apply resolves_Type_body. simpl. apply CallExpression_terminates;
    [exact Hcall|].
  intros arg st1 Hin Hd1. rewrite List.Forall_forall in Hl.
  destruct (Hl arg Hin) as [Hname Harg]. split; [exact Hname|].
  apply IHd.
  - pose proof (depth_call_target callee l arg Hin). lia.
  - exact Harg.
  - now rewrite Hd1.
Qed.
End Termination.

Lemma resolves_conforms `{Host} env C U Q :
  well_behaved env C U -> (Q -> quiet env C) ->
  forall n e st,
    conforms C U e -> size (U ∖ dirty st) <= n -> resolves Q env e st.
Proof.
  intros WB HQ n. induction n as [n IH] using lt_wf_ind.
  intros e st Hc Hsize.
  apply (resolves_depth env C U WB Q HQ n) with (d := depth e); auto.
  intros e' st' Hc' Hlt.
  now apply (IH (size (U ∖ dirty st')) Hlt).
Qed.

(** ** Cyclic references *)

(** C3. A pattern that is already in the dirty set is not entered:
    [Pattern] appends the range error "Cyclic reference" and returns a
    [FluentNone], leaving the dirty set alone. Consequently the cyclic pair
    [foo = { bar }], [bar = { foo }] formats, with any fuel from 6 on, to
    "???" with exactly that one error. *)
Theorem Pattern_cyclic_reference (h : Host) (rec : Env -> node -> M node)
    (env : Env) (id : ident) (elems : list node) (st : state)
    (Hdirty : id ∈ dirty st) :
  Pattern (H := h) rec env id elems st =
    (Ok (Val (FluentNone None)),
     mkState (errors st ++ [Examples.cyclic_error]) (dirty st) (next st))
  /\ (forall fuel, 6 <= fuel ->
      format (H := Sample.host) fuel Examples.cyclic_pair
        Examples.foo_cyclic None [] =
        (Ok (Some (js "???")), [Examples.cyclic_error])).
Proof.
  split.
  - unfold Pattern, bind, dirty_has. simpl.
    rewrite bool_decide_eq_true_2 by assumption. reflexivity.
  - intros fuel Hfuel. apply (format_fuel 6); [exact Hfuel|].
    vm_compute. reflexivity.
Qed.

Lemma Pattern_cyclic_reference_witness :
  Pattern (H := Sample.host) (Type_ 0) (mkEnv Examples.cyclic_pair None)
    (Parsed 0) [Ref (js "bar")] (mkState [] {[ Parsed 0 ]} 0) =
    (Ok (Val (FluentNone None)),
     mkState ([] ++ [Examples.cyclic_error]) {[ Parsed 0 ]} 0)
  /\ (forall fuel, 6 <= fuel ->
      format (H := Sample.host) fuel Examples.cyclic_pair
        Examples.foo_cyclic None [] =
        (Ok (Some (js "???")), [Examples.cyclic_error])).
Proof.
  refine (Pattern_cyclic_reference Sample.host (Type_ 0)
           (mkEnv Examples.cyclic_pair None) (Parsed 0) [Ref (js "bar")]
           (mkState [] {[ Parsed 0 ]} 0) _).
  vm_compute. reflexivity.
Defined.

(** ** Determinism *)

(** C9. Formatting is deterministic and does not depend on what the
    error list holds at the start: for given context, arguments and entry
    there are one result and one list of errors [de] such that every call
    returns that result and appends exactly [de]; so a second call with
    the same inputs returns the same string and appends the same errors
    again. *)
Theorem format_deterministic `{Host} (fuel : nat) (c : MessageContext)
    (a : option (gmap jsstring jsarg)) (entry : node) :
  (exists r de, forall errs,
      resolve fuel c a entry errs = (r, errs ++ de)) /\
  (exists out de, forall errs,
      format fuel c entry a errs = (out, errs ++ de) /\
      format fuel c entry a (errs ++ de) = (out, (errs ++ de) ++ de)).
Proof.
  destruct (err_framed_Type_ fuel (mkEnv c a) entry ∅ 0)
    as (r & de & d' & n' & Hrun).
  assert (Hres : forall errs, resolve fuel c a entry errs = (r, errs ++ de)).
  { intros errs. unfold resolve. now rewrite Hrun. }
  split; [now exists r, de|].
  assert (Hfmt : exists out de', forall errs,
             format fuel c entry a errs = (out, errs ++ de')).
  { unfold format.
    destruct entry as [| | | | | | | | | | | | | | |[val|] attrs|];
      try (destruct r as [[]| |]; eexists _, de; intros errs;
           rewrite Hres; reflexivity).
    exists (Ok None), []. intros errs. now rewrite app_nil_r. }
  destruct Hfmt as (out & de' & Hfmt).
  exists out, de'. intros errs. split; apply Hfmt.
Qed.

(** ** The dirty set *)

(** C10. [Pattern] restores the dirty set: when it returns, the dirty set
    is the one it was called with, whatever errors were recorded on the
    way. So a pattern whose elements were walked (it was not dirty at the
    call, and the call returned a list of parts) is not dirty afterwards,
    and a resolution started with an empty dirty set ends with an empty
    one: only patterns that are being resolved are dirty. Two references
    to the same message in one pattern therefore resolve without a
    cyclic-reference error. *)
Theorem Pattern_restores_dirty `{Host} (fuel : nat) (env : Env) (id : ident)
    (elems : list node) (st st' : state) (r : node)
    (Hrun : Pattern (Type_ fuel) env id elems st = (Ok r, st')) :
  dirty st' = dirty st /\
  (id ∉ dirty st -> id ∉ dirty st') /\
  (forall fresh res, r = Arr fresh res -> id ∉ dirty st') /\
  (forall expr st0 r0 st1,
      Type_ fuel env expr st0 = (Ok r0, st1) ->
      dirty st0 = ∅ -> dirty st1 = ∅) /\
  (forall fuel', 6 <= fuel' ->
     format (H := Sample.host) fuel' Examples.siblings
       Examples.baz_siblings None [] = (Ok (Some (js "Foo Foo")), [])).
Proof.
  assert (Hkeep : dirty st' = dirty st).
  { eapply keeps_dirty_Pattern; [|exact Hrun].
    intros env' e. apply keeps_dirty_Type_. }
  split; [exact Hkeep | split; [now rewrite Hkeep | split; [|split]]].
  - intros fresh res ->. rewrite Hkeep. revert Hrun.
    unfold Pattern, bind, dirty_has. simpl.
    case_bool_decide as Hin; [|intros _; exact Hin].
    unfold push_error, ret. discriminate.
  - intros expr st0 r0 st1 Hty Hempty.
    rewrite <- Hempty. eapply keeps_dirty_Type_, Hty.
  - intros fuel' Hfuel. apply (format_fuel 6); [exact Hfuel|].
    vm_compute. reflexivity.
Qed.

Lemma Pattern_restores_dirty_witness :
  dirty (mkState [] ∅ 3) = dirty (mkState [] ∅ 0) /\
  (Parsed 1 ∉ dirty (mkState [] ∅ 0) -> Parsed 1 ∉ dirty (mkState [] ∅ 3)) /\
  (forall fresh res,
      Arr (Allocated 0) [Str (js "Foo"); Str (js " "); Str (js "Foo")] =
        Arr fresh res ->
      Parsed 1 ∉ dirty (mkState [] ∅ 3)) /\
  (forall expr st0 r0 st1,
      Type_ (H := Sample.host) 5 Examples.siblings_env expr st0 =
        (Ok r0, st1) ->
      dirty st0 = ∅ -> dirty st1 = ∅) /\
  (forall fuel', 6 <= fuel' ->
     format (H := Sample.host) fuel' Examples.siblings
       Examples.baz_siblings None [] = (Ok (Some (js "Foo Foo")), [])).
Proof.
  refine (Pattern_restores_dirty (H := Sample.host) 5
            Examples.siblings_env (Parsed 1)
            [Ref (js "foo"); Str (js " "); Ref (js "foo")]
            (mkState [] ∅ 0) (mkState [] ∅ 3)
            (Arr (Allocated 0)
               [Str (js "Foo"); Str (js " "); Str (js "Foo")]) _).
  vm_compute. reflexivity.
Defined.

(** ** Select expressions *)

(** The loop of [SelectExpression] finds nothing exactly when no key
    matches. *)
Lemma SelectExpression_loop_none rec env selector vars st st' :
  SelectExpression_loop rec env selector vars st = (Ok None, st') <->
  no_key_matches rec env selector vars st st'.
Proof.
  revert st. induction vars as [|[k v] rest IH]; intros st; simpl.
  - unfold ret. split.
    + intros [= <-]. constructor.
    + inversion 1. reflexivity.
  - unfold bind. split.
    + destruct (rec env k st) as [[key| |] st1] eqn:Ek; try discriminate.
      destruct (keyCanMatch key) eqn:Ecan.
      * unfold lift.
        destruct (method_match (ctx env) key selector) as [[|]| |] eqn:Em;
          try discriminate.
        intros Hrest. apply IH in Hrest.
        econstructor; eauto.
      * unfold ret. intros Hrest. apply IH in Hrest.
        econstructor; eauto.
    + inversion 1 as [|k' v' rest' st0 key st1 st2 Hk Hno Hrest]; subst.
      rewrite Hk. apply IH in Hrest.
      destruct (keyCanMatch key) eqn:Ecan.
      * destruct Hno as [Hno|Hno]; [discriminate|].
        unfold lift. rewrite Hno. exact Hrest.
      * exact Hrest.
Qed.

(** C6. Default fallthrough. In a select expression whose [def] names a
    variant, that variant is chosen when the selector resolves to a
    [FluentNone] and when no key matches the selector. In the first case
    the state, hence the error list, is the one the resolution of the
    selector left; in the second it is the one the keys left. *)
Theorem SelectExpression_default (rec : Env -> node -> M node)
    (env : Env) (e : node) (vars : list (node * node)) (d : nat)
    (k v selector : node) (st st1 : state)
    (Hdef : vars !! d = Some (k, v))
    (Hsel : rec env e st = (Ok selector, st1)) :
  (is_FluentNone selector = true ->
   SelectExpression rec env (Some e) vars (Some d) st =
     (Ok (Variant k v), st1)) /\
  (forall st2,
     is_FluentNone selector = false ->
     no_key_matches rec env selector vars st1 st2 ->
     SelectExpression rec env (Some e) vars (Some d) st =
       (Ok (Variant k v), st2)).
Proof.
  assert (Hmember : forall s,
             DefaultMember env vars (Some d) s = (Ok (Variant k v), s)).
  { intros s. unfold DefaultMember. simpl. rewrite Hdef. reflexivity. }
  split.
  - intros Hnone. unfold SelectExpression, bind.
    rewrite Hsel, Hnone. apply Hmember.
  - intros st2 Hsome Hno. unfold SelectExpression, bind.
    rewrite Hsel, Hsome.
    apply SelectExpression_loop_none in Hno. rewrite Hno. apply Hmember.
Qed.

Lemma SelectExpression_default_witness :
  (is_FluentNone (Val (FluentNone (Some (js "bar")))) = true ->
   SelectExpression (Type_ (H := Sample.host) 3) Examples.plain_env
     (Some (Ref (js "bar"))) Examples.select_vars (Some 0)
     (mkState [] ∅ 0) =
     (Ok (Variant (Kw (js "a")) (Str (js "A"))), Examples.unknown_bar)) /\
  (forall st2,
     is_FluentNone (Val (FluentNone (Some (js "bar")))) = false ->
     no_key_matches (Type_ (H := Sample.host) 3) Examples.plain_env
       (Val (FluentNone (Some (js "bar")))) Examples.select_vars
       Examples.unknown_bar st2 ->
     SelectExpression (Type_ (H := Sample.host) 3) Examples.plain_env
       (Some (Ref (js "bar"))) Examples.select_vars (Some 0)
       (mkState [] ∅ 0) =
       (Ok (Variant (Kw (js "a")) (Str (js "A"))), st2)).
Proof.
  refine (SelectExpression_default (Type_ (H := Sample.host) 3)
            Examples.plain_env (Ref (js "bar")) Examples.select_vars 0
            (Kw (js "a")) (Str (js "A"))
            (Val (FluentNone (Some (js "bar")))) (mkState [] ∅ 0)
            Examples.unknown_bar _ _).
  - reflexivity.
  - vm_compute. reflexivity.
Defined.

(** ** Isolation *)

(** What [Pattern_part] appends to the result: the part itself, the parts
    of a list of parts, or the [FluentNone] that replaces them. *)
Lemma Pattern_part_result `{Host} env part result st res st' :
  Pattern_part env part result st = (Ok res, st') ->
  exists body,
    res = if useIsolating (ctx env)
          then result ++ Str FSI :: body ++ [Str PDI]
          else result ++ body.
Proof.
  unfold Pattern_part, bind, ret, lift.
  assert (Hshape : forall body,
    (if useIsolating (ctx env)
     then ((if useIsolating (ctx env) then result ++ [Str FSI] else result)
           ++ body) ++ [Str PDI]
     else (if useIsolating (ctx env) then result ++ [Str FSI] else result)
          ++ body) =
    (if useIsolating (ctx env)
     then result ++ Str FSI :: body ++ [Str PDI]
     else result ++ body)).
  { intros body. destruct (useIsolating (ctx env)); [|reflexivity].
    rewrite <- !app_assoc. reflexivity. }
  destruct part as [s|id parts| | | | | | | | | | | | | | |];
    try (intros [= <- _]; eexists; apply Hshape).
  destruct (PlaceableLength env parts) as [len| |]; try discriminate.
  destruct (too_long len); intros [= <- _]; eexists; apply Hshape.
Qed.

(** An element that is not a literal fragment is resolved and handed to
    [Pattern_part]. *)
Lemma Pattern_loop_placeable `{Host} rec env elem rest result :
  (forall s, elem <> Str s) ->
  Pattern_loop rec env (elem :: rest) result =
    bind (rec env elem)
      (fun part => bind (Pattern_part env part result)
                     (fun result' => Pattern_loop rec env rest result')).
Proof. intros Hexpr. destruct elem; try reflexivity. now destruct (Hexpr s). Qed.

(** A pattern of literal fragments is copied. *)
Lemma Pattern_loop_literals `{Host} rec env frags result st :
  Pattern_loop rec env (map Str frags) result st =
    (Ok (result ++ map Str frags), st).
Proof.
  revert result. induction frags as [|s rest IH]; intros result; simpl.
  - unfold ret. now rewrite app_nil_r.
  - rewrite IH. now rewrite <- app_assoc.
Qed.

Lemma join_parts_literals `{Host} c frags :
  join_parts c (map Str frags) = Ok (concat frags).
Proof.
  induction frags as [|s rest IH]; simpl; [reflexivity|].
  now rewrite IH.
Qed.

(** The pattern of a run of [Pattern] that was not stopped by the cycle
    guard. *)
Lemma Pattern_entered `{Host} rec env id elems st fresh res st' :
  Pattern rec env id elems st = (Ok (Arr fresh res), st') ->
  exists st1,
    Pattern_loop rec env elems []
      (mkState (errors st) (dirty st ∪ {[ id ]}) (S (next st))) =
      (Ok res, st1).
Proof.
  unfold Pattern, bind, dirty_has, dirty_add, dirty_delete, alloc, ret.
  simpl. case_bool_decide; [discriminate|].
  destruct (Pattern_loop rec env elems [] _) as [[result| |] st1];
    try discriminate.
  intros [= _ <- _]. eauto.
Qed.

Lemma Pattern_literals `{Host} rec env id frags st :
  id ∉ dirty st ->
  Pattern rec env id (map Str frags) st =
    (Ok (Arr (Allocated (next st)) (map Str frags)),
     mkState (errors st) (dirty st) (S (next st))).
Proof.
  intros Hclean.
  unfold Pattern, bind, dirty_has, dirty_add, dirty_delete, alloc, ret.
  simpl. rewrite bool_decide_eq_false_2 by exact Hclean.
  rewrite Pattern_loop_literals. simpl.
  replace ((dirty st ∪ {[id]}) ∖ {[id]}) with (dirty st) by set_solver.
  reflexivity.
Qed.

Lemma join_parts_app `{Host} c a b s t :
  join_parts c a = Ok s -> join_parts c b = Ok t ->
  join_parts c (a ++ b) = Ok (s ++ t).
Proof.
  revert s. induction a as [|part rest IH]; intros s; simpl.
  - intros [= <-] Hb. exact Hb.
  - destruct (valueOf_text c part) as [u| |]; try discriminate.
    destruct (join_parts c rest) as [v| |]; try discriminate.
    intros [= <-] Hb. rewrite (IH v eq_refl Hb). now rewrite app_assoc.
Qed.

Lemma join_parts_concat `{Host} c chunks texts :
  Forall2 (fun chunk text => join_parts c chunk = Ok text) chunks texts ->
  join_parts c (concat chunks) = Ok (concat texts).
Proof.
  induction 1 as [|chunk text chunks texts Hchunk _ IH]; [reflexivity|].
  rewrite !concat_cons. now apply join_parts_app.
Qed.

(** What [Pattern_part] does, by what the part contributes. *)
Lemma Pattern_part_placed `{Host} env part result st res st' :
  Pattern_part env part result st = (Ok res, st') <->
  exists body, placed env part st body st' /\ res = pushed env result body.
Proof.
  assert (Hshape : forall body,
    (if useIsolating (ctx env)
     then ((if useIsolating (ctx env) then result ++ [Str FSI] else result)
           ++ body) ++ [Str PDI]
     else (if useIsolating (ctx env) then result ++ [Str FSI] else result)
          ++ body) = pushed env result body).
  { intros body. unfold pushed. now destruct (useIsolating (ctx env)). }
  unfold Pattern_part, bind, ret, lift, push_error. split.
  - destruct part as [s|id parts| | | | | | | | | | | | | | |];
      try (intros [= <- <-]; eexists; split;
           [apply placed_value; discriminate | now rewrite Hshape]).
    destruct (PlaceableLength env parts) as [len| |] eqn:Elen;
      try discriminate.
    destruct (too_long len) eqn:Elong; intros [= <- <-]; eexists;
      (split; [|now rewrite Hshape]).
    + now apply placed_none.
    + now apply placed_parts with (len := len).
  - intros (body & Hplaced & ->).
    destruct Hplaced as [part st Hpart|i parts len st Hlen Hshort
                        |i parts len st Hlen Hlong].
    + destruct part as [s|id parts| | | | | | | | | | | | | | |];
        try (now rewrite Hshape).
      now destruct (Hpart id parts).
    + rewrite Hlen, Hshort. now rewrite Hshape.
    + rewrite Hlen, Hlong. now rewrite Hshape.
Qed.

(** The loop of [Pattern] in a context that isolates. *)
Lemma Pattern_loop_isolates `{Host} rec env elems :
  useIsolating (ctx env) = true ->
  forall result st res st',
    Pattern_loop rec env elems result st = (Ok res, st') <->
    exists chunks,
      isolates rec env elems st chunks st' /\ res = result ++ concat chunks.
Proof.
  intros Hiso.
  induction elems as [|elem rest IH]; intros result st res st'.
  - simpl. unfold ret. split.
    + intros [= <- <-]. exists []. split; [constructor|].
      simpl. now rewrite app_nil_r.
    + intros (chunks & Hwalk & ->). inversion Hwalk; subst.
      simpl. now rewrite app_nil_r.
  - assert (Hcase : (exists s, elem = Str s) \/ forall s, elem <> Str s).
    { destruct elem; eauto; right; discriminate. }
    destruct Hcase as [[s ->]|Hexpr].
    + simpl. rewrite IH. split.
      * intros (chunks & Hwalk & ->). exists ([Str s] :: chunks).
        split; [now constructor|]. simpl. now rewrite <- app_assoc.
      * intros (chunks & Hwalk & ->).
        inversion Hwalk as [|? ? ? chunks' ? Hrest
                           |? ? ? ? ? ? ? ? ? Hno]; subst.
        -- exists chunks'. split; [exact Hrest|].
           simpl. now rewrite <- app_assoc.
        -- now destruct (Hno s).
    + rewrite Pattern_loop_placeable by exact Hexpr. unfold bind at 1 2.
      split.
      * destruct (rec env elem st) as [[part| |] st1] eqn:Erec;
          try discriminate.
        destruct (Pattern_part env part result st1) as [[result'| |] st2]
          eqn:Epart; try discriminate.
        intros Hrest. apply IH in Hrest as (chunks & Hwalk & ->).
        apply Pattern_part_placed in Epart as (body & Hplaced & ->).
        exists ((Str FSI :: body ++ [Str PDI]) :: chunks). split.
        -- now apply isolates_placeable with (part := part) (st1 := st1)
             (st2 := st2).
        -- unfold pushed. rewrite Hiso. rewrite concat_cons. simpl.
           rewrite <- !app_assoc. reflexivity.
      * intros (chunks & Hwalk & ->).
        inversion Hwalk as [|? ? ? ? ? ?
                           |? ? ? part st1 body st2 chunks' ? _ Hrec
                              Hplaced Hrest]; subst.
        { now destruct (Hexpr s). }
        rewrite Hrec.
        assert (Hpart : Pattern_part env part result st1 =
                          (Ok (pushed env result body), st2)).
        { apply Pattern_part_placed. now exists body. }
        rewrite Hpart. apply IH. exists chunks'. split; [exact Hrest|].
        unfold pushed. rewrite Hiso. rewrite concat_cons. simpl.
        rewrite <- !app_assoc. reflexivity.
Qed.

(** C7, as amended. In a context that isolates, [Pattern] returns a
    list of parts exactly when the pattern is not dirty and its elements
    can be walked in order, and the list is then what the elements put
    on it one after the other: a literal fragment puts itself; a
    placeable puts U+2068, then the value its expression resolved to (the
    parts of a list of parts spliced in, or the [FluentNone] that takes
    their place when they are too long), then U+2069. Joined, the parts
    give the texts of the elements one after the other, and the text of
    a placeable is U+2068, the text of its value and U+2069. A pattern
    of literal fragments only resolves to those fragments unchanged and
    formats to their concatenation: no isolation character is added, and
    one appears in the output only where a fragment contains it. *)
Theorem Pattern_isolation `{Host} (rec : Env -> node -> M node) (env : Env)
    (Hiso : useIsolating (ctx env) = true) :
  (forall id elems st fresh res st',
      Pattern rec env id elems st = (Ok (Arr fresh res), st') <->
      id ∉ dirty st /\ fresh = Allocated (next st) /\
      exists chunks st1,
        isolates rec env elems
          (mkState (errors st) (dirty st ∪ {[ id ]}) (S (next st)))
          chunks st1 /\
        res = concat chunks /\
        st' = mkState (errors st1) (dirty st1 ∖ {[ id ]}) (next st1)) /\
  (forall chunks texts,
      Forall2 (fun chunk text => join_parts (ctx env) chunk = Ok text)
        chunks texts ->
      join_parts (ctx env) (concat chunks) = Ok (concat texts)) /\
  (forall body text,
      join_parts (ctx env) body = Ok text ->
      join_parts (ctx env) (Str FSI :: body ++ [Str PDI]) =
        Ok (FSI ++ text ++ PDI)) /\
  (forall id frags st,
      id ∉ dirty st ->
      Pattern rec env id (map Str frags) st =
        (Ok (Arr (Allocated (next st)) (map Str frags)),
         mkState (errors st) (dirty st) (S (next st))) /\
      join_parts (ctx env) (map Str frags) = Ok (concat frags) /\
      forall ch, In ch (concat frags) ->
                 exists frag, In frag frags /\ In ch frag).
Proof.
  split; [|split; [|split]].
  - intros id elems st fresh res st'.
    unfold Pattern, bind, dirty_has, dirty_add, dirty_delete, alloc, ret.
    simpl. split.
    + case_bool_decide as Hin; [discriminate|].
      destruct (Pattern_loop rec env elems [] _) as [[result| |] st1] eqn:E;
        try discriminate.
      intros [= <- <- <-]. split; [exact Hin|]. split; [reflexivity|].
      apply (Pattern_loop_isolates rec env elems Hiso) in E
        as (chunks & Hwalk & ->).
      now exists chunks, st1.
    + intros (Hout & -> & chunks & st1 & Hwalk & -> & ->).
      rewrite bool_decide_eq_false_2 by exact Hout.
      assert (E : Pattern_loop rec env elems []
                    (mkState (errors st) (dirty st ∪ {[ id ]})
                       (S (next st))) = (Ok (concat chunks), st1)).
      { apply (Pattern_loop_isolates rec env elems Hiso). now exists chunks. }
      now rewrite E.
  - intros chunks texts. apply join_parts_concat.
  - intros body text Hbody.
    apply (join_parts_app (ctx env) [Str FSI] (body ++ [Str PDI]) FSI
             (text ++ PDI)); [reflexivity|].
    apply join_parts_app; [exact Hbody | reflexivity].
  - intros id frags st Hclean. repeat split.
    + now apply Pattern_literals.
    + apply join_parts_literals.
    + intros ch Hin. apply in_concat in Hin as (frag & Hfrag & Hch).
      eauto.
Qed.

Lemma Pattern_isolation_witness :
  Pattern (H := Sample.host) (Type_ 2) Examples.hello_env (Parsed 0)
    Examples.hello (mkState [] ∅ 0) =
    (Ok (Arr (Allocated 0)
           [ Str (js "Hello, "); Str FSI; Str (js "Ann"); Str PDI;
             Str (js " from "); Str FSI; Str (js "Firefox"); Str PDI ]),
     mkState [] ∅ 2) /\
  join_parts (H := Sample.host) (ctx Examples.hello_env)
    (Str FSI :: [Str (js "Ann")] ++ [Str PDI]) =
    Ok (FSI ++ js "Ann" ++ PDI) /\
  Pattern (H := Sample.host) (Type_ 2) Examples.hello_env (Parsed 1)
    (map Str [js "Firefox"]) (mkState [] ∅ 0) =
    (Ok (Arr (Allocated 0) (map Str [js "Firefox"])), mkState [] ∅ 1) /\
  join_parts (H := Sample.host) (ctx Examples.hello_env)
    (map Str [js "Firefox"]) = Ok (concat [js "Firefox"]) /\
  format (H := Sample.host) 3 (ctx Examples.hello_env)
    (Arr (Parsed 0) Examples.hello) (args Examples.hello_env) [] =
    (Ok (Some (js "Hello, " ++ FSI ++ js "Ann" ++ PDI ++ js " from " ++
               FSI ++ js "Firefox" ++ PDI)), []).
Proof.
  refine
    (match Pattern_isolation (H := Sample.host) (Type_ 2)
             Examples.hello_env eq_refl with
     | conj Hplaceables (conj _ (conj Hjoined Hliterals)) =>
         conj (proj2 (Hplaceables (Parsed 0) Examples.hello
                        (mkState [] ∅ 0) (Allocated 0) _ _) _)
           (conj (Hjoined [Str (js "Ann")] (js "Ann") eq_refl)
              (match Hliterals (Parsed 1) [js "Firefox"]
                       (mkState [] ∅ 0) _ with
               | conj Hrun (conj Hjoin _) => conj Hrun (conj Hjoin _)
               end))
     end).
  - split; [vm_compute; discriminate|]. split; [reflexivity|].
    exists [ [Str (js "Hello, ")]; Str FSI :: [Str (js "Ann")] ++ [Str PDI];
             [Str (js " from ")];
             Str FSI :: [Str (js "Firefox")] ++ [Str PDI] ].
    exists (mkState [] {[ Parsed 0 ]} 2).
    split; [|split; vm_compute; reflexivity].
    apply isolates_literal.
    eapply isolates_placeable;
      [discriminate | vm_compute; reflexivity
      | apply placed_value; discriminate |].
    apply isolates_literal.
    eapply isolates_placeable;
      [discriminate | vm_compute; reflexivity
      | eapply placed_parts; vm_compute; reflexivity |].
    apply isolates_nil.
  - vm_compute. discriminate.
  - vm_compute. reflexivity.
Defined.

(** C7, the claim as stated fails: with [useIsolating] set, the message
    whose pattern is the single literal fragment U+2068 "abc" formats to
    a string that contains U+2068. *)
Lemma literal_fragment_keeps_FSI :
  format (H := Sample.host) 3 (Sample.context true []) Examples.foo_literal
    None [] = (Ok (Some (FSI ++ js "abc")), []) /\
  In 0x2068%N (FSI ++ js "abc").
Proof. split; [vm_compute; reflexivity | left; reflexivity]. Qed.

(** ** The length of a placeable *)

(** For parts that are strings or Fluent types, the length computed by
    [PlaceableLength] is the length of the text the parts join to. *)
Lemma reduce_length_text `{Host} c parts a len :
  Forall is_text_part parts ->
  reduce_length c (Some a) parts = Ok len ->
  exists s, join_parts c parts = Ok s /\ len = Some (a + length s).
Proof.
  intros Hparts. revert a.
  induction Hparts as [|part rest Hpart _ IH]; intros a; simpl.
  - intros [= <-]. exists []. simpl. now rewrite Nat.add_0_r.
  - destruct part as [s| |v| | | | | | | | | | | | | |]; try contradiction;
      simpl.
    + intros Hrest. destruct (IH _ Hrest) as (t & -> & ->).
      exists (s ++ t). split; [reflexivity|].
      rewrite length_app. f_equal. lia.
    + destruct (valueOf c v) as [s| |]; try discriminate.
      simpl. intros Hrest. destruct (IH _ Hrest) as (t & -> & ->).
      exists (s ++ t). split; [reflexivity|].
      rewrite length_app. f_equal. lia.
Qed.

(** C1, as amended. The bound applies to a placeable that resolves to a
    list of parts. With [len] its length as [PlaceableLength] computes
    it: above 2500, a range error is appended and a single [FluentNone],
    whose [valueOf] is "???", takes the place of the parts; otherwise the
    parts are spliced in, and when they are strings and Fluent types the
    text they join to has [len], at most 2500, characters. A placeable
    that resolves to any other value is pushed as it is, whatever its
    length. *)
Theorem Pattern_part_length_bound `{Host} (env : Env) (id : ident)
    (parts result : list node) (st : state) (len : option nat)
    (Hlen : PlaceableLength env parts = Ok len) :
  (too_long len = true ->
   Pattern_part env (Arr id parts) result st =
     (Ok (pushed env result [Val (FluentNone None)]),
      mkState
        (errors st ++
         [mkError RangeError
            (js "Too many characters in placeable (" ++ length_text len ++
             js ", max allowed is 2500)")])
        (dirty st) (next st)) /\
   valueOf (ctx env) (FluentNone None) = Ok (js "???")) /\
  (too_long len = false ->
   Pattern_part env (Arr id parts) result st =
     (Ok (pushed env result parts), st) /\
   (Forall is_text_part parts ->
    exists s, join_parts (ctx env) parts = Ok s /\
              len = Some (length s) /\ length s <= 2500)) /\
  (forall part,
      (forall i l, part <> Arr i l) ->
      Pattern_part env part result st = (Ok (pushed env result [part]), st)).
Proof.
  unfold pushed. split; [|split].
  - intros Hlong. split; [|reflexivity].
    unfold Pattern_part, bind, lift, ret, push_error. rewrite Hlen, Hlong.
    destruct (useIsolating (ctx env)); reflexivity.
  - intros Hshort. split.
    + unfold Pattern_part, bind, lift, ret. rewrite Hlen, Hshort.
      destruct (useIsolating (ctx env)); reflexivity.
    + intros Htext. unfold PlaceableLength in Hlen.
      destruct (reduce_length_text _ _ _ _ Htext Hlen) as (s & Hjoin & ->).
      exists s. split; [exact Hjoin | split; [reflexivity|]].
      unfold too_long, MAX_PLACEABLE_LENGTH in Hshort.
      now apply Nat.ltb_ge in Hshort.
  - intros part Hpart. unfold Pattern_part, bind, ret.
    destruct part as [|i l| | | | | | | | | | | | | | |];
      try (destruct (useIsolating (ctx env)); reflexivity).
    now destruct (Hpart i l).
Qed.

Lemma Pattern_part_length_bound_witness :
  (too_long (Some 3) = true ->
   Pattern_part (H := Sample.host) Examples.plain_env
     (Arr (Allocated 0) [Str (js "Foo")]) [Str (js "a")] (mkState [] ∅ 0) =
     (Ok (pushed Examples.plain_env [Str (js "a")] [Val (FluentNone None)]),
      mkState
        (errors (mkState [] ∅ 0) ++
         [mkError RangeError
            (js "Too many characters in placeable (" ++
             length_text (Some 3) ++ js ", max allowed is 2500)")])
        (dirty (mkState [] ∅ 0)) (next (mkState [] ∅ 0))) /\
   valueOf (ctx Examples.plain_env) (FluentNone None) = Ok (js "???")) /\
  (too_long (Some 3) = false ->
   Pattern_part (H := Sample.host) Examples.plain_env
     (Arr (Allocated 0) [Str (js "Foo")]) [Str (js "a")] (mkState [] ∅ 0) =
     (Ok (pushed Examples.plain_env [Str (js "a")] [Str (js "Foo")]),
      mkState [] ∅ 0) /\
   (Forall is_text_part [Str (js "Foo")] ->
    exists s,
      join_parts (H := Sample.host) (ctx Examples.plain_env)
        [Str (js "Foo")] = Ok s /\
      Some 3 = Some (length s) /\ length s <= 2500)) /\
  (forall part,
      (forall i l, part <> Arr i l) ->
      Pattern_part (H := Sample.host) Examples.plain_env part
        [Str (js "a")] (mkState [] ∅ 0) =
        (Ok (pushed Examples.plain_env [Str (js "a")] [part]),
         mkState [] ∅ 0)).
Proof.
  refine (Pattern_part_length_bound (H := Sample.host) Examples.plain_env
            (Allocated 0) [Str (js "Foo")] [Str (js "a")] (mkState [] ∅ 0)
            (Some 3) _).
  reflexivity.
Defined.

(** C1, the claim as stated fails: the placeable [{ $x }], given a string
    of 2501 characters, contributes all of them, and no error is
    recorded. *)
Lemma long_argument_unbounded :
  resolve (H := Sample.host) 3 (Sample.context false [])
    (Some Examples.long_args) Examples.foo_external [] =
    (Ok (Arr (Allocated 0) [Str Examples.long_text]), []) /\
  format (H := Sample.host) 3 (Sample.context false [])
    Examples.foo_external (Some Examples.long_args) [] =
    (Ok (Some Examples.long_text), []) /\
  length Examples.long_text = 2501.
Proof. repeat split; vm_compute; reflexivity. Qed.

(** ** Numbers and keywords *)

(** C4, as amended. Against a selector that is a number, a keyword key
    matches exactly when the keyword is the plural category that the
    plural rules of the context select for the number and its options;
    the loop of a select expression takes such a variant when it reaches
    it and goes on otherwise. A number key matches when its parsed value
    equals the number: that is where an exact match comes from. *)
Theorem keyword_key_matches_category `{Host} :
  (forall c k x opts,
      FluentKeyword_match c k (Val (TNumber x opts)) =
        bool_decide (k = PluralRules c opts x)) /\
  (forall fuel env k v rest x opts st,
      SelectExpression_loop (Type_ (S fuel)) env (Val (TNumber x opts))
        ((Kw k, v) :: rest) st =
        if bool_decide (k = PluralRules (ctx env) opts x)
        then (Ok (Some (Variant (Kw k) v)), st)
        else SelectExpression_loop (Type_ (S fuel)) env
               (Val (TNumber x opts)) rest st) /\
  (forall fuel env n v rest x opts st,
      SelectExpression_loop (Type_ (S fuel)) env (Val (TNumber x opts))
        ((Num n, v) :: rest) st =
        if PrimFloat.eqb (parseFloat (inl n)) x
        then (Ok (Some (Variant (Num n) v)), st)
        else SelectExpression_loop (Type_ (S fuel)) env
               (Val (TNumber x opts)) rest st).
Proof.
  split; [reflexivity | split].
  - intros. simpl. unfold bind, ret, lift. simpl.
    destruct (bool_decide _); reflexivity.
  - intros. simpl. unfold bind, ret, lift. simpl.
    destruct (PrimFloat.eqb _ _); reflexivity.
Qed.

(** C4, the claim as stated fails: the keyword [1] is the text of the
    number 1 and does not match it, since the category of 1 is [one]; so
    [{ 1 -> [1] A *[other] B }] with the key a keyword formats to "B". *)
Lemma keyword_text_of_number_no_match :
  FluentKeyword_match (Sample.context false []) (js "1")
    (Val (FluentNumber (H := Sample.host) (inl (js "1")) None)) = false /\
  format (H := Sample.host) 4 (Sample.context false [])
    Examples.foo_keyword_one None [] = (Ok (Some (js "B")), []).
Proof. split; vm_compute; reflexivity. Qed.

(** C5, as amended. A [FluentNumber] stores the double that [parseFloat]
    reads from its argument, next to the options as they were given; a
    number literal resolves to such a value with no options and without
    touching the state. *)
Theorem FluentNumber_stores_parsed `{Host} :
  (forall v opts, FluentNumber v opts = TNumber (parseFloat v) opts) /\
  (forall fuel env val st,
      Type_ (S fuel) env (Num val) st =
        (Ok (Val (TNumber (parseFloat (inl val)) None)), st)).
Proof. split; reflexivity. Qed.

(** C5, the claim as stated fails: the literals [1.0] and [1] are
    different texts and construct the same value, the double 1, so the
    text is not what is stored. *)
Lemma FluentNumber_forgets_text :
  js "1.0" <> js "1" /\
  FluentNumber (H := Sample.host) (inl (js "1.0")) None = TNumber 1 None /\
  FluentNumber (H := Sample.host) (inl (js "1")) None = TNumber 1 None.
Proof. split; [discriminate | split; vm_compute; reflexivity]. Qed.

(** ** Exceptions and termination *)

Lemma tabs_well_behaved :
  well_behaved (H := Sample.host)
    (mkEnv Examples.tabs_context (Some Examples.tabs_args))
    Examples.calls_NUMBER Examples.tabs_patterns.
Proof.
  assert (Hbrand : conforms Examples.calls_NUMBER Examples.tabs_patterns
                     (Arr (Parsed 0) [Str (js "Firefox")])).
  { constructor; [now vm_compute | discriminate | repeat constructor]. }
  assert (Htabs : conforms Examples.calls_NUMBER Examples.tabs_patterns
                    Examples.tabs).
  { constructor; [now vm_compute | discriminate |].
    constructor; [|repeat constructor].
    constructor; [split; [reflexivity | discriminate]|].
    constructor; [split; [exact I | constructor]|].
    constructor; [|constructor].
    split; [split; discriminate | constructor]. }
  assert (Hsummary : conforms Examples.calls_NUMBER Examples.tabs_patterns
                       Examples.summary).
  { constructor; [now vm_compute | discriminate |].
    constructor; [|constructor].
    constructor; [intros e [= <-]; constructor|].
    constructor; [|constructor; [|constructor]].
    - split; [exact I|]. split; [exact I|].
      constructor; [now vm_compute | discriminate | repeat constructor].
    - split; [exact I|]. split; [exact I|].
      constructor; [now vm_compute | discriminate | repeat constructor]. }
  split.
  - intros name m. unfold Examples.tabs_context, Sample.context. simpl.
    intros Hm. apply lookup_insert_Some in Hm as [[_ <-]|[_ Hm]];
      [exact Hbrand|].
    apply lookup_insert_Some in Hm as [[_ <-]|[_ Hm]]; [exact Htabs|].
    apply lookup_insert_Some in Hm as [[_ <-]|[_ Hm]]; [exact Hsummary|].
    now rewrite lookup_empty in Hm.
  - intros callee l builtin f posargs keyargs [-> _] Hlookup _.
    vm_compute in Hlookup. injection Hlookup as <- <-.
    destruct posargs as [|[| |[]| | | | | | | | | | | | | |] rest];
      eexists; (split; [reflexivity | exact I]).
  - intros bag [= <-]. split; [reflexivity|]. split.
    + intros name v Hv. unfold Examples.tabs_args in Hv.
      apply lookup_singleton_Some in Hv as [_ [=]].
    + intros name t Ht. unfold Examples.tabs_args in Ht.
      apply lookup_singleton_Some in Ht as [_ [=]].
Qed.

(** A runtime value can be joined. *)
Lemma join_parts_scalars `{Host} c parts :
  Forall scalar parts -> exists s, join_parts c parts = Ok s.
Proof.
  induction 1 as [|part rest Hpart _ [t IH]]; simpl; [eauto|].
  assert (Htext : exists s, valueOf_text c part = Ok s).
  { destruct part as [s| |v|b name| | | | | | | | | | | | |];
      try contradiction; simpl; eauto.
    destruct v as [|[[|]|]| |t' o|]; simpl in *;
      try contradiction; eauto.
    rewrite Hpart. eauto. }
  destruct Htext as [s ->]. rewrite IH. eauto.
Qed.

Lemma format_runtime_value `{Host} fuel c a entry errs r errs' :
  resolve fuel c a entry errs = (Ok r, errs') -> runtime_value r ->
  exists out, format fuel c entry a errs = (Ok out, errs') \/
              format fuel c entry a errs = (Ok out, errs).
Proof.
  intros Hrun Hr.
  assert (Hjoin : exists s,
            match r with
            | Arr _ parts =>
                match join_parts c parts with
                | Ok s => Ok (Some s)
                | Throw e => Throw e
                | OutOfFuel => OutOfFuel
                end
            | part =>
                match valueOf_text c part with
                | Ok s => Ok (Some s)
                | Throw e => Throw e
                | OutOfFuel => OutOfFuel
                end
            end = Ok (Some s)).
  { destruct r as [s|i parts|v|b name| | | | | | | | | | | | |];
      try contradiction; simpl; eauto.
    - destruct (join_parts_scalars c parts Hr) as [s ->]. eauto.
    - destruct v as [|[[|]|]| |t' o|]; simpl in *;
        try contradiction; eauto.
      rewrite Hr. eauto. }
  destruct Hjoin as [s Hs].
  unfold format.
  destruct entry as [| | | | | | | | | | | | | | |[val|] attrs|];
    try (exists (Some s); left; rewrite Hrun;
         destruct r; try exact (f_equal (fun o => (o, errs')) Hs)).
  exists None. now right.
Qed.

Lemma tabs_quiet :
  quiet (H := Sample.host)
    (mkEnv Examples.tabs_context (Some Examples.tabs_args))
    Examples.calls_NUMBER.
Proof.
  split.
  - intros bag name hint [= <-] Hnone. unfold Examples.tabs_args in Hnone.
    apply lookup_singleton_Some in Hnone as [_ [=]].
  - intros callee l builtin f posargs keyargs v [-> Hsome] Hlookup
      (Hlen & _) Hpos _ Hcall.
    vm_compute in Hlookup. injection Hlookup as <- <-.
    destruct posargs as [|first rest].
    { destruct (positional_args l); [now destruct Hsome | discriminate]. }
    inversion Hpos as [|? ? Hfirst _]; subst.
    destruct first as [| |[]| | | | | | | | | | | | | |];
      simpl in Hcall; injection Hcall as <-; try exact I.
    exact Hfirst.
Qed.



(** The example runs: called with the number 2, [summary] formats to
    "2.0 tabs of Firefox" and no error is appended. *)
Lemma summary_resolves :
  format (H := Sample.host) 8 Examples.tabs_context Examples.summary
    (Some Examples.tabs_args) [] =
    (Ok (Some (js "2.0 tabs of Firefox")), []).
Proof. vm_compute. reflexivity. Qed.


(** ** External arguments *)

(** C8. On the bag [{ hasOwnProperty: "x" }] the external argument
    [$hasOwnProperty], a string, is not returned as a raw string, and the
    missing argument [$x] is not reported as a reference error: either way
    [args.hasOwnProperty(name)] calls the string and throws, and the
    exception leaves [resolve]. *)
Theorem ExternalArgument_shadowed :
  ExternalArgument (H := Sample.host)
    (mkEnv (Sample.context false []) (Some Examples.shadowing_args))
    (js "hasOwnProperty") (mkState [] ∅ 0) =
    (Throw (mkError TypeError (js "args.hasOwnProperty is not a function")),
     mkState [] ∅ 0) /\
  ExternalArgument (H := Sample.host)
    (mkEnv (Sample.context false []) (Some Examples.shadowing_args))
    (js "x") (mkState [] ∅ 0) =
    (Throw (mkError TypeError (js "args.hasOwnProperty is not a function")),
     mkState [] ∅ 0) /\
  resolve (H := Sample.host) 3 (Sample.context false [])
    (Some Examples.shadowing_args) Examples.foo_external [] =
    (Throw (mkError TypeError (js "args.hasOwnProperty is not a function")),
     []).
Proof. repeat split; vm_compute; reflexivity. Qed.

(** * Further properties of the resolver *)

(** ** Selection *)

(** The loop of [SelectExpression] over literal keys is a search for the
    first variant whose key matches; it leaves the state alone. *)
Lemma SelectExpression_loop_find `{Host} f env selector vars st :
  Forall (fun kv : node * node => literal_key kv.1) vars ->
  SelectExpression_loop (Type_ (S f)) env selector vars st =
    (Ok (as_variant <$> List.find (key_matches (ctx env) selector) vars), st).
Proof.
  induction 1 as [|[k v] rest Hk _ IH]; [reflexivity|].
  cbn [SelectExpression_loop List.find]. unfold bind.
  destruct (Type_literal_key env k f st Hk) as (-> & Hcan & _).
  rewrite Hcan. unfold lift.
  assert (Hm : method_match (ctx env) (Val (literal_value k)) selector =
               Ok (key_matches (ctx env) selector (k, v))).
  { destruct k; try contradiction; reflexivity. }
  rewrite Hm. destruct (key_matches (ctx env) selector (k, v)); [reflexivity|].
  exact IH.
Qed.

Lemma key_matches_unmatchable `{Host} c selector kv :
  unmatchable selector -> key_matches c selector kv = false.
Proof.
  intros Hs. unfold key_matches.
  destruct kv.1; try reflexivity;
    destruct selector as [| |[]| | | | | | | | | | | | | |];
    try contradiction; reflexivity.
Qed.

Lemma find_all_false {A} (p : A -> bool) (l : list A) :
  (forall x, p x = false) -> List.find p l = None.
Proof.
  intros Hp. induction l as [|x rest IH]; simpl; [reflexivity|].
  now rewrite Hp.
Qed.

(** X1. A select expression with literal keys whose selector resolves to
    something other than a [FluentNone] returns the first variant, in
    declaration order, whose key matches the selector, in the state the
    selector left; keys are resolved without a trace, and when none
    matches the result is that of [DefaultMember]. *)
Theorem SelectExpression_first_match `{Host} (f : nat) (env : Env)
    (e : node) (vars : list (node * node)) (def : option nat)
    (st st1 : state) (selector : node)
    (Hkeys : Forall (fun kv : node * node => literal_key kv.1) vars)
    (Hsel : Type_ (S f) env e st = (Ok selector, st1))
    (Hsome : is_FluentNone selector = false) :
  SelectExpression (Type_ (S f)) env (Some e) vars def st =
    match List.find (key_matches (ctx env) selector) vars with
    | Some kv => (Ok (Variant kv.1 kv.2), st1)
    | None => DefaultMember env vars def st1
    end.
Proof.
  unfold SelectExpression, bind. rewrite Hsel, Hsome.
  rewrite (SelectExpression_loop_find f env selector vars st1 Hkeys).
  now destruct (List.find _ vars).
Qed.

(** X2. A selector that resolves to anything but a string, a keyword or
    a number (a list of parts, as every reference to a message with a
    pattern gives, a date, a function, a [FluentNone]) matches no literal
    key: the select expression returns what [DefaultMember] returns,
    whatever the variants are. *)
Theorem SelectExpression_unmatchable `{Host} (f : nat) (env : Env)
    (e : node) (vars : list (node * node)) (def : option nat)
    (st st1 : state) (selector : node)
    (Hkeys : Forall (fun kv : node * node => literal_key kv.1) vars)
    (Hsel : Type_ (S f) env e st = (Ok selector, st1))
    (Hkind : unmatchable selector) :
  SelectExpression (Type_ (S f)) env (Some e) vars def st =
    DefaultMember env vars def st1.
Proof.
  unfold SelectExpression, bind. rewrite Hsel.
  destruct (is_FluentNone selector); [reflexivity|].
  rewrite (SelectExpression_loop_find f env selector vars st1 Hkeys).
  rewrite find_all_false; [reflexivity|].
  intros kv. now apply key_matches_unmatchable.
Qed.

(** X3. A select expression without a selector (a variant list) resolves
    to the value of the variant at [def]; when [def] is missing or out of
    range it resolves to a [FluentNone] and appends the range error "No
    default". *)
Theorem variant_list_default `{Host} (f : nat) (env : Env)
    (vars : list (node * node)) (def : option nat) (st : state) :
  Type_ (S (S f)) env (Sel None vars def) st =
    match def ≫= (fun i => vars !! i) with
    | Some (k, v) => Type_ f env v st
    | None =>
        (Ok (Val (FluentNone None)),
         with_error st (mkError RangeError (js "No default")))
    end.
Proof.
  cbn [Type_ Type_body SelectExpression]. unfold bind, DefaultMember.
  destruct (def ≫= (fun i => vars !! i)) as [[k v]|]; reflexivity.
Qed.

(** ** Variant references *)

Lemma VariantExpression_loop_find `{Host} f env key vars st :
  literal_key key ->
  Forall (fun kv : node * node => literal_key kv.1) vars ->
  VariantExpression_loop (Type_ (S f)) env (Val (literal_value key)) vars st =
    (Ok (as_variant <$> List.find (variant_matches (ctx env) key) vars), st).
Proof.
  intros Hkey. induction 1 as [|[k v] rest Hk _ IH]; [reflexivity|].
  cbn [VariantExpression_loop List.find]. unfold bind.
  destruct (Type_literal_key env k f st Hk) as (-> & _).
  unfold lift.
  assert (Hm : method_match (ctx env) (Val (literal_value key))
                 (Val (literal_value k)) =
               Ok (variant_matches (ctx env) key (k, v))).
  { destruct key; try contradiction; reflexivity. }
  rewrite Hm. destruct (variant_matches (ctx env) key (k, v)); [reflexivity|].
  exact IH.
Qed.

Lemma valueOf_text_literal `{Host} c key :
  literal_key key ->
  valueOf_text c (Val (literal_value key)) = Ok (key_text c key).
Proof. destruct key; try contradiction; reflexivity. Qed.

(** The start of [VariantExpression] for a message that is found. *)
Lemma VariantExpression_found `{Host} f env id key m st :
  messages (ctx env) !! id = Some m -> falsy m = false ->
  is_FluentNone m = false -> literal_key key ->
  VariantExpression (Type_ (S f)) env id key st =
    (let* is_list := lift (isVariantList (prop_val m)) in
     let* found :=
       (if is_list
        then VariantExpression_loop (Type_ (S f)) env
               (Val (literal_value key)) (variant_list_vars (prop_val m))
        else ret None) in
     match found with
     | Some variant => ret variant
     | None =>
         exec push_error
           (mkError ReferenceError
              (js "Unknown variant: " ++ key_text (ctx env) key)) in
         Type_ (S f) env m
     end) st.
Proof.
  intros Hm Hf Hn Hkey. unfold VariantExpression, MessageReference.
  rewrite Hm, Hf. unfold bind at 1, ret at 1. rewrite Hn.
  unfold bind at 1.
  destruct (Type_literal_key env key f st Hkey) as (-> & _).
  unfold bind. destruct (lift (isVariantList (prop_val m)) st)
    as [[[|]| |] st1]; try reflexivity.
  - destruct (VariantExpression_loop _ _ _ _ st1) as [[[variant|]| |] st2];
      try reflexivity.
    unfold lift. now rewrite valueOf_text_literal.
  - unfold ret, lift. now rewrite valueOf_text_literal.
Qed.

Lemma Type_Var `{Host} f env id key st :
  Type_ (S f) env (Var id key) st =
    bind (VariantExpression (Type_ f) env id key)
      (fun variant => Type_ f env variant) st.
Proof. reflexivity. Qed.

(** X4. A variant reference with a literal key to a message whose value
    is a variant list resolves the value of the first variant, in
    declaration order, that the key matches, and records nothing; when
    the key matches none, it appends the reference error "Unknown
    variant" and resolves the message itself, dispatching [Type] on the
    result a second time. *)
Theorem VariantExpression_first_match `{Host} (f : nat) (env : Env)
    (id : jsstring) (key m : node) (i : ident)
    (vars : list (node * node)) (def : option nat) (rest : list node)
    (st : state)
    (Hm : messages (ctx env) !! id = Some m)
    (Hobject : falsy m = false /\ is_FluentNone m = false)
    (Hval : prop_val m = Some (Arr i (Sel None vars def :: rest)))
    (Hkey : literal_key key)
    (Hkeys : Forall (fun kv : node * node => literal_key kv.1) vars) :
  Type_ (S (S f)) env (Var id key) st =
    match List.find (variant_matches (ctx env) key) vars with
    | Some kv => Type_ f env kv.2 st
    | None =>
        twice (S f) env m
          (with_error st
             (mkError ReferenceError
                (js "Unknown variant: " ++ key_text (ctx env) key)))
    end.
Proof.
  destruct Hobject as [Hf Hn].
  rewrite Type_Var. unfold bind at 1.
  rewrite (VariantExpression_found f env id key m st Hm Hf Hn Hkey).
  rewrite Hval. cbn [isVariantList variant_list_vars]. unfold bind at 1 2, lift.
  rewrite (VariantExpression_loop_find f env key vars st Hkey Hkeys).
  destruct (List.find _ vars) as [kv|]; [reflexivity|].
  reflexivity.
Qed.

(** X5. A message that is stored as a bare pattern or as a string has no
    [val], so it is never taken for a variant list: a variant reference
    to it always appends "Unknown variant" and resolves the message
    itself, with the second dispatch. *)
Theorem VariantExpression_bare_message `{Host} (f : nat) (env : Env)
    (id : jsstring) (key m : node) (st : state)
    (Hm : messages (ctx env) !! id = Some m)
    (Hbare : pattern_like m /\ falsy m = false)
    (Hkey : literal_key key) :
  Type_ (S (S f)) env (Var id key) st =
    twice (S f) env m
      (with_error st
         (mkError ReferenceError
            (js "Unknown variant: " ++ key_text (ctx env) key))).
Proof.
  destruct Hbare as [Hp Hf].
  assert (Hn : is_FluentNone m = false) by (destruct m; try contradiction; reflexivity).
  assert (Hv : prop_val m = None) by (destruct m; try contradiction; reflexivity).
  rewrite Type_Var. unfold bind at 1.
  rewrite (VariantExpression_found f env id key m st Hm Hf Hn Hkey).
  rewrite Hv. reflexivity.
Qed.

(** X6. A variant reference to a message whose value is the empty
    pattern throws a [TypeError], whatever the fuel: [isVariantList]
    reads [node[0].type] of an empty array. Nothing is recorded on the
    error list. *)
Theorem VariantExpression_empty_pattern `{Host} (f : nat) (env : Env)
    (id : jsstring) (key : node) (i : ident)
    (attrs : option (list (jsstring * node))) (st : state)
    (Hm : messages (ctx env) !! id = Some (Entry (Some (Arr i [])) attrs))
    (Hkey : literal_key key) :
  exists e,
    Type_ (S (S f)) env (Var id key) st = (Throw e, st) /\
    kind e = TypeError.
Proof.
  eexists. rewrite Type_Var. unfold bind at 1.
  rewrite (VariantExpression_found f env id key _ st Hm eq_refl eq_refl Hkey).
  split; reflexivity.
Qed.

(** ** Attribute references and the second dispatch *)

(** X7. An attribute reference to a message that has the attribute
    resolves the attribute alone: the value of the message is not
    resolved and nothing is recorded. When the message has no such
    attribute (or no attributes at all), the reference error "Unknown
    attribute" is appended and the message itself is resolved, with
    [Type] dispatched a second time on the result. *)
Theorem AttributeExpression_lookup `{Host} (f : nat) (env : Env)
    (id name : jsstring) (m : node) (st : state)
    (Hm : messages (ctx env) !! id = Some m)
    (Hobject : falsy m = false /\ is_FluentNone m = false) :
  Type_ (S f) env (Attr id name) st =
    match prop_attrs m ≫= property name with
    | Some attr => Type_ f env attr st
    | None =>
        twice f env m
          (with_error st
             (mkError ReferenceError (js "Unknown attribute: " ++ name)))
    end.
Proof.
  destruct Hobject as [Hf Hn].
  cbn [Type_ Type_body]. unfold AttributeExpression, MessageReference.
  rewrite Hm, Hf. unfold bind at 1 2, ret at 1. rewrite Hn.
  destruct (prop_attrs m ≫= property name); reflexivity.
Qed.

Lemma pushed_app env result body :
  pushed env result body = result ++ pushed env [] body.
Proof.
  unfold pushed. destruct (useIsolating (ctx env)); simpl;
    now rewrite <- ?app_assoc.
Qed.

Lemma Pattern_part_plain `{Host} env part result st :
  (forall i l, part <> Arr i l) ->
  Pattern_part env part result st = (Ok (pushed env result [part]), st).
Proof.
  intros Hpart. unfold Pattern_part, pushed, bind, ret.
  destruct part as [|i l| | | | | | | | | | | | | | |];
    try (destruct (useIsolating (ctx env)); reflexivity).
  now destruct (Hpart i l).
Qed.

(** [Type] on a part that is resolved already. *)
Lemma Type_resolved_part `{Host} f env part st :
  resolved_part part ->
  Type_ (S f) env part st =
    (Ok (again part), with_errors st (redispatch_errors [part])).
Proof.
  assert (Hst : with_errors st [] = st).
  { unfold with_errors. rewrite app_nil_r. now destruct st. }
  destruct part as [s| |[| | | |]|b name| | | | | | | | | | | | |];
    try contradiction; intros _; simpl; try reflexivity;
    unfold ret; now rewrite Hst.
Qed.

Lemma with_errors_app st a b :
  with_errors (with_errors st a) b = with_errors st (a ++ b).
Proof. unfold with_errors. simpl. now rewrite app_assoc. Qed.

Lemma redispatch_errors_cons part rest :
  redispatch_errors (part :: rest) =
    redispatch_errors [part] ++ redispatch_errors rest.
Proof. unfold redispatch_errors. simpl. now rewrite app_nil_r. Qed.

(** The loop of [Pattern] over parts that are resolved already. *)
Lemma Pattern_loop_resolved `{Host} f env parts : forall result st,
  Forall resolved_part parts ->
  Pattern_loop (Type_ (S f)) env parts result st =
    (Ok (result ++ redispatch_parts env parts),
     with_errors st (redispatch_errors parts)).
Proof.
  induction parts as [|part rest IH]; intros result st Hparts.
  - simpl. unfold ret, with_errors. rewrite !app_nil_r. now destruct st.
  - inversion Hparts as [|? ? Hpart Hrest]; subst.
    assert (Hcase : (exists s, part = Str s) \/ forall s, part <> Str s).
    { destruct part; eauto; right; discriminate. }
    destruct Hcase as [[s ->]|Hexpr].
    + cbn [Pattern_loop]. rewrite IH by exact Hrest.
      simpl. now rewrite <- app_assoc.
    + rewrite Pattern_loop_placeable by exact Hexpr.
      unfold bind at 1. rewrite Type_resolved_part by exact Hpart.
      unfold bind at 1. rewrite Pattern_part_plain
        by (destruct part as [| |[]| | | | | | | | | | | | | |];
            try contradiction; discriminate).
      rewrite IH by exact Hrest.
      rewrite pushed_app, <- app_assoc.
      assert (Hparts' : redispatch_parts env (part :: rest) =
                        pushed env [] [again part] ++
                        redispatch_parts env rest).
      { destruct part; try reflexivity. now destruct (Hexpr s). }
      rewrite Hparts', with_errors_app, <- redispatch_errors_cons.
      reflexivity.
Qed.

Lemma Type_Arr `{Host} f env id elems st :
  Type_ (S f) env (Arr id elems) st = Pattern (Type_ f) env id elems st.
Proof. reflexivity. Qed.

(** X8. The second dispatch. [Type] applied to a list of parts that is
    resolved already walks it as a pattern: strings are copied and a
    [FluentNone] stays one, but every other part (a number, a date, a
    keyword, a function) is replaced by a [FluentNone] with the range
    error "No value", and in an isolating context each part that is not a
    string is wrapped in U+2068 and U+2069 once more. This is what the
    fall-back of an attribute or a variant reference does to the value of
    the message. *)
Theorem Type_second_dispatch `{Host} (f : nat) (env : Env) (id : ident)
    (parts : list node) (st : state)
    (Hparts : Forall resolved_part parts)
    (Hclean : id ∉ dirty st) :
  Type_ (S (S f)) env (Arr id parts) st =
    (Ok (Arr (Allocated (next st)) (redispatch_parts env parts)),
     mkState (errors st ++ redispatch_errors parts) (dirty st)
       (S (next st))).
Proof.
  rewrite Type_Arr.
  unfold Pattern, bind, dirty_has, dirty_add, dirty_delete, alloc, ret.
  cbv beta iota. rewrite bool_decide_eq_false_2 by exact Hclean.
  cbv beta iota. rewrite Pattern_loop_resolved by exact Hparts.
  unfold with_errors. cbn [errors dirty next].
  replace ((dirty st ∪ {[id]}) ∖ {[id]}) with (dirty st) by set_solver.
  reflexivity.
Qed.
(** ** Functions and calls *)

Lemma Type_literal_result `{Host} f env n st :
  match n with Str _ | Kw _ | Num _ => True | _ => False end ->
  Type_ (S f) env n st = (Ok (literal_result n), st).
Proof. destruct n; try contradiction; reflexivity. Qed.

(** The loop of [CallExpression] over literal arguments with ordinary
    names. *)
Lemma CallExpression_loop_literal `{Host} f env l : forall posargs keyargs st,
  Forall literal_arg l -> Forall ordinary_name l ->
  named_proto keyargs = None ->
  CallExpression_loop (Type_ (S f)) env l posargs keyargs st =
    (Ok (collect l posargs keyargs), st).
Proof.
  induction l as [|arg rest IH]; intros posargs keyargs st Hl Hn Hproto;
    [reflexivity|].
  inversion Hl as [|? ? Harg Hrest]; subst.
  inversion Hn as [|? ? Hname Hnames]; subst.
  rewrite CallExpression_loop_cons. unfold bind at 1.
  destruct arg as [s| | | |name|val| | | |name val| | | | | | |];
    try contradiction;
    try (rewrite Type_literal_result by exact I; now apply IH).
  cbn [call_target]. rewrite Type_literal_result
    by (destruct val; try contradiction; exact I).
  destruct Hname as [Hlength Hnoproto]. unfold bind, lift.
  rewrite (Array_set_ordinary _ _ _ _ Hlength Hnoproto Hproto).
  cbn [collect]. rewrite Hproto. now apply IH.
Qed.

Lemma property_set_property {A} name name' (v : A) obj :
  property name (set_property name' v obj) =
    if bool_decide (name' = name) then Some v else property name obj.
Proof.
  induction obj as [|[k w] rest IH]; simpl.
  - case_bool_decide; reflexivity.
  - destruct (bool_decide (k = name')) eqn:Ek; simpl.
    + apply bool_decide_eq_true_1 in Ek. subst k.
      case_bool_decide; reflexivity.
    + apply bool_decide_eq_false_1 in Ek. rewrite IH.
      destruct (bool_decide (k = name)) eqn:Ekn; [|reflexivity].
      apply bool_decide_eq_true_1 in Ekn. subst k.
      now rewrite bool_decide_eq_false_2 by congruence.
Qed.

Lemma collect_positional `{Host} l : forall posargs keyargs,
  (collect l posargs keyargs).1 = posargs ++ positional l.
Proof.
  induction l as [|arg rest IH]; intros posargs keyargs; simpl.
  - now rewrite app_nil_r.
  - destruct arg; rewrite IH; simpl; now rewrite <- ?app_assoc.
Qed.

Lemma collect_named `{Host} name l : forall posargs keyargs,
  property name (named (collect l posargs keyargs).2) =
    last_named name l (property name (named keyargs)).
Proof.
  induction l as [|arg rest IH]; intros posargs keyargs; simpl;
    [reflexivity|].
  destruct arg; rewrite IH; try reflexivity.
  simpl. now rewrite property_set_property.
Qed.

Lemma collect_length `{Host} l : forall posargs keyargs,
  named_length (collect l posargs keyargs).2 =
    index_length l (named_length keyargs) /\
  named_proto (collect l posargs keyargs).2 = named_proto keyargs.
Proof.
  induction l as [|arg rest IH]; intros posargs keyargs; simpl;
    [now split|].
  destruct arg; try apply IH.
  exact (IH posargs
           (mkKeyargs (set_property name (literal_result arg) (named keyargs))
              (extended (named_length keyargs) name) (named_proto keyargs))).
Qed.

(** X9. A function of the context overrides the built-in of the same
    name: a call with literal arguments and ordinary names calls the
    function of the context on the collected arguments and returns what
    it returns, whatever './builtins' holds under that name; the built-in
    is called when the context has no entry, or a falsy one, under the
    name. Nothing is recorded either way. *)
Theorem CallExpression_precedence `{Host} (f : nat) (env : Env)
    (name : jsstring) (l : list node) (st : state) (fn : jsfunction)
    (Hargs : Forall literal_arg l)
    (Hnames : Forall ordinary_name l)
    (Hslot :
       functions (ctx env) !! name = Some (SlotFunction fn) \/
       ((functions (ctx env) !! name = None \/
         functions (ctx env) !! name = Some (SlotOther false)) /\
        builtins !! name = Some (SlotFunction fn))) :
  CallExpression (Type_ (S f)) env name l st =
    (fn_call fn (collect l [] no_keyargs).1 (collect l [] no_keyargs).2, st).
Proof.
  unfold CallExpression, FunctionReference.
  destruct Hslot as [Hfn|[Huser Hfn]].
  - rewrite Hfn. unfold bind at 1, ret at 1. cbn [is_FluentNone].
    unfold bind.
    rewrite CallExpression_loop_literal by (auto; reflexivity).
    destruct (collect l [] no_keyargs) as [posargs keyargs].
    unfold function_of. rewrite Hfn. reflexivity.
  - assert (Hpick :
      match functions (ctx env) !! name with
      | Some (SlotOther false) | None => pair true <$> builtins !! name
      | Some s => Some (false, s)
      end = Some (true, SlotFunction fn)).
    { destruct Huser as [-> | ->]; now rewrite Hfn. }
    rewrite Hpick. unfold bind at 1, ret at 1. cbn [is_FluentNone].
    unfold bind.
    rewrite CallExpression_loop_literal by (auto; reflexivity).
    destruct (collect l [] no_keyargs) as [posargs keyargs].
    unfold function_of. rewrite Hfn. reflexivity.
Qed.

(** X10. A call of a name that is no function does not resolve its
    arguments: whatever they are, the call returns the [FluentNone] with
    hint [name()] and appends exactly one error, a reference error
    "Unknown function" when neither registry has a truthy entry under
    the name, a type error "not callable" when the entry is truthy. *)
Theorem CallExpression_no_function `{Host} (rec : Env -> node -> M node)
    (env : Env) (name : jsstring) (l : list node) (st : state)
    (Hslot : forall builtin fn,
        lookup_function (ctx env) name <> Some (builtin, SlotFunction fn)) :
  CallExpression rec env name l st =
    (Ok (Val (FluentNone (Some (name ++ js "()")))),
     with_error st
       match lookup_function (ctx env) name with
       | Some (_, SlotOther true) =>
           mkError TypeError
             (js "Function " ++ name ++ js "() is not callable")
       | _ =>
           mkError ReferenceError
             (js "Unknown function: " ++ name ++ js "()")
       end).
Proof.
  unfold CallExpression, FunctionReference.
  fold (lookup_function (ctx env) name).
  destruct (lookup_function (ctx env) name) as [[builtin [fn|[|]]]|] eqn:E;
    try reflexivity.
  now destruct (Hslot builtin fn).
Qed.

(** X11. The arguments of a call with literal arguments whose named
    arguments are called neither [length] nor [__proto__]: the positional
    ones are handed over in source order, and under each name the value
    of the last argument of that name, if any. The named ones are
    properties of an array: its length is one more than the largest
    array index among the names, 0 when there is none, and its prototype
    is untouched. Resolving the arguments records nothing. *)
Theorem CallExpression_arguments `{Host} (f : nat) (env : Env)
    (l : list node) (st : state)
    (Hargs : Forall literal_arg l)
    (Hnames : Forall ordinary_name l) :
  exists posargs keyargs,
    CallExpression_loop (Type_ (S f)) env l [] no_keyargs st =
      (Ok (posargs, keyargs), st) /\
    posargs = positional l /\
    (forall name,
        property name (named keyargs) = last_named name l None) /\
    named_length keyargs = index_length l 0 /\
    named_proto keyargs = None.
Proof.
  exists (collect l [] no_keyargs).1, (collect l [] no_keyargs).2.
  split; [|split; [|split]].
  - rewrite CallExpression_loop_literal by (auto; reflexivity).
    now destruct (collect l [] no_keyargs).
  - exact (collect_positional l [] no_keyargs).
  - intros name. apply (collect_named name l [] no_keyargs).
  - apply (collect_length l [] no_keyargs).
Qed.

(** ** Lengths and references *)

Lemma add_length_assoc a b c :
  add_length (add_length a b) c = add_length a (add_length b c).
Proof. destruct a, b, c; simpl; try reflexivity. f_equal. lia. Qed.

Lemma reduce_length_sum `{Host} c parts : forall sum,
  reduce_length c sum parts =
    match reduce_length c (Some 0) parts with
    | Ok len => Ok (add_length sum len)
    | Throw e => Throw e
    | OutOfFuel => OutOfFuel
    end.
Proof.
  induction parts as [|part rest IH]; intros sum; cbn [reduce_length].
  - destruct sum; simpl; [f_equal; f_equal; lia | reflexivity].
  - destruct (valueOf_length c part) as [len| |]; try reflexivity.
    rewrite IH, (IH (add_length (Some 0) len)).
    destruct (reduce_length c (Some 0) rest) as [r| |]; try reflexivity.
    rewrite <- add_length_assoc. do 2 f_equal.
    destruct sum, len; simpl; reflexivity.
Qed.

(** X12. [PlaceableLength] adds up: the length of two lists of parts put
    together is the sum of their lengths, a length that is not a number
    on either side makes the sum not a number, and an exception of
    [valueOf] in the first list is the one that is thrown. The empty list
    has length 0. *)
Theorem PlaceableLength_app `{Host} (env : Env) (a b : list node) :
  PlaceableLength env [] = Ok (Some 0) /\
  PlaceableLength env (a ++ b) =
    match PlaceableLength env a with
    | Ok la =>
        match PlaceableLength env b with
        | Ok lb => Ok (add_length la lb)
        | other => other
        end
    | other => other
    end.
Proof.
  split; [reflexivity|]. unfold PlaceableLength.
  assert (Happ : forall sum,
            reduce_length (ctx env) sum (a ++ b) =
            match reduce_length (ctx env) sum a with
            | Ok la => reduce_length (ctx env) la b
            | other => other
            end).
  { induction a as [|part rest IH]; intros sum; [reflexivity|].
    cbn [app reduce_length].
    destruct (valueOf_length (ctx env) part); try reflexivity. apply IH. }
  rewrite Happ.
  destruct (reduce_length (ctx env) (Some 0) a) as [la| |]; try reflexivity.
  rewrite reduce_length_sum.
  destruct (reduce_length (ctx env) (Some 0) b); reflexivity.
Qed.

Lemma PlaceableLength_literals `{Host} env frags :
  PlaceableLength env (map Str frags) = Ok (Some (length (concat frags))).
Proof.
  unfold PlaceableLength.
  assert (Hgen : forall n,
            reduce_length (ctx env) (Some n) (map Str frags) =
            Ok (Some (n + length (concat frags)))).
  { induction frags as [|s rest IH]; intros n; simpl.
    - now rewrite Nat.add_0_r.
    - rewrite IH, length_app. do 2 f_equal. lia. }
  apply (Hgen 0).
Qed.

Lemma Type_Ref `{Host} f env name st :
  Type_ (S f) env (Ref name) st =
    bind (MessageReference env name) (fun message => Type_ f env message) st.
Proof. reflexivity. Qed.

(** X13. A reference to a message that is a pattern of literal
    fragments, met while a pattern is walked: when the fragments have at
    most 2500 characters together they are spliced into the result (in
    an isolating context between U+2068 and U+2069), 2500 included; when
    they have more, a single [FluentNone] takes their place and the range
    error names their number. *)
Theorem reference_splice_bound `{Host} (f : nat) (env : Env)
    (name : jsstring) (i : ident) (frags : list jsstring)
    (rest result : list node) (st : state)
    (Hm : messages (ctx env) !! name = Some (Arr i (map Str frags)))
    (Hclean : i ∉ dirty st) :
  Pattern_loop (Type_ (S (S f))) env (Ref name :: rest) result st =
    if MAX_PLACEABLE_LENGTH <? length (concat frags)
    then
      Pattern_loop (Type_ (S (S f))) env rest
        (pushed env result [Val (FluentNone None)])
        (mkState
           (errors st ++
            [mkError RangeError
               (js "Too many characters in placeable (" ++
                string_of_nat (length (concat frags)) ++
                js ", max allowed is 2500)")])
           (dirty st) (S (next st)))
    else
      Pattern_loop (Type_ (S (S f))) env rest
        (pushed env result (map Str frags))
        (mkState (errors st) (dirty st) (S (next st))).
Proof.
  rewrite Pattern_loop_placeable by discriminate.
  unfold bind at 1. rewrite Type_Ref. unfold bind at 1, MessageReference.
  rewrite Hm. cbn [falsy]. unfold ret at 1. rewrite Type_Arr.
  rewrite Pattern_literals by exact Hclean.
  unfold bind at 1, Pattern_part, bind, lift.
  rewrite PlaceableLength_literals. cbn [too_long length_text].
  unfold pushed, push_error, ret.
  destruct (MAX_PLACEABLE_LENGTH <? length (concat frags));
    destruct (useIsolating (ctx env)); reflexivity.
Qed.

(** X14. What a reference to a message resolves to, by what the store
    holds under the name. Nothing, or the empty string: the reference
    error "Unknown message" and a [FluentNone] with the name as hint. A
    message object without a value: the range error "No value" and a
    [FluentNone] without hint. A message object with a value: what the
    value resolves to. Anything else: what it resolves to itself. *)
Theorem Ref_resolution `{Host} (f : nat) (env : Env) (name : jsstring)
    (st : state) :
  Type_ (S (S f)) env (Ref name) st =
    match messages (ctx env) !! name with
    | None | Some (Str []) =>
        (Ok (Val (FluentNone (Some name))),
         with_error st
           (mkError ReferenceError (js "Unknown message: " ++ name)))
    | Some (Entry None _) =>
        (Ok (Val (FluentNone None)),
         with_error st (mkError RangeError (js "No value")))
    | Some (Entry (Some v) _) => Type_ f env v st
    | Some m => Type_ (S f) env m st
    end.
Proof.
  rewrite Type_Ref. unfold bind, MessageReference.
  destruct (messages (ctx env) !! name) as [m|]; [|reflexivity].
  destruct m as [[|ch s]| | | | | | | | | | | | | | |[v|] attrs|];
    reflexivity.
Qed.

(** ** tools/parse.js *)

(** X15. [indent(n)] is the string of [n] spaces; [indent(0)] is the
    empty string. *)
Theorem indent_spaces (n : nat) :
  indent n = repeat 32%N n /\ length (indent n) = n.
Proof.
  assert (Hindent : indent n = repeat 32%N n).
  { unfold indent. rewrite Nat.add_1_r.
    induction n as [|n IH]; [reflexivity|].
    change (repeat [] (S (S n))) with ([] :: repeat ([] : jsstring) (S n)).
    change (Array_join (js " ") ([] :: repeat [] (S n)))
      with ([] ++ js " " ++ Array_join (js " ") (repeat [] (S n))).
    rewrite IH. reflexivity. }
  split; [exact Hindent|]. rewrite Hindent. apply repeat_length.
Qed.

(** ** External arguments in a pattern *)

Lemma ExternalArgument_not_array `{Host} env name st part st1 :
  ExternalArgument env name st = (Ok part, st1) ->
  forall i l, part <> Arr i l.
Proof.
  unfold ExternalArgument, bind, lift, push_error, ret.
  destruct (args env) as [bag|]; [|intros [= <- _]; discriminate].
  destruct (hasOwnProperty bag name) as [[|]| |]; try discriminate;
    [|intros [= <- _]; discriminate].
  simpl. destruct (bag !! name) as [[]|]; intros [= <- _]; discriminate.
Qed.

(** X16. An external argument met while a pattern is walked contributes
    exactly one part, the value [ExternalArgument] returns for it: it is
    never spliced and its length is never checked, so a string argument
    is interpolated whole, whatever its length. *)
Theorem external_argument_one_part `{Host} (f : nat) (env : Env)
    (name : jsstring) (rest result : list node) (st st1 : state)
    (part : node)
    (Harg : ExternalArgument env name st = (Ok part, st1)) :
  Pattern_loop (Type_ (S f)) env (Ext name :: rest) result st =
    Pattern_loop (Type_ (S f)) env rest (pushed env result [part]) st1.
Proof.
  rewrite Pattern_loop_placeable by discriminate.
  unfold bind at 1. cbn [Type_ Type_body]. rewrite Harg.
  unfold bind at 1.
  rewrite Pattern_part_plain
    by (eapply ExternalArgument_not_array; exact Harg).
  reflexivity.
Qed.

Lemma external_argument_one_part_witness :
  Pattern_loop (Type_ (H := Sample.host) 1)
    (mkEnv (Sample.context false []) (Some Examples.long_args))
    [Ext (js "x")] [] Scenarios.start =
    Pattern_loop (Type_ (H := Sample.host) 1)
      (mkEnv (Sample.context false []) (Some Examples.long_args)) []
      (pushed (mkEnv (Sample.context false []) (Some Examples.long_args))
         [] [Str Examples.long_text])
      Scenarios.start.
Proof.
  refine (external_argument_one_part (H := Sample.host) 0
            (mkEnv (Sample.context false []) (Some Examples.long_args))
            (js "x") [] [] Scenarios.start Scenarios.start
            (Str Examples.long_text) _).
  vm_compute. reflexivity.
Defined.

(** ** Numbers that are not numbers *)

Lemma SFeqb_nan_r x : SpecFloat.SFeqb x SpecFloat.S754_nan = false.
Proof. destruct x as [[|]|[|]| |[|] m e]; reflexivity. Qed.

Lemma SFeqb_refl_nan x :
  SpecFloat.SFeqb x x = false -> x = SpecFloat.S754_nan.
Proof.
  unfold SpecFloat.SFeqb.
  destruct x as [[|]|[|]| |[|] m e]; simpl; try discriminate;
    try reflexivity;
    rewrite Z.compare_refl; simpl;
    try rewrite Pos.compare_cont_refl; simpl;
    try rewrite Pos.compare_refl; simpl; discriminate.
Qed.

(** A number that is [NaN] equals no number. *)
Lemma eqb_nan x y : PrimFloat.is_nan x = true -> PrimFloat.eqb y x = false.
Proof.
  unfold PrimFloat.is_nan. rewrite negb_true_iff, !FloatAxioms.eqb_spec.
  intros Hx. apply SFeqb_refl_nan in Hx. rewrite Hx. apply SFeqb_nan_r.
Qed.

Lemma SFeqb_nan_l x : SpecFloat.SFeqb SpecFloat.S754_nan x = false.
Proof. reflexivity. Qed.

Lemma eqb_nan_l x y : PrimFloat.is_nan x = true -> PrimFloat.eqb x y = false.
Proof.
  unfold PrimFloat.is_nan. rewrite negb_true_iff, !FloatAxioms.eqb_spec.
  intros Hx. apply SFeqb_refl_nan in Hx. now rewrite Hx.
Qed.

Lemma find_pointwise {A} (p q : A -> bool) (l : list A) :
  (forall x, p x = q x) -> List.find p l = List.find q l.
Proof.
  intros Hpq. induction l as [|x rest IH]; simpl; [reflexivity|].
  now rewrite Hpq, IH.
Qed.

(** X17. A number that is [NaN] matches no number: as a selector it is
    matched by no number key, as a key it matches no selector, not even
    a [NaN]. A select expression on a [NaN] selector therefore chooses
    among the keyword keys alone, by the plural category of the
    selector. *)
Theorem NaN_matches_no_number `{Host} (c : MessageContext) (x : float)
    (opts : jsopts) (Hnan : PrimFloat.is_nan x = true) :
  (forall y, FluentNumber_match y (Val (TNumber x opts)) = false) /\
  (forall other, FluentNumber_match x other = false) /\
  (forall vars,
      List.find (key_matches c (Val (TNumber x opts))) vars =
      List.find
        (fun kv : node * node =>
           match kv.1 with
           | Kw name => bool_decide (name = PluralRules c opts x)
           | _ => false
           end) vars).
Proof.
  split; [|split].
  - intros y. simpl. now apply eqb_nan.
  - intros other. destruct other as [| |[]| | | | | | | | | | | | | |];
      try reflexivity. simpl. now apply eqb_nan_l.
  - intros vars. apply find_pointwise. intros [k v]. unfold key_matches.
    destruct k; try reflexivity. simpl. now apply eqb_nan.
Qed.

Lemma NaN_matches_no_number_witness :
  (forall y,
      FluentNumber_match y (Val (TNumber PrimFloat.nan None)) = false) /\
  (forall other, FluentNumber_match PrimFloat.nan other = false) /\
  (forall vars,
      List.find
        (key_matches (H := Sample.host) (ctx Scenarios.env)
           (Val (TNumber PrimFloat.nan None))) vars =
      List.find
        (fun kv : node * node =>
           match kv.1 with
           | Kw name =>
               bool_decide
                 (name = PluralRules (ctx Scenarios.env) None PrimFloat.nan)
           | _ => false
           end) vars).
Proof.
  refine (NaN_matches_no_number (H := Sample.host) (ctx Scenarios.env)
            PrimFloat.nan None _).
  reflexivity.
Defined.

(** ** The further properties at concrete inputs *)

Lemma SelectExpression_first_match_witness :
  SelectExpression (Type_ (H := Sample.host) 1) Scenarios.env
    (Some (Str (js "gen"))) Scenarios.brand_vars (Some 0) Scenarios.start =
    match
      List.find (key_matches (H := Sample.host) (ctx Scenarios.env)
                   (Str (js "gen"))) Scenarios.brand_vars
    with
    | Some kv => (Ok (Variant kv.1 kv.2), Scenarios.start)
    | None =>
        DefaultMember Scenarios.env Scenarios.brand_vars (Some 0)
          Scenarios.start
    end.
Proof.
  refine (SelectExpression_first_match (H := Sample.host) 0 Scenarios.env
            (Str (js "gen")) Scenarios.brand_vars (Some 0) Scenarios.start
            Scenarios.start (Str (js "gen")) _ _ _).
  - repeat constructor.
  - reflexivity.
  - reflexivity.
Defined.

Lemma SelectExpression_unmatchable_witness :
  SelectExpression (Type_ (H := Sample.host) 3) Scenarios.env
    (Some (Ref (js "text"))) Scenarios.brand_vars (Some 0) Scenarios.start =
    DefaultMember Scenarios.env Scenarios.brand_vars (Some 0)
      (mkState [] ∅ 1).
Proof.
  refine (SelectExpression_unmatchable (H := Sample.host) 2 Scenarios.env
            (Ref (js "text")) Scenarios.brand_vars (Some 0) Scenarios.start
            (mkState [] ∅ 1) (Arr (Allocated 0) [Str (js "Foo")]) _ _ _).
  - repeat constructor.
  - vm_compute. reflexivity.
  - exact I.
Defined.

Lemma VariantExpression_first_match_witness :
  Type_ (H := Sample.host) 3 Scenarios.env (Var (js "brand") (Kw (js "gen")))
    Scenarios.start =
    match
      List.find (variant_matches (H := Sample.host) (ctx Scenarios.env)
                   (Kw (js "gen"))) Scenarios.brand_vars
    with
    | Some kv => Type_ (H := Sample.host) 1 Scenarios.env kv.2 Scenarios.start
    | None =>
        twice (H := Sample.host) 2 Scenarios.env Scenarios.brand
          (with_error Scenarios.start
             (mkError ReferenceError
                (js "Unknown variant: " ++
                 key_text (H := Sample.host) (ctx Scenarios.env)
                   (Kw (js "gen")))))
    end.
Proof.
  refine (VariantExpression_first_match (H := Sample.host) 1 Scenarios.env
            (js "brand") (Kw (js "gen")) Scenarios.brand (Parsed 0)
            Scenarios.brand_vars (Some 0) [] Scenarios.start _ _ _ _ _).
  - vm_compute. reflexivity.
  - split; reflexivity.
  - reflexivity.
  - exact I.
  - repeat constructor.
Defined.

Lemma VariantExpression_bare_message_witness :
  Type_ (H := Sample.host) 3 Scenarios.env (Var (js "text") (Kw (js "gen")))
    Scenarios.start =
    twice (H := Sample.host) 2 Scenarios.env
      (Arr (Parsed 2) [Str (js "Foo")])
      (with_error Scenarios.start
         (mkError ReferenceError
            (js "Unknown variant: " ++
             key_text (H := Sample.host) (ctx Scenarios.env)
               (Kw (js "gen"))))).
Proof.
  refine (VariantExpression_bare_message (H := Sample.host) 1 Scenarios.env
            (js "text") (Kw (js "gen")) (Arr (Parsed 2) [Str (js "Foo")])
            Scenarios.start _ _ _).
  - vm_compute. reflexivity.
  - split; [exact I | reflexivity].
  - exact I.
Defined.

Lemma VariantExpression_empty_pattern_witness :
  exists e,
    Type_ (H := Sample.host) 2 Scenarios.env
      (Var (js "hollow") (Kw (js "gen"))) Scenarios.start =
      (Throw e, Scenarios.start) /\
    kind e = TypeError.
Proof.
  refine (VariantExpression_empty_pattern (H := Sample.host) 0 Scenarios.env
            (js "hollow") (Kw (js "gen")) (Parsed 1) None Scenarios.start
            _ _).
  - vm_compute. reflexivity.
  - exact I.
Defined.

Lemma AttributeExpression_lookup_witness :
  Type_ (H := Sample.host) 2 Scenarios.env (Attr (js "foo") (js "attr"))
    Scenarios.start =
    match prop_attrs Scenarios.foo_attr ≫= property (js "attr") with
    | Some attr => Type_ (H := Sample.host) 1 Scenarios.env attr Scenarios.start
    | None =>
        twice (H := Sample.host) 1 Scenarios.env Scenarios.foo_attr
          (with_error Scenarios.start
             (mkError ReferenceError (js "Unknown attribute: " ++ js "attr")))
    end.
Proof.
  refine (AttributeExpression_lookup (H := Sample.host) 1 Scenarios.env
            (js "foo") (js "attr") Scenarios.foo_attr Scenarios.start _ _).
  - vm_compute. reflexivity.
  - split; reflexivity.
Defined.

Lemma Type_second_dispatch_witness :
  Type_ (H := Sample.host) 2 Scenarios.env
    (Arr (Allocated 7) [Str (js "a"); Val (TNumber 1 None)])
    Scenarios.start =
    (Ok (Arr (Allocated (next Scenarios.start))
           (redispatch_parts Scenarios.env
              [Str (js "a"); Val (TNumber 1 None)])),
     mkState
       (errors Scenarios.start ++
        redispatch_errors [Str (js "a"); Val (TNumber 1 None)])
       (dirty Scenarios.start) (S (next Scenarios.start))).
Proof.
  refine (Type_second_dispatch (H := Sample.host) 0 Scenarios.env
            (Allocated 7) [Str (js "a"); Val (TNumber 1 None)]
            Scenarios.start _ _).
  - repeat constructor.
  - vm_compute. discriminate.
Defined.

Lemma CallExpression_precedence_witness :
  builtins (Host := Sample.host) !! js "NUMBER" =
    Some (SlotFunction Sample.NUMBER) /\
  CallExpression (Type_ (H := Sample.host) 1) Scenarios.overriding
    (js "NUMBER") Scenarios.number_args Scenarios.start =
    (Ok (Str (js "mine")), Scenarios.start) /\
  CallExpression (Type_ (H := Sample.host) 1) Scenarios.env
    (js "NUMBER") Scenarios.number_args Scenarios.start =
    (Ok (Val (TNumber 5
                (Some [(js "minimumFractionDigits", OptNumber 2)]))),
     Scenarios.start).
Proof.
  split; [reflexivity|]. split.
  - refine (CallExpression_precedence (H := Sample.host) 0
              Scenarios.overriding (js "NUMBER") Scenarios.number_args
              Scenarios.start Scenarios.mine _ _ (or_introl _)).
    + repeat constructor.
    + repeat constructor; discriminate.
    + reflexivity.
  - refine (CallExpression_precedence (H := Sample.host) 0
              Scenarios.env (js "NUMBER") Scenarios.number_args
              Scenarios.start Sample.NUMBER _ _
              (or_intror (conj (or_introl _) _))).
    + repeat constructor.
    + repeat constructor; discriminate.
    + reflexivity.
    + reflexivity.
Defined.

Lemma CallExpression_no_function_witness :
  CallExpression (H := Sample.host) (Type_ 1) Scenarios.env (js "MISSING")
    [Ext (js "x")] Scenarios.start =
    (Ok (Val (FluentNone (Some (js "MISSING" ++ js "()")))),
     with_error Scenarios.start
       match
         lookup_function (H := Sample.host) (ctx Scenarios.env) (js "MISSING")
       with
       | Some (_, SlotOther true) =>
           mkError TypeError
             (js "Function " ++ js "MISSING" ++ js "() is not callable")
       | _ =>
           mkError ReferenceError
             (js "Unknown function: " ++ js "MISSING" ++ js "()")
       end).
Proof.
  refine (CallExpression_no_function (H := Sample.host) (Type_ 1)
            Scenarios.env (js "MISSING") [Ext (js "x")] Scenarios.start _).
  intros builtin fn. vm_compute. discriminate.
Defined.

Lemma CallExpression_arguments_witness :
  exists posargs keyargs,
    CallExpression_loop (Type_ (H := Sample.host) 1) Scenarios.env
      Scenarios.indexed_args [] no_keyargs Scenarios.start =
      (Ok (posargs, keyargs), Scenarios.start) /\
    posargs = positional (H := Sample.host) Scenarios.indexed_args /\
    (forall name,
        property name (named keyargs) =
          last_named (H := Sample.host) name Scenarios.indexed_args None) /\
    named_length keyargs = index_length Scenarios.indexed_args 0 /\
    named_proto keyargs = None.
Proof.
  refine (CallExpression_arguments (H := Sample.host) 0 Scenarios.env
            Scenarios.indexed_args Scenarios.start _ _).
  - repeat constructor.
  - repeat constructor; discriminate.
Defined.

Lemma reference_splice_bound_witness :
  Pattern_loop (Type_ (H := Sample.host) 2) Scenarios.env
    [Ref (js "text")] [] Scenarios.start =
    if MAX_PLACEABLE_LENGTH <? length (concat [js "Foo"])
    then
      Pattern_loop (Type_ (H := Sample.host) 2) Scenarios.env []
        (pushed Scenarios.env [] [Val (FluentNone None)])
        (mkState
           (errors Scenarios.start ++
            [mkError RangeError
               (js "Too many characters in placeable (" ++
                string_of_nat (length (concat [js "Foo"])) ++
                js ", max allowed is 2500)")])
           (dirty Scenarios.start) (S (next Scenarios.start)))
    else
      Pattern_loop (Type_ (H := Sample.host) 2) Scenarios.env []
        (pushed Scenarios.env [] (map Str [js "Foo"]))
        (mkState (errors Scenarios.start) (dirty Scenarios.start)
           (S (next Scenarios.start))).
Proof.
  refine (reference_splice_bound (H := Sample.host) 0 Scenarios.env
            (js "text") (Parsed 2) [js "Foo"] [] [] Scenarios.start _ _).
  - vm_compute. reflexivity.
  - vm_compute. discriminate.
Defined.

(** ** Exceptions that leave the resolver *)

(** The loop of [CallExpression] over literal arguments with ordinary
    names, followed by more arguments. *)
Lemma CallExpression_loop_app `{Host} f env l more :
  forall posargs keyargs st,
    Forall literal_arg l -> Forall ordinary_name l ->
    named_proto keyargs = None ->
    CallExpression_loop (Type_ (S f)) env (l ++ more) posargs keyargs st =
      CallExpression_loop (Type_ (S f)) env more
        (collect l posargs keyargs).1 (collect l posargs keyargs).2 st.
Proof.
  induction l as [|arg rest IH]; intros posargs keyargs st Hl Hn Hproto;
    [reflexivity|].
  inversion Hl as [|? ? Harg Hrest]; subst.
  inversion Hn as [|? ? Hname Hnames]; subst.
  rewrite <- app_comm_cons, CallExpression_loop_cons. unfold bind at 1.
  destruct arg as [s| | | |name|val| | | |name val| | | | | | |];
    try contradiction;
    try (rewrite Type_literal_result by exact I; now apply IH).
  cbn [call_target]. rewrite Type_literal_result
    by (destruct val; try contradiction; exact I).
  destruct Hname as [Hlength Hnoproto]. unfold bind, lift.
  rewrite (Array_set_ordinary _ _ _ _ Hlength Hnoproto Hproto).
  cbn [collect]. rewrite Hproto. now apply IH.
Qed.

(** X18. A named argument called [length] is an assignment to the
    length of the array of named arguments, not an argument: in a call
    of a function, after literal arguments with ordinary names, a
    [length] whose value is a number literal throws a type error, and
    one whose value is a string or a keyword that is not an array length
    throws a range error. The exception leaves [CallExpression]; the
    function is not called and nothing is recorded. *)
Theorem length_argument_throws `{Host} (f : nat) (env : Env)
    (callee : jsstring) (l rest : list node) (val : node) (st : state)
    (builtin : bool) (fn : jsfunction) (k : error_kind)
    (Hslot : lookup_function (ctx env) callee =
               Some (builtin, SlotFunction fn))
    (Hargs : Forall literal_arg l)
    (Hnames : Forall ordinary_name l)
    (Hval : length_error val = Some k) :
  exists e,
    CallExpression (Type_ (S f)) env callee
      (l ++ Narg (js "length") val :: rest) st = (Throw e, st) /\
    kind e = k.
Proof.
  unfold CallExpression, FunctionReference.
  fold (lookup_function (ctx env) callee). rewrite Hslot.
  unfold bind at 1, ret at 1. cbn [is_FluentNone]. unfold bind at 1.
  rewrite CallExpression_loop_app by (auto; reflexivity).
  pose proof (collect_length l [] no_keyargs) as [_ Hproto].
  destruct (collect l [] no_keyargs) as [posargs keyargs].
  cbn [fst snd] in *. rewrite CallExpression_loop_cons. cbn [call_target].
  unfold bind at 1.
  destruct val as [s| | | |s|n| | | | | | | | | | |]; try discriminate;
    rewrite Type_literal_result by exact I; unfold bind, lift, Array_set;
    rewrite bool_decide_eq_true_2 by reflexivity; simpl in *.
  - destruct (array_length_of (StringToNumber s)); [discriminate|].
    injection Hval as <-. eexists. split; reflexivity.
  - destruct (array_length_of (StringToNumber s)); [discriminate|].
    injection Hval as <-. eexists. split; reflexivity.
  - injection Hval as <-. eexists. split; reflexivity.
Qed.

Lemma length_argument_throws_witness :
  (exists e,
      CallExpression (Type_ (H := Sample.host) 1) Scenarios.env
        (js "NUMBER")
        ([Num (js "5")] ++ Narg (js "length") (Num (js "2")) :: [])
        Scenarios.start = (Throw e, Scenarios.start) /\
      kind e = TypeError) /\
  (exists e,
      CallExpression (Type_ (H := Sample.host) 1) Scenarios.env
        (js "NUMBER")
        ([Num (js "5")] ++ Narg (js "length") (Kw (js "long")) :: [])
        Scenarios.start = (Throw e, Scenarios.start) /\
      kind e = RangeError).
Proof.
  split.
  - refine (length_argument_throws (H := Sample.host) 0 Scenarios.env
              (js "NUMBER") [Num (js "5")] [] (Num (js "2"))
              Scenarios.start true Sample.NUMBER TypeError _ _ _ _).
    + reflexivity.
    + repeat constructor.
    + repeat constructor.
    + reflexivity.
  - refine (length_argument_throws (H := Sample.host) 0 Scenarios.env
              (js "NUMBER") [Num (js "5")] [] (Kw (js "long"))
              Scenarios.start true Sample.NUMBER RangeError _ _ _ _).
    + reflexivity.
    + repeat constructor.
    + repeat constructor.
    + vm_compute. reflexivity.
Defined.

(** X19. An invalid date is resolved and not formatted: a message of
    the single placeable [{ $when }], given an invalid date, resolves to
    the date as its one part and records nothing, and joining the parts
    throws the range error of [Intl.DateTimeFormat]. A reference to that
    message from another pattern measures the parts with
    [PlaceableLength], so there the exception leaves the resolver
    itself. *)
Theorem invalid_date_escapes `{Host} (f : nat) (env : Env)
    (bag : gmap jsstring jsarg) (name message : jsstring) (i : ident)
    (t : float) (rest result : list node) (st : state)
    (Hbag : args env = Some bag)
    (Hplain : bag !! js "hasOwnProperty" = None)
    (Hdate : bag !! name = Some (ArgDate t))
    (Hinvalid : valid_time t = false)
    (Hm : messages (ctx env) !! message = Some (Arr i [Ext name]))
    (Hclean : i ∉ dirty st) :
  Type_ (S (S f)) env (Arr i [Ext name]) st =
    (Ok (Arr (Allocated (next st))
           (pushed env [] [Val (TDateTime t None)])),
     mkState (errors st) (dirty st) (S (next st))) /\
  join_parts (ctx env) (pushed env [] [Val (TDateTime t None)]) =
    Throw (mkError RangeError (js "Invalid time value")) /\
  Pattern_loop (Type_ (S (S (S f)))) env (Ref message :: rest) result st =
    (Throw (mkError RangeError (js "Invalid time value")),
     mkState (errors st) (dirty st) (S (next st))).
Proof.
  assert (Hrun :
    Type_ (S (S f)) env (Arr i [Ext name]) st =
      (Ok (Arr (Allocated (next st))
             (pushed env [] [Val (TDateTime t None)])),
       mkState (errors st) (dirty st) (S (next st)))).
  { rewrite Type_Arr.
    unfold Pattern, bind at 1, dirty_has. cbn [dirty].
    rewrite bool_decide_eq_false_2 by exact Hclean.
    unfold bind at 1, dirty_add. unfold bind at 1, alloc.
    cbn [errors dirty next].
    rewrite Pattern_loop_placeable by discriminate.
    unfold bind at 1. unfold bind at 1. cbn [Type_ Type_body].
    rewrite (ExternalArgument_plain_bag env bag name _ Hbag Hplain), Hdate.
    unfold bind at 1.
    rewrite Pattern_part_plain by discriminate.
    cbn [Pattern_loop]. unfold ret at 1, bind, dirty_delete, ret.
    cbn [errors dirty next].
    replace ((dirty st ∪ {[i]}) ∖ {[i]}) with (dirty st) by set_solver.
    reflexivity. }
  split; [exact Hrun|]. split.
  - unfold pushed. destruct (useIsolating (ctx env)); simpl;
      now rewrite Hinvalid.
  - rewrite Pattern_loop_placeable by discriminate.
    unfold bind at 1. rewrite Type_Ref. unfold bind at 1, MessageReference.
    rewrite Hm. cbn [falsy]. unfold ret at 1. rewrite Hrun.
    unfold bind at 1, Pattern_part, bind, lift, PlaceableLength, pushed.
    destruct (useIsolating (ctx env)); simpl; now rewrite Hinvalid.
Qed.

Lemma invalid_date_escapes_witness :
  Type_ (H := Sample.host) 2 Scenarios.stamped
    (Arr (Parsed 0) [Ext (js "when")]) Scenarios.start =
    (Ok (Arr (Allocated (next Scenarios.start))
           (pushed Scenarios.stamped []
              [Val (TDateTime PrimFloat.nan None)])),
     mkState (errors Scenarios.start) (dirty Scenarios.start)
       (S (next Scenarios.start))) /\
  join_parts (H := Sample.host) (ctx Scenarios.stamped)
    (pushed Scenarios.stamped [] [Val (TDateTime PrimFloat.nan None)]) =
    Throw (mkError RangeError (js "Invalid time value")) /\
  Pattern_loop (Type_ (H := Sample.host) 3) Scenarios.stamped
    [Ref (js "stamp")] [] Scenarios.start =
    (Throw (mkError RangeError (js "Invalid time value")),
     mkState (errors Scenarios.start) (dirty Scenarios.start)
       (S (next Scenarios.start))).
Proof.
  refine (invalid_date_escapes (H := Sample.host) 0 Scenarios.stamped
            {[ js "when" := ArgDate PrimFloat.nan ]} (js "when")
            (js "stamp") (Parsed 0) PrimFloat.nan [] [] Scenarios.start
            _ _ _ _ _ _).
  - reflexivity.
  - vm_compute. reflexivity.
  - vm_compute. reflexivity.
  - reflexivity.
  - vm_compute. reflexivity.
  - vm_compute. discriminate.
Defined.
